(** * deepmerge.py: merging directory trees by modification time and content

    A shallow embedding of [deepmerge.py].  The program walks one or more
    source trees and mirrors them into a destination tree; a file that is
    already present at the destination is reconciled by comparing
    modification times and MD5 digests, with the digests seen per
    destination path remembered in the global dictionary [dest_hashes].

    Modelling choices
    - A path string is represented by the list of its components, so that
      [os.path.sep.join([a, b])] is list concatenation and the string
      [D + '--' + ts_str(t)] is the path whose last component got longer.
    - The file system is a finite map from paths to nodes (regular file
      with its bytes and modification time, or directory).  Times are
      whole seconds since the epoch, where Python has floats; access times
      and directory times are not tracked.
    - The program is written in a state-and-exception monad over the file
      system, the dictionary [dest_hashes] and a trace of the externally
      visible operations (printed lines and file-system mutations).
    - Library calls ([os], [shutil], [hashlib], [datetime]) are modelled
      after their documented behaviour on regular files and directories. *)

From stdpp Require Import gmap strings list fin_maps.
From Stdlib Require Import ZArith Ascii.

#[local] Open Scope Z_scope.

(** ** hashlib.md5 *)

Module MD5.

Definition w32 (x : Z) : Z := x mod 4294967296.

Definition rotl32 (x c : Z) : Z :=
  w32 (Z.lor (Z.shiftl x c) (Z.shiftr x (32 - c))).

Definition not32 (x : Z) : Z := Z.lxor x 4294967295.

Definition K : list Z :=
  [3614090360; 3905402710; 606105819; 3250441966; 4118548399; 1200080426;
   2821735955; 4249261313; 1770035416; 2336552879; 4294925233; 2304563134;
   1804603682; 4254626195; 2792965006; 1236535329; 4129170786; 3225465664;
   643717713; 3921069994; 3593408605; 38016083; 3634488961; 3889429448;
   568446438; 3275163606; 4107603335; 1163531501; 2850285829; 4243563512;
   1735328473; 2368359562; 4294588738; 2272392833; 1839030562; 4259657740;
   2763975236; 1272893353; 4139469664; 3200236656; 681279174; 3936430074;
   3572445317; 76029189; 3654602809; 3873151461; 530742520; 3299628645;
   4096336452; 1126891415; 2878612391; 4237533241; 1700485571; 2399980690;
   4293915773; 2240044497; 1873313359; 4264355552; 2734768916; 1309151649;
   4149444226; 3174756917; 718787259; 3951481745].

Definition shifts : list Z :=
  [7; 12; 17; 22; 7; 12; 17; 22; 7; 12; 17; 22; 7; 12; 17; 22;
   5; 9; 14; 20; 5; 9; 14; 20; 5; 9; 14; 20; 5; 9; 14; 20;
   4; 11; 16; 23; 4; 11; 16; 23; 4; 11; 16; 23; 4; 11; 16; 23;
   6; 10; 15; 21; 6; 10; 15; 21; 6; 10; 15; 21; 6; 10; 15; 21].

Definition bytes_of (s : string) : list Z :=
  (λ a, Z.of_N (N_of_ascii a)) <$> String.list_ascii_of_string s.

(** Little-endian bytes of a number, [n] of them. *)
Fixpoint le_bytes (n : nat) (x : Z) : list Z :=
  match n with
  | O => []
  | S n' => x mod 256 :: le_bytes n' (x / 256)
  end.

Fixpoint le_word (bs : list Z) : Z :=
  match bs with
  | [] => 0
  | b :: bs' => b + 256 * le_word bs'
  end.

Definition pad (msg : list Z) : list Z :=
  let len := Z.of_nat (length msg) in
  let zeros := Z.to_nat ((55 - len) mod 64) in
  msg ++ [128] ++ replicate zeros 0 ++ le_bytes 8 (w32 (8 * len) + 4294967296 * ((8 * len) / 4294967296 mod 4294967296)).

Fixpoint words (n : nat) (bs : list Z) : list Z :=
  match n with
  | O => []
  | S n' => le_word (take 4 bs) :: words n' (drop 4 bs)
  end.

Definition round (M : list Z) (i : nat) (st : Z * Z * Z * Z) : Z * Z * Z * Z :=
  let '(a, b, c, d) := st in
  let iz := Z.of_nat i in
  let '(f, g) :=
    if iz <? 16 then (Z.lor (Z.land b c) (Z.land (not32 b) d), iz)
    else if iz <? 32 then (Z.lor (Z.land d b) (Z.land (not32 d) c), (5 * iz + 1) mod 16)
    else if iz <? 48 then (Z.lxor b (Z.lxor c d), (3 * iz + 5) mod 16)
    else (Z.lxor c (Z.lor b (not32 d)), (7 * iz) mod 16) in
  let f' := w32 (f + a + K !!! i + M !!! Z.to_nat g) in
  (d, w32 (b + rotl32 f' (shifts !!! i)), b, c).

Definition block (st : Z * Z * Z * Z) (bs : list Z) : Z * Z * Z * Z :=
  let M := words 16 bs in
  let '(a, b, c, d) := st in
  let '(a', b', c', d') := foldl (λ s i, round M i s) st (seq 0 64) in
  (w32 (a + a'), w32 (b + b'), w32 (c + c'), w32 (d + d')).

Fixpoint blocks (n : nat) (st : Z * Z * Z * Z) (bs : list Z) : Z * Z * Z * Z :=
  match n with
  | O => st
  | S n' => blocks n' (block st (take 64 bs)) (drop 64 bs)
  end.

Definition hex_digit (n : Z) : ascii :=
  ascii_of_N (Z.to_N (if n <? 10 then 48 + n else 87 + n)).

Definition hex_byte (b : Z) : string :=
  String (hex_digit (b / 16)) (String (hex_digit (b mod 16)) EmptyString).

Definition hexdigest (s : string) : string :=
  let bs := pad (bytes_of s) in
  let '(a, b, c, d) :=
    blocks (length bs / 64) (1732584193, 4023233417, 2562383102, 271733878) bs in
  String.concat "" (hex_byte <$> (le_bytes 4 a ++ le_bytes 4 b ++ le_bytes 4 c ++ le_bytes 4 d)).

End MD5.

(** [hashlib.md5(data).hexdigest()] *)
Definition md5 (data : string) : string := MD5.hexdigest data.

(** ** datetime.fromtimestamp(t).strftime('%Y-%m-%d--at--%H-%M-%S') *)

Module Civil.

(** Proleptic Gregorian date of a day number counted from 1970-01-01. *)
Definition civil_from_days (days : Z) : Z * Z * Z :=
  let z := days + 719468 in
  let era := z / 146097 in
  let doe := z - era * 146097 in
  let yoe := (doe - doe / 1460 + doe / 36524 - doe / 146096) / 365 in
  let doy := doe - (365 * yoe + yoe / 4 - yoe / 100) in
  let mp := (5 * doy + 2) / 153 in
  let d := doy - (153 * mp + 2) / 5 + 1 in
  let m := if mp <? 10 then mp + 3 else mp - 9 in
  let y := yoe + era * 400 in
  (if m <=? 2 then y + 1 else y, m, d).

Definition year (secs : Z) : Z := (civil_from_days (secs / 86400)).1.1.
Definition month (secs : Z) : Z := (civil_from_days (secs / 86400)).1.2.
Definition day (secs : Z) : Z := (civil_from_days (secs / 86400)).2.
Definition hour (secs : Z) : Z := secs mod 86400 / 3600.
Definition minute (secs : Z) : Z := secs mod 3600 / 60.
Definition second (secs : Z) : Z := secs mod 60.

Definition digit (n : Z) : ascii := ascii_of_N (Z.to_N (48 + n mod 10)).

Definition is_digit (a : ascii) : bool :=
  let n := N_of_ascii a in (48 <=? n)%N && (n <=? 57)%N.

Definition pad2 (n : Z) : string :=
  String (digit (n / 10)) (String (digit n) EmptyString).

Definition pad4 (n : Z) : string :=
  String (digit (n / 1000)) (String (digit (n / 100)) (pad2 n)).

(** The shape [YYYY-MM-DD--at--HH-MM-SS]: 24 characters, digits everywhere
    but at the separators. *)
Definition well_shaped (s : string) : bool :=
  match String.list_ascii_of_string s with
  | [y1; y2; y3; y4; s1; m1; m2; s2; d1; d2; s3; s4; a; t; s5; s6;
     h1; h2; s7; i1; i2; s8; c1; c2] =>
      forallb is_digit [y1; y2; y3; y4; m1; m2; d1; d2; h1; h2; i1; i2; c1; c2]
      && bool_decide ([s1; s2; s3; s4; a; t; s5; s6; s7; s8]
                      = String.list_ascii_of_string "----at----")
  | _ => false
  end.

End Civil.

(** ** The file system, the ledger and the trace *)

Abbreviation path := (list string).

Inductive node :=
  | File (data : string) (mtime : Z)
  | Dir.

#[global] Instance node_eq_dec : EqDecision node.
Proof. solve_decision. Defined.

Inductive event :=
  | Print (line : string)
  | Mkdir (p : path)
  | Copy2 (src dst : path)
  | Move (src dst : path)
  | Utime (p : path) (atime mtime : Z).

Inductive exn :=
  | FileExistsError (p : path)
  | FileNotFoundError (p : path)
  | IsADirectoryError (p : path)
  | NotADirectoryError (p : path)
  | SameFileError (p q : path)
  | ShutilError (p : path)
  | KeyError (p : path)
  | RecursionError
  | SystemExit (code : Z)
  | Unmodelled (what : string).

(** [fs] is the file system, [dest_hashes] the global dictionary of the
    program (line 23), [trace] what the run did so far, oldest first. *)
Record state := State {
  fs : gmap path node;
  dest_hashes : gmap path (list string);
  trace : list event
}.

Definition set_fs (f : gmap path node → gmap path node) (st : state) : state :=
  State (f (fs st)) (dest_hashes st) (trace st).

Definition set_dest_hashes
    (f : gmap path (list string) → gmap path (list string)) (st : state) : state :=
  State (fs st) (f (dest_hashes st)) (trace st).

Definition emit (e : event) (st : state) : state :=
  State (fs st) (dest_hashes st) (trace st ++ [e]).

Inductive result (A : Type) :=
  | Ok (a : A)
  | Raise (e : exn).
Arguments Ok {A} a.
Arguments Raise {A} e.

(** A computation reads and updates the state and either returns or raises;
    a raised exception keeps the state reached so far. *)
Definition M (A : Type) : Type := state → result A * state.

#[global] Instance M_ret : MRet M := λ A a st, (Ok a, st).

#[global] Instance M_bind : MBind M := λ A B k m st,
  match m st with
  | (Ok a, st') => k a st'
  | (Raise e, st') => (Raise e, st')
  end.

Definition raise {A} (e : exn) : M A := λ st, (Raise e, st).

(** [for x in l: body(x)] *)
Fixpoint for_each {A} (l : list A) (body : A → M unit) : M unit :=
  match l with
  | [] => mret tt
  | x :: l' => body x ;; for_each l' body
  end.

(** *** Paths *)

Definition dirname (p : path) : path := removelast p.
Definition basename (p : path) : string := List.last p "".

(** The string of a path, for messages. *)
Definition path_str (p : path) : string := String.concat "/" p.

(** *** os, shutil *)

Definition exists_in (m : gmap path node) (p : path) : bool :=
  match m !! p with Some _ => true | None => false end.

Definition isdir_in (m : gmap path node) (p : path) : bool :=
  match m !! p with Some Dir => true | _ => false end.

Definition os_path_exists (p : path) : M bool := λ st,
  (Ok (exists_in (fs st) p), st).

Definition os_path_isdir (p : path) : M bool := λ st,
  (Ok (isdir_in (fs st) p), st).

(** Why a file or directory cannot be created at [p], if it cannot: the
    directory that is to hold it must exist. *)
Definition parent_error (m : gmap path node) (p : path) : option exn :=
  match p with
  | [] => Some (FileNotFoundError p)
  | _ =>
      match m !! dirname p with
      | None => Some (FileNotFoundError p)
      | Some (File _ _) => Some (NotADirectoryError p)
      | Some Dir => None
      end
  end.

Definition os_mkdir (p : path) : M unit := λ st,
  match fs st !! p with
  | Some _ => (Raise (FileExistsError p), st)
  | None =>
      match parent_error (fs st) p with
      | Some e => (Raise e, st)
      | None => (Ok tt, emit (Mkdir p) (set_fs (insert p Dir) st))
      end
  end.

(** The names in directory [p]: the last components of the paths that lie
    directly below it, in the order the map enumerates them. *)
Definition child_of (p k : path) : option string :=
  if bool_decide (k ≠ [] ∧ dirname k = p) then Some (basename k) else None.

Definition children (m : gmap path node) (p : path) : list string :=
  omap (child_of p) (map_to_list m).*1.

Definition os_listdir (p : path) : M (list string) := λ st,
  match fs st !! p with
  | None => (Raise (FileNotFoundError p), st)
  | Some (File _ _) => (Raise (NotADirectoryError p), st)
  | Some Dir => (Ok (children (fs st) p), st)
  end.

(** [os.stat(p).st_mtime]; the time of a directory is not tracked and the
    program never uses one. *)
Definition st_mtime (p : path) : M Z := λ st,
  match fs st !! p with
  | None => (Raise (FileNotFoundError p), st)
  | Some (File _ t) => (Ok t, st)
  | Some Dir => (Ok 0, st)
  end.

(** [open(p, 'rb').read()] *)
Definition read_file (p : path) : M string := λ st,
  match fs st !! p with
  | None => (Raise (FileNotFoundError p), st)
  | Some Dir => (Raise (IsADirectoryError p), st)
  | Some (File data _) => (Ok data, st)
  end.

(** [os.utime(p, (atime, mtime))].  With times in whole seconds, setting
    the time that [os.stat] has just given changes nothing; on a real file
    system the call also sets the access time and rounds the modification
    time to what a float holds. *)
Definition os_utime (p : path) (atime mtime : Z) : M unit := λ st,
  match fs st !! p with
  | None => (Raise (FileNotFoundError p), st)
  | Some (File data _) =>
      (Ok tt, emit (Utime p atime mtime) (set_fs (insert p (File data mtime)) st))
  | Some Dir => (Ok tt, emit (Utime p atime mtime) st)
  end.

(** [shutil.copy2(src, dst)]: the bytes and the modification time of [src]
    end up at [dst], or inside [dst] when that is a directory. *)
Definition shutil_copy2 (src dst : path) : M unit := λ st,
  let real_dst :=
    if isdir_in (fs st) dst then dst ++ [basename src] else dst in
  match fs st !! src with
  | None => (Raise (FileNotFoundError src), st)
  | Some Dir =>
      if bool_decide (src = real_dst) then (Raise (SameFileError src real_dst), st)
      else (Raise (IsADirectoryError src), st)
  | Some (File data mtime) =>
      if bool_decide (src = real_dst) then (Raise (SameFileError src real_dst), st)
      else match fs st !! real_dst with
      | Some Dir => (Raise (IsADirectoryError real_dst), st)
      | _ =>
          match parent_error (fs st) real_dst with
          | Some e => (Raise e, st)
          | None =>
              (Ok tt, emit (Copy2 src real_dst)
                        (set_fs (insert real_dst (File data mtime)) st))
          end
      end
  end.

(** [shutil.move(src, dst)] of a regular file: a rename, into [dst] when
    that is a directory, over [dst] when that is a regular file.  Moving a
    directory is left out: the program only moves a path that it has just
    read as a regular file, and [modelled_main] below shows that no run
    ever gets to the [Unmodelled] case. *)
Definition shutil_move (src dst : path) : M unit := λ st,
  let into := isdir_in (fs st) dst in
  let real_dst := if into then dst ++ [basename src] else dst in
  if into && exists_in (fs st) real_dst
  then (Raise (ShutilError real_dst), st)
  else match fs st !! src with
  | None => (Raise (FileNotFoundError src), st)
  | Some Dir => (Raise (Unmodelled "shutil.move of a directory"), st)
  | Some (File data mtime) =>
      match parent_error (fs st) real_dst with
      | Some e => (Raise e, st)
      | None =>
          (Ok tt, emit (Move src real_dst)
                    (set_fs (λ m, <[real_dst := File data mtime]> (delete src m)) st))
      end
  end.

Definition print (line : string) : M unit := λ st, (Ok tt, emit (Print line) st).

Definition sys_exit {A} (code : Z) : M A := raise (SystemExit code).

(** *** The dictionary dest_hashes *)

(** [path in dest_hashes] *)
Definition hashes_has (p : path) : M bool := λ st,
  (Ok (match dest_hashes st !! p with Some _ => true | None => false end), st).

(** [dest_hashes[path] = l] *)
Definition hashes_set (p : path) (l : list string) : M unit := λ st,
  (Ok tt, set_dest_hashes (insert p l) st).

(** [dest_hashes[path]] *)
Definition hashes_get (p : path) : M (list string) := λ st,
  match dest_hashes st !! p with
  | Some l => (Ok l, st)
  | None => (Raise (KeyError p), st)
  end.

(** [dest_hashes[path].append(h)] *)
Definition hashes_append (p : path) (h : string) : M unit :=
  l ← hashes_get p; hashes_set p (l ++ [h]).

(** ** The program *)

Record Args := { destination : path; source : list path }.

Section Program.

(** The local time zone: seconds east of UTC at a given instant. *)
Variable utcoffset : Z → Z.

(** The global [args] (line 151). *)
Variable args : Args.

(** Lines 26-35.  The digits are those of [strftime] for a local time
    whose year has four digits (1000 to 9999). *)
Definition ts_str (timestamp : Z) : string :=
  let t := timestamp + utcoffset timestamp in
  Civil.pad4 (Civil.year t) +:+ "-" +:+ Civil.pad2 (Civil.month t) +:+ "-"
    +:+ Civil.pad2 (Civil.day t) +:+ "--at--" +:+ Civil.pad2 (Civil.hour t)
    +:+ "-" +:+ Civil.pad2 (Civil.minute t) +:+ "-" +:+ Civil.pad2 (Civil.second t).

(** Lines 38-59. *)
Definition assure_dest_hash (p : path) : M string :=
  known ← hashes_has p;
  (if negb known then hashes_set p [] else mret tt);;
  data ← read_file p;
  let current_hash := md5 data in
  seen ← hashes_get p;
  (if bool_decide (current_hash ∈ seen) then mret tt
   else hashes_append p current_hash);;
  mret current_hash.

(** Lines 92-143: the body of the loop for an entry [f] of [source] that is
    not a directory.  [source ++ [f]] is [os.path.sep.join([source, f])],
    and [dest ++ [f +:+ "--" +:+ ts]] is
    [os.path.sep.join([dest, f]) + '--' + ts]. *)
Definition merge_entry (source dest : path) (f : string) : M unit :=
  let S := source ++ [f] in
  let D := dest ++ [f] in
  present ← os_path_exists D;
  if negb present then
    shutil_copy2 S D;;
    _ ← assure_dest_hash D;
    mret tt
  else
    s_mod ← st_mtime S;
    d_mod ← st_mtime D;
    s_data ← read_file S;
    let s_hash := md5 s_data in
    d_hash ← assure_dest_hash D;
    if d_mod <? s_mod then
      if bool_decide (s_hash = d_hash) then
        print (path_str S +:+ "; newer but identical; updating modified date");;
        os_utime S s_mod s_mod
      else
        print (path_str S +:+ "; newer and different; save/copy");;
        shutil_move D (dest ++ [f +:+ "--" +:+ ts_str d_mod]);;
        shutil_copy2 S D;;
        hashes_append D s_hash
    else
      if negb (s_mod =? d_mod) then
        seen ← hashes_get D;
        if bool_decide (s_hash ∈ seen) then mret tt
        else
          print (path_str S +:+ "; older but different; saving");;
          shutil_copy2 S (dest ++ [f +:+ "--" +:+ ts_str s_mod]);;
          hashes_append D s_hash
      else mret tt.

(** Lines 73-78: the directory walked and its mirror image. *)
Definition source_of (source_dir : path) (sub_dir : option path) : path :=
  match sub_dir with None => source_dir | Some sd => source_dir ++ sd end.

Definition dest_of (sub_dir : option path) : path :=
  match sub_dir with
  | None => destination args
  | Some sd => destination args ++ sd
  end.

(** Lines 80-83: make sure the mirror directory is there, then list the
    directory walked. *)
Definition enter_dir (source dest : path) : M (list string) :=
  is_dir ← os_path_isdir dest;
  (if negb is_dir then os_mkdir dest else mret tt);;
  os_listdir source.

(** Lines 84-143: the body of the loop; [recurse] stands for the recursive
    call. *)
Definition visit (recurse : path → option path → M unit)
    (source_dir : path) (sub_dir : option path) (f : string) : M unit :=
  sub ← os_path_isdir (source_of source_dir sub_dir ++ [f]);
  if (sub : bool) then
    match sub_dir with
    | None => recurse source_dir (Some [f])
    | Some sd => recurse source_dir (Some (sd ++ [f]))
    end
  else merge_entry (source_of source_dir sub_dir) (dest_of sub_dir) f.

(** Lines 62-143.  [depth] is the room left on the interpreter's call
    stack, counted in nested calls of [recurse_dir]: a call that finds none
    raises [RecursionError].  The interpreter also counts the frame of the
    module and the frames of the library calls, so the program gives up no
    later than this model does. *)
Fixpoint recurse_dir (depth : nat) (source_dir : path) (sub_dir : option path)
    : M unit :=
  match depth with
  | O => raise RecursionError
  | S depth' =>
      names ← enter_dir (source_of source_dir sub_dir) (dest_of sub_dir);
      for_each names (visit (recurse_dir depth') source_dir sub_dir)
  end.

(** Lines 158-161: the check of one source path. *)
Definition check_source (src : path) : M unit :=
  ok ← os_path_isdir src;
  if negb ok then
    print ("ERROR: source path " +:+ path_str src +:+ " does not exist");;
    sys_exit (-1)
  else mret tt.

(** Lines 164-166: the walk of one source root. *)
Definition process_source (recursion_limit : nat) (src : path) : M unit :=
  print ("####### Processing source " +:+ path_str src +:+ " #######");;
  recurse_dir recursion_limit src None.

(** Lines 153-168, after [parse_args]: [source] is declared with
    [nargs='*'], so [args.source] is a list, possibly empty, and the test of
    line 154 never fires. *)
Definition main (recursion_limit : nat) : M unit :=
  for_each (source args) check_source;;
  for_each (source args) (process_source recursion_limit);;
  print "Run complete".

End Program.

(** The status the process ends with: 0 when the script runs to its end,
    the argument of [sys.exit] (as the operating system truncates it) and 1
    for any other exception that nothing catches. *)
Definition exit_status {A} (r : result A) : Z :=
  match r with
  | Ok _ => 0
  | Raise (SystemExit code) => code mod 256
  | Raise _ => 1
  end.

(** A process starts with an empty dictionary and has done nothing yet. *)
Definition fresh (m : gmap path node) : state := State m ∅ [].

(** The time zone of a machine that keeps UTC. *)
Definition utc (t : Z) : Z := 0.

(** The ledger after [assure_dest_hash p] has met a file with digest [h]
    at [p]. *)
Definition assured (p : path) (h : string)
    (d : gmap path (list string)) : gmap path (list string) :=
  let seen := default [] (d !! p) in
  <[p := if bool_decide (h ∈ seen) then seen else seen ++ [h]]> d.

(** The ledger after [dest_hashes[p].append(h)]. *)
Definition recorded (p : path) (h : string)
    (d : gmap path (list string)) : gmap path (list string) :=
  <[p := default [] (d !! p) ++ [h]]> d.

(** A file with digest [h] sits at [dest/f] or at [dest/f--<suffix>]. *)
Definition holds_digest (m : gmap path node) (dest : path) (f h : string) : Prop :=
  ∃ name data t,
    (name = f ∨ ∃ suffix, name = f +:+ "--" +:+ suffix)
    ∧ m !! (dest ++ [name]) = Some (File data t)
    ∧ md5 data = h.

(** The ledger only gains: every entry is still there, with at least the
    digests it had. *)
Definition ledger_le (d d' : gmap path (list string)) : Prop :=
  ∀ p l, d !! p = Some l → ∃ l', d' !! p = Some l' ∧ l ⊆ l'.

(** [later st st']: the program, going on from [st], reaches [st'] by
    printing, entering directories and reconciling files. *)
Inductive later (utcoffset : Z → Z) (args : Args) : state → state → Prop :=
  | later_now st : later utcoffset args st st
  | later_print st st1 line r st2 :
      later utcoffset args st st1 →
      print line st1 = (r, st2) →
      later utcoffset args st st2
  | later_enter st st1 source dest r st2 :
      later utcoffset args st st1 →
      enter_dir source dest st1 = (r, st2) →
      later utcoffset args st st2
  | later_entry st st1 source dest f r st2 :
      later utcoffset args st st1 →
      merge_entry utcoffset source dest f st1 = (r, st2) →
      later utcoffset args st st2
  | later_walk st st1 depth source_dir sub_dir r st2 :
      later utcoffset args st st1 →
      recurse_dir utcoffset args depth source_dir sub_dir st1 = (r, st2) →
      later utcoffset args st st2.

(** How many files a trace copied. *)
Definition copies (evs : list event) : nat :=
  length (List.filter (λ e, match e with Copy2 _ _ => true | _ => false end) evs).

(** [m] never asks for the process to exit: what it raises is an error. *)
Definition no_exit {A} (m : M A) : Prop :=
  ∀ st e st', m st = (Raise e, st') → ∀ code, e ≠ SystemExit code.

(** [m] stays within what the model of the library covers. *)
Definition modelled {A} (m : M A) : Prop :=
  ∀ st e st', m st = (Raise e, st') → ∀ what, e ≠ Unmodelled what.

(** [m] removes no directory and puts nothing in the place of one. *)
Definition keeps_dirs {A} (m : M A) : Prop :=
  ∀ st r st' p, m st = (r, st') → fs st !! p = Some Dir → fs st' !! p = Some Dir.

(** No entry of the ledger lists a digest twice. *)
Definition ledger_nodup (d : gmap path (list string)) : Prop :=
  ∀ p l, d !! p = Some l → NoDup l.

(** [m] only makes the ledger gain. *)
Definition grows {A} (m : M A) : Prop :=
  ∀ st r st', m st = (r, st') → ledger_le (dest_hashes st) (dest_hashes st').

Arguments md5 : simpl never.
Arguments Civil.digit : simpl never.
Arguments Civil.is_digit : simpl never.
Arguments ts_str : simpl never.
Arguments path_str : simpl never.

(** ** Small trees to run the program on *)

Module Scenario.

(** A destination [d] and two source roots [s1], [s2] below the working
    directory, with the given files. *)
Definition tree (files : list (path * node)) : gmap path node :=
  list_to_map ([([], Dir); (["d"], Dir); (["s1"], Dir); (["s2"], Dir)] ++ files).

Definition one_source : Args := {| destination := ["d"]; source := [["s1"]] |}.
Definition two_sources : Args :=
  {| destination := ["d"]; source := [["s1"]; ["s2"]] |}.

(** The depth at which CPython gives up recursing. *)
Definition limit : nat := 1000.

(** Same bytes, the source newer. *)
Definition newer_identical : gmap path node :=
  tree [(["d"; "a"], File "A" 3); (["s1"; "a"], File "A" 5)].

(** Other bytes, the source newer. *)
Definition newer_different : gmap path node :=
  tree [(["d"; "a"], File "A" 3); (["s1"; "a"], File "B" 5)].

(** Other bytes, the source older. *)
Definition older_different : gmap path node :=
  tree [(["d"; "a"], File "A" 5); (["s1"; "a"], File "B" 3)].

(** Other bytes, the same time. *)
Definition same_time : gmap path node :=
  tree [(["d"; "a"], File "A" 5); (["s1"; "a"], File "B" 5)].

(** Two roots with the same bytes, both older than the destination. *)
Definition twice_older : gmap path node :=
  tree [(["d"; "a"], File "A" 9); (["s1"; "a"], File "B" 2);
        (["s2"; "a"], File "B" 4)].

(** A root as new as it gets with the bytes of the destination, and a
    root in between with other bytes. *)
Definition rerun : gmap path node :=
  tree [(["d"; "a"], File "A" 3); (["s1"; "a"], File "A" 5);
        (["s2"; "a"], File "B" 4)].

(** The same bytes once older and once newer than the destination. *)
Definition older_then_newer : gmap path node :=
  tree [(["d"; "a"], File "A" 3); (["s1"; "a"], File "B" 2);
        (["s2"; "a"], File "B" 5)].

(** A file of the source where the destination has a directory, and a
    directory of the source where the destination has a file. *)
Definition file_on_dir : gmap path node :=
  tree [(["d"; "a"], Dir); (["s1"; "a"], File "B" 5)].

Definition dir_on_file : gmap path node :=
  tree [(["d"; "sub"], File "A" 3); (["s1"; "sub"], Dir);
        (["s1"; "sub"; "a"], File "B" 5)].

(** No source at all, and a destination that is a regular file. *)
Definition no_source : Args := {| destination := ["d"; "a"]; source := [] |}.

(** A second source that is not there. *)
Definition missing_source : Args :=
  {| destination := ["d"]; source := [["s1"]; ["nowhere"]] |}.

(** A destination that is a regular file. *)
Definition file_destination : Args :=
  {| destination := ["d"; "a"]; source := [["s1"]] |}.

End Scenario.

(** The name under which the reconciliation of [a] would save a file is
    taken by a directory of the destination: once with a newer source of
    other bytes, once with an older one. *)
Definition newer_different_blocked : gmap path node :=
  Scenario.tree [(["d"; "a"], File "A" 3); (["s1"; "a"], File "B" 5);
                 (["d"; "a--1970-01-01--at--00-00-03"], Dir)].

Definition older_different_blocked : gmap path node :=
  Scenario.tree [(["d"; "a"], File "A" 5); (["s1"; "a"], File "B" 3);
                 (["d"; "a--1970-01-01--at--00-00-03"], Dir)].

(** ** Notions for the further properties *)

(** [m] changes no path outside the tree below [d]. *)
Definition confined (d : path) {A} (m : M A) : Prop :=
  ∀ st r st' p, m st = (r, st') → ¬ d `prefix_of` p → fs st' !! p = fs st !! p.

(** [m] raises no [KeyError]; [no_key_error_from p m]: it raises none when
    it starts with an entry for [p] in the ledger. *)
Definition no_key_error {A} (m : M A) : Prop :=
  ∀ st e st', m st = (Raise e, st') → ∀ p, e ≠ KeyError p.

Definition no_key_error_from (p : path) {A} (m : M A) : Prop :=
  ∀ st e st', is_Some (dest_hashes st !! p) → m st = (Raise e, st') →
              ∀ q, e ≠ KeyError q.

(** What a path holds when times are left aside: nothing, a directory, or
    a file with its bytes. *)
Definition bytes_at (m : gmap path node) (p : path) : option (option string) :=
  match m !! p with
  | None => None
  | Some Dir => Some None
  | Some (File data _) => Some (Some data)
  end.

(** Every path of [m] but the top one lies in a directory of [m]. *)
Definition well_formed (m : gmap path node) : Prop :=
  map_Forall (λ k _, k = [] ∨ m !! dirname k = Some Dir) m.

(** Nothing is at [d] or below it. *)
Definition free_below (d : path) (m : gmap path node) : Prop :=
  map_Forall (λ k _, ¬ d `prefix_of` k) m.

(** No path of [m] is [n] or more components long. *)
Definition shallow (n : nat) (m : gmap path node) : Prop :=
  map_Forall (λ k _, (length k < n)%nat) m.

(** Below [s], whatever is in [m] lies in a directory of [m]. *)
Definition closed_below (m : gmap path node) (s : path) : Prop :=
  ∀ q f, is_Some (m !! (s ++ q ++ [f])) → m !! (s ++ q) = Some Dir.

(** No path at or below [s] is at or below [d]. *)
Definition apart (s d : path) : Prop := ∀ q q', s ++ q ≠ d ++ q'.

(** What the walk of one directory is to achieve: from a state where the
    mirror image of the directory walked is free, it completes and makes
    the tree below the image equal to the tree below the directory,
    changing nothing else. *)
Definition mirrors (utcoffset : Z → Z) (args : Args) (depth : nat) (src : path)
    : Prop :=
  ∀ sub st,
    fs st !! source_of src sub = Some Dir →
    closed_below (fs st) (source_of src sub) →
    (∀ q, fs st !! (dest_of args sub ++ q) = None) →
    parent_error (fs st) (dest_of args sub) = None →
    apart (source_of src sub) (dest_of args sub) →
    (∀ q, is_Some (fs st !! (source_of src sub ++ q)) → (length q < depth)%nat) →
    ∃ st',
      recurse_dir utcoffset args depth src sub st = (Ok tt, st')
      ∧ (∀ q, fs st' !! (dest_of args sub ++ q) = fs st !! (source_of src sub ++ q))
      ∧ (∀ p, ¬ dest_of args sub `prefix_of` p → fs st' !! p = fs st !! p).

(** The state of affairs in the walk of [S0], with image [D0], from the
    tree [m], once the entries [done] have been visited. *)
Definition visited (S0 D0 : path) (m : gmap path node) (done : list string)
    (mk : gmap path node) : Prop :=
  mk !! D0 = Some Dir
  ∧ (∀ f q, f ∈ done → mk !! (D0 ++ f :: q) = m !! (S0 ++ f :: q))
  ∧ (∀ p, p ≠ D0 → (∀ f, f ∈ done → ¬ (D0 ++ [f]) `prefix_of` p) →
          mk !! p = m !! p).

(** The tree below [d] is in step with the tree below [s]: where [s] has a
    directory [d] has one, and where [s] has a file [d] has a file that
    carries the same time. *)
Definition in_step (s d : path) (m : gmap path node) : Prop :=
  ∀ q,
    match m !! (s ++ q) with
    | Some Dir => m !! (d ++ q) = Some Dir
    | Some (File B t) => ∃ A, m !! (d ++ q) = Some (File A t)
    | None => True
    end.

(** A source root with a file and a directory that holds a file, and no
    destination yet. *)
Definition nested_source : gmap path node :=
  list_to_map [([], Dir); (["s1"], Dir); (["s1"; "a"], File "A" 5);
               (["s1"; "sub"], Dir); (["s1"; "sub"; "b"], File "B" 3)].

(** ** Notions for the preservation of source content *)

(** A name without two hyphens in a row: no name to which a [--<suffix>]
    has been appended is one. *)
Fixpoint plain (s : string) : bool :=
  match s with
  | EmptyString => true
  | String c r =>
      match r with
      | EmptyString => true
      | String c' _ => negb (Ascii.eqb c "-" && Ascii.eqb c' "-") && plain r
      end
  end.

(** Below [root], every name is plain. *)
Definition plain_below (root : path) (m : gmap path node) : Prop :=
  ∀ rel, is_Some (m !! (root ++ rel)) → Forall (λ c, plain c = true) rel.

(** Every file carries a time whose local year has four digits. *)
Definition four_digit_years (utcoffset : Z → Z) (m : gmap path node) : Prop :=
  map_Forall (λ _ n, match n with
                     | File _ t => 1000 ≤ Civil.year (t + utcoffset t) ≤ 9999
                     | Dir => True
                     end) m.

(** In the tree [m0], the destination or a source root has at the relative
    path [rel] a file whose time is written [s] and whose digest is [h]. *)
Definition origin (utcoffset : Z → Z) (args : Args) (m0 : gmap path node)
    (rel : path) (s h : string) : Prop :=
  ∃ root data t,
    root ∈ destination args :: source args
    ∧ m0 !! (root ++ rel) = Some (File data t)
    ∧ ts_str utcoffset t = s
    ∧ md5 data = h.

(** Among the destination and the source roots, two files at the same
    relative path whose times are written alike have the same digest. *)
Definition one_time_one_digest (utcoffset : Z → Z) (args : Args)
    (m0 : gmap path node) : Prop :=
  ∀ rel s h h',
    origin utcoffset args m0 rel s h → origin utcoffset args m0 rel s h' → h = h'.

(** The directories below [root] have plain names. *)
Definition plain_dirs_below (root : path) (m : gmap path node) : Prop :=
  ∀ rel, m !! (root ++ rel) = Some Dir → Forall (λ c, plain c = true) rel.

(** In [m], a file with digest [h] that stems from the relative path
    [rel/f] of [m0] sits at the same path below the destination, or at
    that path with the suffix of the file's own time. *)
Definition held (utcoffset : Z → Z) (args : Args) (m0 m : gmap path node)
    (rel : path) (f h : string) : Prop :=
  ∃ name data t,
    m !! (destination args ++ rel ++ [name]) = Some (File data t)
    ∧ md5 data = h
    ∧ (name = f ∨ name = f +:+ "--" +:+ ts_str utcoffset t)
    ∧ origin utcoffset args m0 (rel ++ [f]) (ts_str utcoffset t) h.

(** What a run from the tree [m0] keeps true of the tree [m] it has
    reached: outside the destination nothing has changed; every file of a
    plain name below the destination stems from a file of [m0] at the same
    relative path; and the directories below the destination have plain
    names. *)
Record kept_fs (utcoffset : Z → Z) (args : Args) (m0 m : gmap path node)
    : Prop := {
  kept_outside :
    ∀ p, ¬ destination args `prefix_of` p → m !! p = m0 !! p;
  kept_origin :
    ∀ rel f data t,
      plain f = true →
      m !! (destination args ++ rel ++ [f]) = Some (File data t) →
      origin utcoffset args m0 (rel ++ [f]) (ts_str utcoffset t) (md5 data);
  kept_dirs : plain_dirs_below (destination args) m
}.

(** Every digest that the ledger [led] lists for a plain name is held
    in [m]. *)
Definition ledger_held (utcoffset : Z → Z) (args : Args) (m0 : gmap path node)
    (led : gmap path (list string)) (m : gmap path node) : Prop :=
  ∀ rel f h,
    plain f = true →
    h ∈ default [] (led !! (destination args ++ rel ++ [f])) →
    held utcoffset args m0 m rel f h.

Definition kept (utcoffset : Z → Z) (args : Args) (m0 : gmap path node)
    (st : state) : Prop :=
  kept_fs utcoffset args m0 (fs st)
  ∧ ledger_held utcoffset args m0 (dest_hashes st) (fs st).

(** From [m] to [m'] no digest that was held for a plain name has got
    lost. *)
Definition still_held (utcoffset : Z → Z) (args : Args)
    (m0 m m' : gmap path node) : Prop :=
  ∀ rel f h, plain f = true →
             held utcoffset args m0 m rel f h →
             held utcoffset args m0 m' rel f h.

(** Two source roots whose files [a] carry the same time and other bytes,
    both older than the file of the destination. *)
Definition same_second : gmap path node :=
  Scenario.tree [(["d"; "a"], File "A" 9); (["s1"; "a"], File "B" 3);
                 (["s2"; "a"], File "C" 3)].

(** A source root [d/s] that lies inside the destination [d] and has a
    directory of its own name. *)
Definition root_inside : gmap path node :=
  list_to_map [([], Dir); (["d"], Dir); (["d"; "s"], Dir);
               (["d"; "s"; "a"], File "A" 3); (["d"; "s"; "s"], Dir);
               (["d"; "s"; "s"; "a"], File "B" 5)].

Definition inside_destination : Args :=
  {| destination := ["d"]; source := [["d"; "s"]] |}.

(** A source root with a file [a], older than the file of the destination,
    and a file of the name under which the bytes of [a] get saved. *)
Definition suffixed_source_name : gmap path node :=
  Scenario.tree [(["d"; "a"], File "A" 9); (["s1"; "a"], File "B" 3);
                 (["s1"; "a--1970-01-01--at--00-00-03"], File "C" 3)].


(** * Properties *)

Ltac unfold_monad :=
  unfold mbind, M_bind, mret, M_ret, raise, sys_exit in *.

Ltac unfold_prims :=
  unfold os_path_exists, os_path_isdir, os_mkdir, os_listdir, st_mtime,
    read_file, os_utime, shutil_copy2, shutil_move, print, hashes_has,
    hashes_set, hashes_get, hashes_append in *.

Ltac red_m :=
  cbn beta iota zeta delta
    [fs dest_hashes trace set_fs set_dest_hashes emit negb andb orb
     default from_option id fst snd exists_in isdir_in] in *.

Ltac proj_simpl :=
  cbn [fs dest_hashes trace set_fs set_dest_hashes emit] in *.

Ltac use_lookups :=
  repeat match goal with
  | H : ?m !! ?k = _ |- context [?m !! ?k] => rewrite H
  end.

Ltac mrun :=
  repeat (progress (unfold_monad; unfold_prims;
                    unfold set_fs, set_dest_hashes, emit, exists_in,
                      isdir_in in *; red_m;
                    use_lookups; rewrite ?lookup_insert_eq)).

Section Paths.

Implicit Types (d p : path) (f s : string).

Lemma dirname_snoc d f : dirname (d ++ [f]) = d.
Proof. apply removelast_last. Qed.

Lemma basename_snoc d f : basename (d ++ [f]) = f.
Proof. apply last_last. Qed.

Lemma snoc_not_nil d f : d ++ [f] ≠ [].
Proof. by destruct d. Qed.

Lemma parent_error_snoc (m : gmap path node) d f :
  m !! d = Some Dir → parent_error m (d ++ [f]) = None.
Proof.
  intros Hd. unfold parent_error. rewrite dirname_snoc, Hd.
  by destruct d.
Qed.

Lemma length_append f s :
  String.length (f +:+ s) = (String.length f + String.length s)%nat.
Proof. induction f as [|a f IH]; simpl; [done | by rewrite IH]. Qed.

Lemma append_longer f s : s ≠ "" → f +:+ s ≠ f.
Proof.
  intros Hs Heq. apply (f_equal String.length) in Heq.
  rewrite length_append in Heq.
  destruct s; [done | simpl in Heq; lia].
Qed.

Lemma suffixed_ne d d' f s : d ++ [f +:+ "--" +:+ s] ≠ d' ++ [f].
Proof.
  intros [_ Heq]%app_inj_tail. by apply append_longer in Heq.
Qed.

End Paths.

Section Steps.

Variable utcoffset : Z → Z.
Variable args : Args.

Lemma state_eta st : State (fs st) (dest_hashes st) (trace st) = st.
Proof. by destruct st. Qed.

(** On a regular file, [assure_dest_hash] returns its digest and leaves it
    in the ledger, once. *)
Lemma assure_dest_hash_file st p data t :
  fs st !! p = Some (File data t) →
  assure_dest_hash p st
  = (Ok (md5 data), set_dest_hashes (assured p (md5 data)) st).
Proof.
  intros Hp. unfold assure_dest_hash, assured, set_dest_hashes.
  destruct (dest_hashes st !! p) as [seen|] eqn:Hseen; mrun.
  - case_bool_decide; mrun; [|done].
    rewrite insert_id by done. by rewrite state_eta.
  - rewrite bool_decide_eq_false_2 by set_solver. mrun.
    by rewrite insert_insert_eq.
Qed.

(** On a directory it raises, having at most opened an empty entry. *)
Lemma assure_dest_hash_dir st p :
  fs st !! p = Some Dir →
  ∃ st', assure_dest_hash p st = (Raise (IsADirectoryError p), st')
         ∧ fs st' = fs st ∧ trace st' = trace st.
Proof.
  intros Hp. unfold assure_dest_hash. 
  destruct (dest_hashes st !! p) as [seen|] eqn:Hseen; mrun; eauto.
Qed.

(** *** Equations of the monad and of the library calls *)

Lemma bind_ok {A B} (m : M A) (k : A → M B) st a st' :
  m st = (Ok a, st') → (m ≫= k) st = k a st'.
Proof. intros H. unfold mbind, M_bind. by rewrite H. Qed.

Lemma bind_raise {A B} (m : M A) (k : A → M B) st e st' :
  m st = (Raise e, st') → (m ≫= k) st = (Raise e, st').
Proof. intros H. unfold mbind, M_bind. by rewrite H. Qed.

Lemma os_path_exists_eq p st :
  os_path_exists p st = (Ok (exists_in (fs st) p), st).
Proof. done. Qed.

Lemma os_path_isdir_eq p st :
  os_path_isdir p st = (Ok (isdir_in (fs st) p), st).
Proof. done. Qed.

Lemma st_mtime_file p st data t :
  fs st !! p = Some (File data t) → st_mtime p st = (Ok t, st).
Proof. intros H. unfold st_mtime. by rewrite H. Qed.

Lemma read_file_file p st data t :
  fs st !! p = Some (File data t) → read_file p st = (Ok data, st).
Proof. intros H. unfold read_file. by rewrite H. Qed.

Lemma print_eq line st :
  print line st
  = (Ok tt, State (fs st) (dest_hashes st) (trace st ++ [Print line])).
Proof. done. Qed.

Lemma shutil_copy2_file src dst st data t :
  fs st !! src = Some (File data t) →
  src ≠ dst →
  fs st !! dst ≠ Some Dir →
  parent_error (fs st) dst = None →
  shutil_copy2 src dst st
  = (Ok tt, State (<[dst := File data t]> (fs st)) (dest_hashes st)
                  (trace st ++ [Copy2 src dst])).
Proof.
  intros Hsrc Hne Hdst Hpar. unfold shutil_copy2, isdir_in.
  destruct (fs st !! dst) as [[? ?|]|] eqn:Hd; [|done|];
    rewrite Hsrc, bool_decide_eq_false_2, ?Hd, Hpar by done; done.
Qed.

Lemma shutil_move_file src dst st data t :
  fs st !! src = Some (File data t) →
  fs st !! dst ≠ Some Dir →
  parent_error (fs st) dst = None →
  shutil_move src dst st
  = (Ok tt, State (<[dst := File data t]> (delete src (fs st))) (dest_hashes st)
                  (trace st ++ [Move src dst])).
Proof.
  intros Hsrc Hdst Hpar. unfold shutil_move, isdir_in.
  destruct (fs st !! dst) as [[? ?|]|] eqn:Hd; [|done|];
    simpl; rewrite Hsrc, Hpar; done.
Qed.

Lemma hashes_get_some p st l :
  dest_hashes st !! p = Some l → hashes_get p st = (Ok l, st).
Proof. intros H. unfold hashes_get. by rewrite H. Qed.

Lemma hashes_append_some p h st l :
  dest_hashes st !! p = Some l →
  hashes_append p h st
  = (Ok tt, State (fs st) (<[p := l ++ [h]]> (dest_hashes st)) (trace st)).
Proof.
  intros H. unfold hashes_append.
  by rewrite (bind_ok _ _ _ _ _ (hashes_get_some _ _ _ H)).
Qed.

Lemma assured_lookup p h d :
  assured p h d !! p
  = Some (if bool_decide (h ∈ default [] (d !! p)) then default [] (d !! p)
          else default [] (d !! p) ++ [h]).
Proof. unfold assured. by rewrite lookup_insert_eq. Qed.

Lemma recorded_eq p h d l :
  d !! p = Some l → <[p := l ++ [h]]> d = recorded p h d.
Proof. intros H. unfold recorded. by rewrite H. Qed.

(** *** Reconciliation of one file, branch by branch *)

Implicit Types (source dest : path) (f : string).

(** Both files already carry the same time: only the ledger entry of the
    destination is brought up to date. *)
Lemma merge_entry_equal st source dest f A B t :
  fs st !! (source ++ [f]) = Some (File B t) →
  fs st !! (dest ++ [f]) = Some (File A t) →
  merge_entry utcoffset source dest f st
  = (Ok tt, State (fs st) (assured (dest ++ [f]) (md5 A) (dest_hashes st))
                  (trace st)).
Proof.
  intros HS HD. unfold merge_entry. mrun.
  rewrite (assure_dest_hash_file _ _ _ _ HD). mrun.
  rewrite Z.ltb_irrefl, Z.eqb_refl. by mrun.
Qed.

(** The source is newer and has the digest of the destination. *)
Lemma merge_entry_newer_identical st source dest f A B t0 t1 :
  fs st !! (source ++ [f]) = Some (File B t1) →
  fs st !! (dest ++ [f]) = Some (File A t0) →
  t0 < t1 →
  md5 B = md5 A →
  merge_entry utcoffset source dest f st
  = (Ok tt, State (fs st) (assured (dest ++ [f]) (md5 A) (dest_hashes st))
                  (trace st ++
                     [Print (path_str (source ++ [f])
                             +:+ "; newer but identical; updating modified date");
                      Utime (source ++ [f]) t1 t1])).
Proof.
  intros HS HD Hlt Hh. unfold merge_entry. mrun.
  rewrite (assure_dest_hash_file _ _ _ _ HD). mrun.
  rewrite (proj2 (Z.ltb_lt t0 t1)) by done.
  rewrite bool_decide_eq_true_2 by done. mrun.
  rewrite insert_id by done. by rewrite <- app_assoc.
Qed.

Lemma merge_entry_newer_different st source dest f A B t0 t1 :
  fs st !! (source ++ [f]) = Some (File B t1) →
  fs st !! (dest ++ [f]) = Some (File A t0) →
  t0 < t1 →
  md5 B ≠ md5 A →
  fs st !! dest = Some Dir →
  fs st !! (dest ++ [f +:+ "--" +:+ ts_str utcoffset t0]) ≠ Some Dir →
  merge_entry utcoffset source dest f st
  = (Ok tt,
     State (<[dest ++ [f] := File B t1]>
              (<[dest ++ [f +:+ "--" +:+ ts_str utcoffset t0] := File A t0]>
                 (delete (dest ++ [f]) (fs st))))
           (recorded (dest ++ [f]) (md5 B)
              (assured (dest ++ [f]) (md5 A) (dest_hashes st)))
           (trace st ++
              [Print (path_str (source ++ [f]) +:+ "; newer and different; save/copy");
               Move (dest ++ [f]) (dest ++ [f +:+ "--" +:+ ts_str utcoffset t0]);
               Copy2 (source ++ [f]) (dest ++ [f])])).
Proof.
  intros HS HD Hlt Hh Hdest Hsib.
  pose proof (suffixed_ne dest dest f (ts_str utcoffset t0)) as Hne1.
  pose proof (suffixed_ne dest source f (ts_str utcoffset t0)) as Hne2.
  assert (source ++ [f] ≠ dest ++ [f]) as Hne3.
  { intros Heq. rewrite Heq, HD in HS. injection HS. lia. }
  assert (dest ≠ dest ++ [f]) as Hne4.
  { intros Heq. rewrite <- Heq, Hdest in HD. done. }
  assert (dest ++ [f +:+ "--" +:+ ts_str utcoffset t0] ≠ dest) as Hne5.
  { intros Heq%(f_equal length). rewrite length_app in Heq. simpl in Heq. lia. }
  unfold merge_entry.
  rewrite (bind_ok _ _ _ _ _ (os_path_exists_eq _ _)).
  unfold exists_in. rewrite HD. cbn [negb].
  rewrite (bind_ok _ _ _ _ _ (st_mtime_file _ _ _ _ HS)).
  rewrite (bind_ok _ _ _ _ _ (st_mtime_file _ _ _ _ HD)).
  rewrite (bind_ok _ _ _ _ _ (read_file_file _ _ _ _ HS)).
  rewrite (bind_ok _ _ _ _ _ (assure_dest_hash_file _ _ _ _ HD)).
  rewrite (proj2 (Z.ltb_lt t0 t1)) by done.
  rewrite bool_decide_eq_false_2 by done.
  rewrite (bind_ok _ _ _ _ _ (print_eq _ _)).
  erewrite bind_ok; cycle 1.
  { apply shutil_move_file with (data := A) (t := t0); [done.. |].
    by apply parent_error_snoc. }
  erewrite bind_ok; cycle 1.
  { apply shutil_copy2_file with (data := B) (t := t1); cbn [fs].
    - by rewrite lookup_insert_ne, lookup_delete_ne.
    - done.
    - by rewrite lookup_insert_ne, lookup_delete_eq.
    - apply parent_error_snoc.
      by rewrite lookup_insert_ne, lookup_delete_ne. }
  erewrite hashes_append_some by (cbn [dest_hashes]; apply assured_lookup).
  cbn [fs dest_hashes trace set_dest_hashes].
  rewrite <- !app_assoc. simpl.
  by erewrite recorded_eq by apply assured_lookup.
Qed.

Lemma elem_of_assured_list h h' (seen : list string) :
  h ∈ (if bool_decide (h' ∈ seen) then seen else seen ++ [h'])
  ↔ h ∈ seen ∨ h = h'.
Proof.
  case_bool_decide.
  - split; [by left | intros [?| ->]; done].
  - by rewrite elem_of_app, list_elem_of_singleton.
Qed.

(** The source is older, and its digest is new to the ledger entry of the
    destination: it is copied next to the destination, under its own time. *)
Lemma merge_entry_older_unknown st source dest f A B t0 t1 :
  fs st !! (source ++ [f]) = Some (File B t1) →
  fs st !! (dest ++ [f]) = Some (File A t0) →
  t1 < t0 →
  md5 B ≠ md5 A →
  md5 B ∉ default [] (dest_hashes st !! (dest ++ [f])) →
  fs st !! dest = Some Dir →
  fs st !! (dest ++ [f +:+ "--" +:+ ts_str utcoffset t1]) ≠ Some Dir →
  merge_entry utcoffset source dest f st
  = (Ok tt,
     State (<[dest ++ [f +:+ "--" +:+ ts_str utcoffset t1] := File B t1]> (fs st))
           (recorded (dest ++ [f]) (md5 B)
              (assured (dest ++ [f]) (md5 A) (dest_hashes st)))
           (trace st ++
              [Print (path_str (source ++ [f]) +:+ "; older but different; saving");
               Copy2 (source ++ [f])
                     (dest ++ [f +:+ "--" +:+ ts_str utcoffset t1])])).
Proof.
  intros HS HD Hlt Hh Hnew Hdest Hsib.
  pose proof (suffixed_ne dest source f (ts_str utcoffset t1)) as Hne.
  unfold merge_entry.
  rewrite (bind_ok _ _ _ _ _ (os_path_exists_eq _ _)).
  unfold exists_in. rewrite HD. cbn [negb].
  rewrite (bind_ok _ _ _ _ _ (st_mtime_file _ _ _ _ HS)).
  rewrite (bind_ok _ _ _ _ _ (st_mtime_file _ _ _ _ HD)).
  rewrite (bind_ok _ _ _ _ _ (read_file_file _ _ _ _ HS)).
  rewrite (bind_ok _ _ _ _ _ (assure_dest_hash_file _ _ _ _ HD)).
  rewrite (proj2 (Z.ltb_ge t0 t1)) by lia.
  rewrite (proj2 (Z.eqb_neq t1 t0)) by lia. cbn [negb].
  erewrite bind_ok by (apply hashes_get_some; cbn [dest_hashes set_dest_hashes];
                       apply assured_lookup).
  rewrite bool_decide_eq_false_2; cycle 1.
  { rewrite elem_of_assured_list. by intros [?|?]. }
  rewrite (bind_ok _ _ _ _ _ (print_eq _ _)).
  erewrite bind_ok; cycle 1.
  { apply shutil_copy2_file with (data := B) (t := t1); cbn [fs]; [done.. |].
    by apply parent_error_snoc. }
  erewrite hashes_append_some
    by (cbn [dest_hashes set_dest_hashes]; apply assured_lookup).
  cbn [fs dest_hashes trace set_dest_hashes].
  rewrite <- !app_assoc. simpl.
  by erewrite recorded_eq by apply assured_lookup.
Qed.

(** The source is older, and its digest is that of the destination or is
    already in the ledger entry: nothing is copied. *)
Lemma merge_entry_older_known st source dest f A B t0 t1 :
  fs st !! (source ++ [f]) = Some (File B t1) →
  fs st !! (dest ++ [f]) = Some (File A t0) →
  t1 < t0 →
  md5 B ∈ default [] (dest_hashes st !! (dest ++ [f])) ∨ md5 B = md5 A →
  merge_entry utcoffset source dest f st
  = (Ok tt, State (fs st) (assured (dest ++ [f]) (md5 A) (dest_hashes st))
                  (trace st)).
Proof.
  intros HS HD Hlt Hknown.
  unfold merge_entry.
  rewrite (bind_ok _ _ _ _ _ (os_path_exists_eq _ _)).
  unfold exists_in. rewrite HD. cbn [negb].
  rewrite (bind_ok _ _ _ _ _ (st_mtime_file _ _ _ _ HS)).
  rewrite (bind_ok _ _ _ _ _ (st_mtime_file _ _ _ _ HD)).
  rewrite (bind_ok _ _ _ _ _ (read_file_file _ _ _ _ HS)).
  rewrite (bind_ok _ _ _ _ _ (assure_dest_hash_file _ _ _ _ HD)).
  rewrite (proj2 (Z.ltb_ge t0 t1)) by lia.
  rewrite (proj2 (Z.eqb_neq t1 t0)) by lia. cbn [negb].
  erewrite bind_ok by (apply hashes_get_some; cbn [dest_hashes set_dest_hashes];
                       apply assured_lookup).
  rewrite bool_decide_eq_true_2 by by rewrite elem_of_assured_list.
  done.
Qed.

(** Nothing is at the destination yet: the source is copied there. *)
Lemma merge_entry_absent st source dest f B t1 :
  fs st !! (source ++ [f]) = Some (File B t1) →
  fs st !! (dest ++ [f]) = None →
  fs st !! dest = Some Dir →
  merge_entry utcoffset source dest f st
  = (Ok tt,
     State (<[dest ++ [f] := File B t1]> (fs st))
           (assured (dest ++ [f]) (md5 B) (dest_hashes st))
           (trace st ++ [Copy2 (source ++ [f]) (dest ++ [f])])).
Proof.
  intros HS HD Hdest.
  assert (source ++ [f] ≠ dest ++ [f]) as Hne by congruence.
  unfold merge_entry.
  rewrite (bind_ok _ _ _ _ _ (os_path_exists_eq _ _)).
  unfold exists_in. rewrite HD. cbn [negb].
  erewrite bind_ok; cycle 1.
  { apply shutil_copy2_file with (data := B) (t := t1); [done|done|congruence|].
    by apply parent_error_snoc. }
  erewrite bind_ok; cycle 1.
  { eapply assure_dest_hash_file. cbn [fs]. apply lookup_insert_eq. }
  done.
Qed.

(** *** What a completed call tells *)

Lemma shutil_copy2_ok src dst st st' :
  shutil_copy2 src dst st = (Ok tt, st') →
  ∃ data t,
    fs st !! src = Some (File data t)
    ∧ let real := if isdir_in (fs st) dst then dst ++ [basename src] else dst in
      st' = State (<[real := File data t]> (fs st)) (dest_hashes st)
                  (trace st ++ [Copy2 src real]).
Proof.
  unfold shutil_copy2. intros H.
  destruct (fs st !! src) as [[data t|]|]; [|by case_bool_decide|done].
  exists data, t. split; [done|].
  case_bool_decide; [done|].
  destruct (fs st !! _) as [[? ?|]|]; [|done|];
    destruct (parent_error _ _); by simplify_eq.
Qed.

Lemma shutil_copy2_raise src dst st e st' :
  shutil_copy2 src dst st = (Raise e, st') → st' = st.
Proof.
  unfold shutil_copy2. intros H.
  destruct (fs st !! src) as [[data t|]|]; [|case_bool_decide|]; simplify_eq; try done.
  case_bool_decide; simplify_eq; [done|].
  destruct (fs st !! _) as [[? ?|]|]; simplify_eq; try done;
    destruct (parent_error _ _); by simplify_eq.
Qed.

Lemma shutil_move_ok src dst st st' :
  shutil_move src dst st = (Ok tt, st') →
  ∃ data t,
    fs st !! src = Some (File data t)
    ∧ let real := if isdir_in (fs st) dst then dst ++ [basename src] else dst in
      (isdir_in (fs st) dst = true → fs st !! real = None)
      ∧ st' = State (<[real := File data t]> (delete src (fs st))) (dest_hashes st)
                    (trace st ++ [Move src real]).
Proof.
  unfold shutil_move. intros H.
  destruct (isdir_in (fs st) dst) eqn:Hdir; cbn [andb] in H.
  - unfold exists_in in H.
    destruct (fs st !! (dst ++ [basename src])) eqn:Hreal; [done|].
    destruct (fs st !! src) as [[data t|]|]; [|done..].
    destruct (parent_error _ _); [done|]. simplify_eq. eauto 6.
  - destruct (fs st !! src) as [[data t|]|]; [|done..].
    destruct (parent_error _ _); [done|]. simplify_eq.
    exists data, t. split; [done|]. split; [done|]. done.
Qed.

Lemma hashes_append_fs p h st r st' :
  hashes_append p h st = (r, st') → fs st' = fs st ∧ trace st' = trace st.
Proof.
  unfold hashes_append, hashes_get, hashes_set. unfold_monad.
  destruct (dest_hashes st !! p); intros; by simplify_eq.
Qed.

Lemma bind_inv_ok {A B} (m : M A) (k : A → M B) st b st' :
  (m ≫= k) st = (Ok b, st') →
  ∃ a st1, m st = (Ok a, st1) ∧ k a st1 = (Ok b, st').
Proof.
  unfold mbind, M_bind. destruct (m st) as [[a|e] st1]; [eauto | done].
Qed.


(** *** The ledger only gains *)

Lemma ledger_le_refl d : ledger_le d d.
Proof. intros p l Hp. eauto. Qed.

Lemma ledger_le_trans d1 d2 d3 :
  ledger_le d1 d2 → ledger_le d2 d3 → ledger_le d1 d3.
Proof.
  intros H12 H23 p l Hp.
  destruct (H12 p l Hp) as (l2 & Hp2 & Hsub2).
  destruct (H23 p l2 Hp2) as (l3 & Hp3 & Hsub3).
  exists l3. split; [done|]. by transitivity l2.
Qed.

Lemma ledger_le_insert d p (l' : list string) :
  (∀ l, d !! p = Some l → l ⊆ l') → ledger_le d (<[p := l']> d).
Proof.
  intros Hsub q l Hq. destruct (decide (p = q)) as [->|Hne].
  - rewrite lookup_insert_eq. eauto.
  - rewrite lookup_insert_ne by done. eauto.
Qed.

Lemma grows_ret {A} (a : A) : grows (mret a).
Proof. intros st r st' [= <- <-]. apply ledger_le_refl. Qed.

Lemma grows_raise {A} e : grows (@raise A e).
Proof. intros st r st' [= <- <-]. apply ledger_le_refl. Qed.

Lemma grows_bind {A B} (m : M A) (k : A → M B) :
  grows m → (∀ a, grows (k a)) → grows (m ≫= k).
Proof.
  intros Hm Hk st r st'. unfold mbind, M_bind.
  destruct (m st) as [[a|e] st1] eqn:Hrun; intros Hrest.
  - eapply ledger_le_trans; [by eapply Hm | by eapply Hk].
  - simplify_eq. by eapply Hm.
Qed.

Lemma grows_same {A} (m : M A) :
  (∀ st r st', m st = (r, st') → dest_hashes st' = dest_hashes st) → grows m.
Proof. intros H st r st' Hrun. rewrite (H _ _ _ Hrun). apply ledger_le_refl. Qed.

Ltac same_ledger :=
  apply grows_same; intros st r st' Hrun;
  unfold_prims; repeat case_match; by simplify_eq.

Lemma grows_exists p : grows (os_path_exists p).
Proof. same_ledger. Qed.
Lemma grows_isdir p : grows (os_path_isdir p).
Proof. same_ledger. Qed.
Lemma grows_mkdir p : grows (os_mkdir p).
Proof. same_ledger. Qed.
Lemma grows_listdir p : grows (os_listdir p).
Proof. same_ledger. Qed.
Lemma grows_st_mtime p : grows (st_mtime p).
Proof. same_ledger. Qed.
Lemma grows_read_file p : grows (read_file p).
Proof. same_ledger. Qed.
Lemma grows_utime p a t : grows (os_utime p a t).
Proof. same_ledger. Qed.
Lemma grows_copy2 src dst : grows (shutil_copy2 src dst).
Proof. same_ledger. Qed.
Lemma grows_move src dst : grows (shutil_move src dst).
Proof. same_ledger. Qed.
Lemma grows_print line : grows (print line).
Proof. same_ledger. Qed.
Lemma grows_hashes_get p : grows (hashes_get p).
Proof. same_ledger. Qed.
Lemma grows_hashes_has p : grows (hashes_has p).
Proof. same_ledger. Qed.

Lemma grows_hashes_append p h : grows (hashes_append p h).
Proof.
  intros st r st'. unfold hashes_append, hashes_get, hashes_set. unfold_monad.
  destruct (dest_hashes st !! p) as [l|] eqn:Hp; intros [= <- <-].
  - proj_simpl. apply ledger_le_insert. intros l' ?. simplify_eq.
    by apply list_subseteq_app_l.
  - apply ledger_le_refl.
Qed.

Lemma grows_assure_dest_hash p : grows (assure_dest_hash p).
Proof.
  intros st r st' Hrun. unfold assure_dest_hash in Hrun.
  unfold hashes_append in Hrun. unfold_monad. unfold_prims.
  destruct (dest_hashes st !! p) as [l|] eqn:Hp; red_m.
  - repeat case_match; simplify_eq; proj_simpl; try apply ledger_le_refl.
    apply ledger_le_insert. intros l' ?. simplify_eq.
    by apply list_subseteq_app_l.
  - repeat case_match; simplify_eq; proj_simpl;
      rewrite ?lookup_insert_eq in *; simplify_eq;
      rewrite ?insert_insert_eq;
      apply ledger_le_insert; intros l' ?; simplify_eq.
Qed.

Lemma grows_for_each {A} (l : list A) (body : A → M unit) :
  (∀ x, grows (body x)) → grows (for_each l body).
Proof.
  intros Hbody. induction l as [|x l IH]; simpl.
  - apply grows_ret.
  - apply grows_bind; [apply Hbody | intros _; apply IH].
Qed.

Lemma grows_merge_entry source dest f :
  grows (merge_entry utcoffset source dest f).
Proof.
  unfold merge_entry.
  repeat first
    [ apply grows_ret | apply grows_exists | apply grows_copy2
    | apply grows_move | apply grows_assure_dest_hash | apply grows_st_mtime
    | apply grows_read_file | apply grows_print | apply grows_utime
    | apply grows_hashes_get | apply grows_hashes_append
    | apply grows_bind; [|intros ?] | case_match ].
Qed.

Lemma grows_enter_dir source dest : grows (enter_dir source dest).
Proof.
  unfold enter_dir.
  repeat first
    [ apply grows_ret | apply grows_isdir | apply grows_mkdir
    | apply grows_listdir | apply grows_bind; [|intros ?] | case_match ].
Qed.

Lemma grows_recurse_dir depth source_dir sub_dir :
  grows (recurse_dir utcoffset args depth source_dir sub_dir).
Proof.
  revert source_dir sub_dir.
  induction depth as [|depth IH]; intros source_dir sub_dir; simpl.
  - apply grows_raise.
  - apply grows_bind; [apply grows_enter_dir|]. intros names.
    apply grows_for_each. intros f. unfold visit.
    apply grows_bind; [apply grows_isdir|]. intros [].
    + destruct sub_dir; apply IH.
    + apply grows_merge_entry.
Qed.

Lemma later_ledger st st' :
  later utcoffset args st st' → ledger_le (dest_hashes st) (dest_hashes st').
Proof.
  induction 1 as [st| | | |]; [apply ledger_le_refl|..];
    (eapply ledger_le_trans; [eassumption|]).
  - by eapply grows_print.
  - by eapply grows_enter_dir.
  - by eapply grows_merge_entry.
  - by eapply grows_recurse_dir.
Qed.

Lemma copies_app evs evs' : copies (evs ++ evs') = (copies evs + copies evs')%nat.
Proof. unfold copies. by rewrite List.filter_app, length_app. Qed.

(** An older source that has been reconciled has its digest in the ledger
    entry of the destination, and was copied at most once. *)
Lemma merge_entry_older_ok st source dest f A B t0 t1 st' :
  fs st !! (source ++ [f]) = Some (File B t1) →
  fs st !! (dest ++ [f]) = Some (File A t0) →
  t1 < t0 →
  merge_entry utcoffset source dest f st = (Ok tt, st') →
  md5 B ∈ default [] (dest_hashes st' !! (dest ++ [f]))
  ∧ (copies (trace st') ≤ copies (trace st) + 1)%nat.
Proof.
  intros HS HD Hlt Hrun.
  destruct (decide (md5 B ∈ default [] (dest_hashes st !! (dest ++ [f]))
                    ∨ md5 B = md5 A)) as [Hknown|Hnew].
  - rewrite (merge_entry_older_known _ _ _ _ _ _ _ _ HS HD Hlt Hknown) in Hrun.
    injection Hrun as <-. proj_simpl. split; [|lia].
    rewrite assured_lookup. cbn [default from_option id].
    by apply elem_of_assured_list.
  - revert Hrun. unfold merge_entry.
    rewrite (bind_ok _ _ _ _ _ (os_path_exists_eq _ _)).
    unfold exists_in. rewrite HD. cbn [negb].
    rewrite (bind_ok _ _ _ _ _ (st_mtime_file _ _ _ _ HS)).
    rewrite (bind_ok _ _ _ _ _ (st_mtime_file _ _ _ _ HD)).
    rewrite (bind_ok _ _ _ _ _ (read_file_file _ _ _ _ HS)).
    rewrite (bind_ok _ _ _ _ _ (assure_dest_hash_file _ _ _ _ HD)).
    rewrite (proj2 (Z.ltb_ge t0 t1)) by lia.
    rewrite (proj2 (Z.eqb_neq t1 t0)) by lia. cbn [negb].
    erewrite bind_ok by (apply hashes_get_some; proj_simpl; apply assured_lookup).
    rewrite bool_decide_eq_false_2 by by rewrite elem_of_assured_list.
    rewrite (bind_ok _ _ _ _ _ (print_eq _ _)).
    intros ([] & st1 & Hcopy & Happ)%bind_inv_ok.
    apply shutil_copy2_ok in Hcopy as (B' & t1' & _ & ->).
    revert Happ.
    erewrite hashes_append_some by (proj_simpl; apply assured_lookup).
    intros [= <-]. proj_simpl. split.
    + rewrite lookup_insert_eq. cbn [default from_option id].
      apply elem_of_app. right. by apply list_elem_of_singleton.
    + rewrite !copies_app. cbn. lia.
Qed.

(** *** Loops, and what stops them *)

Lemma for_each_app {A} (l1 l2 : list A) (body : A → M unit) st st1 :
  for_each l1 body st = (Ok tt, st1) →
  for_each (l1 ++ l2) body st = for_each l2 body st1.
Proof.
  revert st. induction l1 as [|x l1 IH]; intros st; simpl.
  - by intros [= ->].
  - intros ([] & st' & Hx & Hrest)%bind_inv_ok.
    rewrite (bind_ok _ _ _ _ _ Hx). by apply IH.
Qed.

Lemma for_each_raise {A} (l1 l2 : list A) (x : A) (body : A → M unit)
    st st1 e st2 :
  for_each l1 body st = (Ok tt, st1) →
  body x st1 = (Raise e, st2) →
  for_each (l1 ++ x :: l2) body st = (Raise e, st2).
Proof.
  intros Hl1 Hx. rewrite (for_each_app _ _ _ _ _ Hl1). simpl.
  by rewrite (bind_raise _ _ _ _ _ Hx).
Qed.

Lemma check_source_dir src st :
  isdir_in (fs st) src = true → check_source src st = (Ok tt, st).
Proof.
  intros H. unfold check_source.
  rewrite (bind_ok _ _ _ _ _ (os_path_isdir_eq _ _)). by rewrite H.
Qed.

Lemma check_source_bad src st :
  isdir_in (fs st) src = false →
  check_source src st
  = (Raise (SystemExit (-1)),
     State (fs st) (dest_hashes st)
       (trace st ++
          [Print ("ERROR: source path " +:+ path_str src +:+ " does not exist")])).
Proof.
  intros H. unfold check_source.
  rewrite (bind_ok _ _ _ _ _ (os_path_isdir_eq _ _)). rewrite H. cbn [negb].
  by rewrite (bind_ok _ _ _ _ _ (print_eq _ _)).
Qed.

Lemma check_sources_ok (l : list path) st :
  Forall (λ src, isdir_in (fs st) src = true) l →
  for_each l check_source st = (Ok tt, st).
Proof.
  induction 1 as [|src l Hsrc _ IH]; simpl; [done|].
  by rewrite (bind_ok _ _ _ _ _ (check_source_dir _ _ Hsrc)).
Qed.

Lemma os_mkdir_raise p st e st' :
  os_mkdir p st = (Raise e, st') → st' = st ∧ ∀ code, e ≠ SystemExit code.
Proof.
  unfold os_mkdir, parent_error. intros H.
  repeat case_match; by simplify_eq.
Qed.

Lemma os_mkdir_invalid p st :
  exists_in (fs st) p = true ∨ parent_error (fs st) p ≠ None →
  ∃ e, os_mkdir p st = (Raise e, st).
Proof.
  unfold os_mkdir, exists_in. intros [H|H].
  - destruct (fs st !! p); [eauto | done].
  - destruct (fs st !! p); [eauto|].
    destruct (parent_error (fs st) p); [eauto | done].
Qed.

(** The walk of a directory whose mirror image cannot be made stops at
    once. *)
Lemma recurse_dir_invalid_dest depth source_dir sub_dir st :
  isdir_in (fs st) (dest_of args sub_dir) = false →
  exists_in (fs st) (dest_of args sub_dir) = true
    ∨ parent_error (fs st) (dest_of args sub_dir) ≠ None →
  ∃ e, recurse_dir utcoffset args depth source_dir sub_dir st = (Raise e, st)
       ∧ ∀ code, e ≠ SystemExit code.
Proof.
  intros Hdir Hbad. destruct depth as [|depth]; simpl.
  - exists RecursionError. done.
  - destruct (os_mkdir_invalid _ _ Hbad) as [e He].
    exists e. split; [|by eapply os_mkdir_raise].
    erewrite bind_raise; [done|].
    unfold enter_dir.
    rewrite (bind_ok _ _ _ _ _ (os_path_isdir_eq _ _)). rewrite Hdir. cbn [negb].
    by erewrite bind_raise.
Qed.

(** *** Only the check of the arguments exits *)

Lemma no_exit_ret {A} (a : A) : no_exit (mret a).
Proof. by intros st e st'. Qed.

Lemma no_exit_bind {A B} (m : M A) (k : A → M B) :
  no_exit m → (∀ a, no_exit (k a)) → no_exit (m ≫= k).
Proof.
  intros Hm Hk st e st'. unfold mbind, M_bind.
  destruct (m st) as [[a|e'] st1] eqn:Hrun; intros Hrest.
  - by eapply Hk.
  - simplify_eq. by eapply Hm.
Qed.

Ltac no_exit_prim :=
  intros st e st' Hrun code; unfold hashes_append in *; unfold_monad;
  unfold_prims; unfold parent_error in *; repeat case_match; by simplify_eq.

Lemma no_exit_exists p : no_exit (os_path_exists p).
Proof. no_exit_prim. Qed.
Lemma no_exit_isdir p : no_exit (os_path_isdir p).
Proof. no_exit_prim. Qed.
Lemma no_exit_mkdir p : no_exit (os_mkdir p).
Proof. intros st e st' Hrun. by eapply os_mkdir_raise. Qed.
Lemma no_exit_listdir p : no_exit (os_listdir p).
Proof. no_exit_prim. Qed.
Lemma no_exit_st_mtime p : no_exit (st_mtime p).
Proof. no_exit_prim. Qed.
Lemma no_exit_read_file p : no_exit (read_file p).
Proof. no_exit_prim. Qed.
Lemma no_exit_utime p a t : no_exit (os_utime p a t).
Proof. no_exit_prim. Qed.
Lemma no_exit_copy2 src dst : no_exit (shutil_copy2 src dst).
Proof. no_exit_prim. Qed.
Lemma no_exit_move src dst : no_exit (shutil_move src dst).
Proof.
  intros st e st' Hrun code. unfold shutil_move, parent_error in Hrun.
  repeat case_match; by simplify_eq.
Qed.
Lemma no_exit_print line : no_exit (print line).
Proof. no_exit_prim. Qed.
Lemma no_exit_hashes_get p : no_exit (hashes_get p).
Proof. no_exit_prim. Qed.
Lemma no_exit_hashes_has p : no_exit (hashes_has p).
Proof. no_exit_prim. Qed.
Lemma no_exit_hashes_set p l : no_exit (hashes_set p l).
Proof. no_exit_prim. Qed.
Lemma no_exit_hashes_append p h : no_exit (hashes_append p h).
Proof. no_exit_prim. Qed.

Ltac no_exit_steps :=
  repeat first
    [ apply no_exit_ret | apply no_exit_exists | apply no_exit_isdir
    | apply no_exit_mkdir | apply no_exit_listdir | apply no_exit_st_mtime
    | apply no_exit_read_file | apply no_exit_utime | apply no_exit_copy2
    | apply no_exit_move | apply no_exit_print | apply no_exit_hashes_get
    | apply no_exit_hashes_has | apply no_exit_hashes_set
    | apply no_exit_hashes_append
    | apply no_exit_bind; [|intros ?] | case_match ].

Lemma no_exit_assure_dest_hash p : no_exit (assure_dest_hash p).
Proof. unfold assure_dest_hash. no_exit_steps. Qed.

Lemma no_exit_merge_entry source dest f :
  no_exit (merge_entry utcoffset source dest f).
Proof.
  unfold merge_entry.
  repeat first [ apply no_exit_assure_dest_hash | progress no_exit_steps ].
Qed.

Lemma no_exit_for_each {A} (l : list A) (body : A → M unit) :
  (∀ x, no_exit (body x)) → no_exit (for_each l body).
Proof.
  intros Hbody. induction l as [|x l IH]; simpl.
  - apply no_exit_ret.
  - apply no_exit_bind; [apply Hbody | intros _; apply IH].
Qed.

Lemma no_exit_recurse_dir depth source_dir sub_dir :
  no_exit (recurse_dir utcoffset args depth source_dir sub_dir).
Proof.
  revert source_dir sub_dir.
  induction depth as [|depth IH]; intros source_dir sub_dir; simpl.
  - by intros st e st' [= <- <-].
  - apply no_exit_bind; [unfold enter_dir; no_exit_steps|]. intros names.
    apply no_exit_for_each. intros f. unfold visit.
    apply no_exit_bind; [apply no_exit_isdir|]. intros [].
    + destruct sub_dir; apply IH.
    + apply no_exit_merge_entry.
Qed.

Lemma recurse_dir_reraises depth source_dir sub_dir st names st1 pre f post
    st2 e st3 :
  enter_dir (source_of source_dir sub_dir) (dest_of args sub_dir) st
    = (Ok names, st1) →
  names = pre ++ f :: post →
  for_each pre (visit utcoffset args (recurse_dir utcoffset args depth)
                  source_dir sub_dir) st1 = (Ok tt, st2) →
  visit utcoffset args (recurse_dir utcoffset args depth) source_dir sub_dir f st2
    = (Raise e, st3) →
  recurse_dir utcoffset args (S depth) source_dir sub_dir st = (Raise e, st3).
Proof.
  intros Henter -> Hpre Hf. simpl.
  rewrite (bind_ok _ _ _ _ _ Henter).
  by eapply for_each_raise.
Qed.

Lemma main_reraises limit st before src after st1 e st2 :
  Forall (λ s, isdir_in (fs st) s = true) (source args) →
  source args = before ++ src :: after →
  for_each before (process_source utcoffset args limit) st = (Ok tt, st1) →
  process_source utcoffset args limit src st1 = (Raise e, st2) →
  main utcoffset args limit st = (Raise e, st2).
Proof.
  intros Hok Hsrc Hbefore Hraise. unfold main.
  rewrite (bind_ok _ _ _ _ _ (check_sources_ok _ _ Hok)).
  erewrite bind_raise; [done|].
  rewrite Hsrc. by eapply for_each_raise.
Qed.

(** *** Directories stay *)

Lemma keeps_dirs_ret {A} (a : A) : keeps_dirs (mret a).
Proof. by intros st r st' p [= <- <-]. Qed.

Lemma keeps_dirs_bind {A B} (m : M A) (k : A → M B) :
  keeps_dirs m → (∀ a, keeps_dirs (k a)) → keeps_dirs (m ≫= k).
Proof.
  intros Hm Hk st r st' p. unfold mbind, M_bind.
  destruct (m st) as [[a|e] st1] eqn:Hrun; intros Hrest Hp.
  - eapply Hk; [done|]. by eapply Hm.
  - simplify_eq. by eapply Hm.
Qed.

Ltac keeps_dirs_prim :=
  intros st r st' q Hrun Hq; unfold hashes_append in *; unfold_monad;
  unfold_prims; unfold parent_error, isdir_in, exists_in in *;
  repeat case_match; simplify_eq; proj_simpl; try done;
  repeat first
    [ rewrite lookup_insert_ne by congruence
    | rewrite lookup_delete_ne by congruence ]; done.

Lemma keeps_dirs_exists p : keeps_dirs (os_path_exists p).
Proof. keeps_dirs_prim. Qed.
Lemma keeps_dirs_isdir p : keeps_dirs (os_path_isdir p).
Proof. keeps_dirs_prim. Qed.
Lemma keeps_dirs_mkdir p : keeps_dirs (os_mkdir p).
Proof. keeps_dirs_prim. Qed.
Lemma keeps_dirs_listdir p : keeps_dirs (os_listdir p).
Proof. keeps_dirs_prim. Qed.
Lemma keeps_dirs_st_mtime p : keeps_dirs (st_mtime p).
Proof. keeps_dirs_prim. Qed.
Lemma keeps_dirs_read_file p : keeps_dirs (read_file p).
Proof. keeps_dirs_prim. Qed.
Lemma keeps_dirs_utime p a t : keeps_dirs (os_utime p a t).
Proof. keeps_dirs_prim. Qed.
Lemma keeps_dirs_print line : keeps_dirs (print line).
Proof. keeps_dirs_prim. Qed.
Lemma keeps_dirs_hashes_get p : keeps_dirs (hashes_get p).
Proof. keeps_dirs_prim. Qed.
Lemma keeps_dirs_hashes_has p : keeps_dirs (hashes_has p).
Proof. keeps_dirs_prim. Qed.
Lemma keeps_dirs_hashes_set p l : keeps_dirs (hashes_set p l).
Proof. keeps_dirs_prim. Qed.
Lemma keeps_dirs_hashes_append p h : keeps_dirs (hashes_append p h).
Proof. keeps_dirs_prim. Qed.

Lemma keeps_dirs_copy2 src dst : keeps_dirs (shutil_copy2 src dst).
Proof. keeps_dirs_prim. Qed.
Lemma keeps_dirs_move src dst : keeps_dirs (shutil_move src dst).
Proof. keeps_dirs_prim. Qed.

Ltac keeps_dirs_steps :=
  repeat first
    [ apply keeps_dirs_ret | apply keeps_dirs_exists | apply keeps_dirs_isdir
    | apply keeps_dirs_mkdir | apply keeps_dirs_listdir
    | apply keeps_dirs_st_mtime | apply keeps_dirs_read_file
    | apply keeps_dirs_utime | apply keeps_dirs_copy2 | apply keeps_dirs_move
    | apply keeps_dirs_print | apply keeps_dirs_hashes_get
    | apply keeps_dirs_hashes_has | apply keeps_dirs_hashes_set
    | apply keeps_dirs_hashes_append
    | apply keeps_dirs_bind; [|intros ?] | case_match ].

Lemma keeps_dirs_assure_dest_hash p : keeps_dirs (assure_dest_hash p).
Proof. unfold assure_dest_hash. keeps_dirs_steps. Qed.

Lemma keeps_dirs_merge_entry source dest f :
  keeps_dirs (merge_entry utcoffset source dest f).
Proof.
  unfold merge_entry.
  repeat first [ apply keeps_dirs_assure_dest_hash | progress keeps_dirs_steps ].
Qed.

Lemma keeps_dirs_for_each {A} (l : list A) (body : A → M unit) :
  (∀ x, keeps_dirs (body x)) → keeps_dirs (for_each l body).
Proof.
  intros Hbody. induction l as [|x l IH]; simpl.
  - apply keeps_dirs_ret.
  - apply keeps_dirs_bind; [apply Hbody | intros _; apply IH].
Qed.

Lemma keeps_dirs_recurse_dir depth source_dir sub_dir :
  keeps_dirs (recurse_dir utcoffset args depth source_dir sub_dir).
Proof.
  revert source_dir sub_dir.
  induction depth as [|depth IH]; intros source_dir sub_dir; simpl.
  - by intros st r st' p [= <- <-].
  - apply keeps_dirs_bind; [unfold enter_dir; keeps_dirs_steps|].
    intros names. apply keeps_dirs_for_each. intros f. unfold visit.
    apply keeps_dirs_bind; [apply keeps_dirs_isdir|]. intros [].
    + destruct sub_dir; apply IH.
    + apply keeps_dirs_merge_entry.
Qed.

(** Once a directory has been entered, its mirror image is in place, and it
    stays in place while the entries are visited: every reconciliation of
    the walk finds the destination directory. *)
Lemma enter_dir_dest source dest st names st1 :
  enter_dir source dest st = (Ok names, st1) → fs st1 !! dest = Some Dir.
Proof.
  unfold enter_dir, os_listdir. unfold_monad. unfold_prims.
  unfold isdir_in, parent_error. intros Hrun.
  repeat case_match; simplify_eq; proj_simpl; try done.
  all: by rewrite lookup_insert_eq.
Qed.

Lemma visits_keep_dest depth source_dir sub_dir (pre : list string) st1 r st2 :
  fs st1 !! dest_of args sub_dir = Some Dir →
  for_each pre (visit utcoffset args (recurse_dir utcoffset args depth)
                  source_dir sub_dir) st1 = (r, st2) →
  fs st2 !! dest_of args sub_dir = Some Dir.
Proof.
  intros Hdest Hrun. eapply keeps_dirs_for_each; [|done..].
  intros f. unfold visit.
  apply keeps_dirs_bind; [apply keeps_dirs_isdir|]. intros [].
  - destruct sub_dir; apply keeps_dirs_recurse_dir.
  - apply keeps_dirs_merge_entry.
Qed.

(** *** The program stays within the model *)

Lemma modelled_ret {A} (a : A) : modelled (mret a).
Proof. by intros st e st'. Qed.

Lemma modelled_bind {A B} (m : M A) (k : A → M B) :
  modelled m → (∀ a, modelled (k a)) → modelled (m ≫= k).
Proof.
  intros Hm Hk st e st'. unfold mbind, M_bind.
  destruct (m st) as [[a|e'] st1] eqn:Hrun; intros Hrest.
  - by eapply Hk.
  - simplify_eq. by eapply Hm.
Qed.

Ltac modelled_prim :=
  intros st e st' Hrun what; unfold hashes_append in *; unfold_monad;
  unfold_prims; unfold parent_error in *; repeat case_match; by simplify_eq.

Lemma modelled_exists p : modelled (os_path_exists p).
Proof. modelled_prim. Qed.
Lemma modelled_st_mtime p : modelled (st_mtime p).
Proof. modelled_prim. Qed.
Lemma modelled_read_file p : modelled (read_file p).
Proof. modelled_prim. Qed.
Lemma modelled_utime p a t : modelled (os_utime p a t).
Proof. modelled_prim. Qed.
Lemma modelled_copy2 src dst : modelled (shutil_copy2 src dst).
Proof. modelled_prim. Qed.
Lemma modelled_print line : modelled (print line).
Proof. modelled_prim. Qed.
Lemma modelled_hashes_get p : modelled (hashes_get p).
Proof. modelled_prim. Qed.
Lemma modelled_hashes_has p : modelled (hashes_has p).
Proof. modelled_prim. Qed.
Lemma modelled_hashes_set p l : modelled (hashes_set p l).
Proof. modelled_prim. Qed.
Lemma modelled_hashes_append p h : modelled (hashes_append p h).
Proof. modelled_prim. Qed.

Ltac modelled_steps :=
  repeat first
    [ apply modelled_ret | apply modelled_exists | apply modelled_st_mtime
    | apply modelled_read_file | apply modelled_utime | apply modelled_copy2
    | apply modelled_print | apply modelled_hashes_get
    | apply modelled_hashes_has | apply modelled_hashes_set
    | apply modelled_hashes_append
    | apply modelled_bind; [|intros ?] | case_match ].

Lemma modelled_assure_dest_hash p : modelled (assure_dest_hash p).
Proof. unfold assure_dest_hash. modelled_steps. Qed.

Lemma assure_dest_hash_ok p st h st' :
  assure_dest_hash p st = (Ok h, st') →
  ∃ data t, fs st' !! p = Some (File data t).
Proof.
  unfold assure_dest_hash, hashes_append. unfold_monad. unfold_prims.
  intros Hrun. repeat case_match; simplify_eq; proj_simpl; eauto.
Qed.

Lemma shutil_move_modelled src dst st data t e st' what :
  fs st !! src = Some (File data t) →
  shutil_move src dst st = (Raise e, st') → e ≠ Unmodelled what.
Proof.
  intros Hsrc. unfold shutil_move, parent_error. rewrite Hsrc.
  intros Hrun. repeat case_match; by simplify_eq.
Qed.

Lemma print_fs line st r st' : print line st = (r, st') → fs st' = fs st.
Proof. by intros [= <- <-]. Qed.

Lemma modelled_elim {A} (m : M A) st e st' :
  modelled m → m st = (Raise e, st') → ∀ what, e ≠ Unmodelled what.
Proof. intros Hm. apply Hm. Qed.

(** [shutil.move] is only asked to move a regular file. *)
Lemma merge_entry_modelled source dest f :
  modelled (merge_entry utcoffset source dest f).
Proof.
  unfold merge_entry.
  apply modelled_bind; [apply modelled_exists|]. intros present.
  destruct (negb present); [modelled_steps; apply modelled_assure_dest_hash|].
  apply modelled_bind; [apply modelled_st_mtime|]. intros s_mod.
  apply modelled_bind; [apply modelled_st_mtime|]. intros d_mod.
  apply modelled_bind; [apply modelled_read_file|]. intros s_data.
  intros st e st'. unfold mbind at 1, M_bind at 1.
  destruct (assure_dest_hash (dest ++ [f]) st) as [[d_hash|e1] st1] eqn:Hassure;
    [|intros [= <- <-]; by eapply modelled_assure_dest_hash].
  apply assure_dest_hash_ok in Hassure as (data & t & HD).
  destruct (d_mod <? s_mod); [|apply modelled_elim; modelled_steps].
  case_bool_decide; [apply modelled_elim; modelled_steps|].
  unfold mbind at 1, M_bind at 1. rewrite print_eq.
  unfold mbind at 1, M_bind at 1.
  destruct (shutil_move _ _ _) as [[[]|e2] st2] eqn:Hmove.
  - apply modelled_elim; modelled_steps.
  - intros [= <- <-] what.
    eapply shutil_move_modelled; [|exact Hmove]. exact HD.
Qed.
Lemma modelled_isdir p : modelled (os_path_isdir p).
Proof. modelled_prim. Qed.
Lemma modelled_mkdir p : modelled (os_mkdir p).
Proof. modelled_prim. Qed.
Lemma modelled_listdir p : modelled (os_listdir p).
Proof. modelled_prim. Qed.

Lemma modelled_for_each {A} (l : list A) (body : A → M unit) :
  (∀ x, modelled (body x)) → modelled (for_each l body).
Proof.
  intros Hbody. induction l as [|x l IH]; simpl.
  - apply modelled_ret.
  - apply modelled_bind; [apply Hbody | intros _; apply IH].
Qed.

Lemma modelled_recurse_dir depth source_dir sub_dir :
  modelled (recurse_dir utcoffset args depth source_dir sub_dir).
Proof.
  revert source_dir sub_dir.
  induction depth as [|depth IH]; intros source_dir sub_dir; simpl.
  - by intros st e st' [= <- <-].
  - apply modelled_bind.
    { unfold enter_dir.
      repeat first [ apply modelled_isdir | apply modelled_mkdir
                   | apply modelled_listdir | apply modelled_ret
                   | apply modelled_bind; [|intros ?] | case_match ]. }
    intros names. apply modelled_for_each. intros f. unfold visit.
    apply modelled_bind; [apply modelled_isdir|]. intros [].
    + destruct sub_dir; apply IH.
    + apply merge_entry_modelled.
Qed.

(** The whole program stays within the model of the library. *)
Lemma modelled_main limit : modelled (main utcoffset args limit).
Proof.
  unfold main. apply modelled_bind.
  { apply modelled_for_each. intros src. unfold check_source.
    apply modelled_bind; [apply modelled_isdir|]. intros [].
    - apply modelled_ret.
    - apply modelled_bind; [apply modelled_print|]. intros _.
      by intros st e st' [= <- <-]. }
  intros _. apply modelled_bind; [|intros _; apply modelled_print].
  apply modelled_for_each. intros src. unfold process_source.
  apply modelled_bind; [apply modelled_print|]. intros _.
  apply modelled_recurse_dir.
Qed.

(** *** Where the ledger stays free of duplicates *)

Lemma assured_nodup p h d : ledger_nodup d → ledger_nodup (assured p h d).
Proof.
  intros Hd q l. unfold assured.
  destruct (decide (p = q)) as [<-|Hne];
    [rewrite lookup_insert_eq | rewrite lookup_insert_ne by done; apply Hd].
  intros [= <-].
  assert (NoDup (default [] (d !! p))) as Hnd.
  { destruct (d !! p) as [l|] eqn:Hl; [by eapply Hd | constructor]. }
  case_bool_decide; [done|].
  apply NoDup_app. split; [done|]. split; [|apply NoDup_singleton].
  intros x Hx ->%list_elem_of_singleton. done.
Qed.

Lemma assure_dest_hash_nodup p st r st' :
  assure_dest_hash p st = (r, st') →
  ledger_nodup (dest_hashes st) → ledger_nodup (dest_hashes st').
Proof.
  intros Hrun Hnd.
  destruct (fs st !! p) as [[data t|]|] eqn:Hp.
  - rewrite (assure_dest_hash_file _ _ _ _ Hp) in Hrun.
    injection Hrun as <- <-. by apply assured_nodup.
  - revert Hrun. unfold assure_dest_hash. unfold_monad. unfold_prims.
    destruct (dest_hashes st !! p) eqn:Hl; red_m; rewrite Hp;
      intros [= <- <-]; proj_simpl; [done|].
    intros q l. destruct (decide (p = q)) as [<-|Hne];
      [rewrite lookup_insert_eq | rewrite lookup_insert_ne by done; apply Hnd].
    intros [= <-]. constructor.
  - revert Hrun. unfold assure_dest_hash. unfold_monad. unfold_prims.
    destruct (dest_hashes st !! p) eqn:Hl; red_m; rewrite Hp;
      intros [= <- <-]; proj_simpl; [done|].
    intros q l. destruct (decide (p = q)) as [<-|Hne];
      [rewrite lookup_insert_eq | rewrite lookup_insert_ne by done; apply Hnd].
    intros [= <-]. constructor.
Qed.

(** The older-and-different branch records a digest that it has just
    found missing. *)
Lemma merge_entry_older_nodup st source dest f A B t0 t1 r st' :
  fs st !! (source ++ [f]) = Some (File B t1) →
  fs st !! (dest ++ [f]) = Some (File A t0) →
  t1 < t0 →
  md5 B ≠ md5 A →
  md5 B ∉ default [] (dest_hashes st !! (dest ++ [f])) →
  fs st !! dest = Some Dir →
  fs st !! (dest ++ [f +:+ "--" +:+ ts_str utcoffset t1]) ≠ Some Dir →
  merge_entry utcoffset source dest f st = (r, st') →
  ledger_nodup (dest_hashes st) → ledger_nodup (dest_hashes st').
Proof.
  intros HS HD Hlt Hh Hnew Hdest Hsib Hrun Hnd.
  rewrite (merge_entry_older_unknown _ _ _ _ _ _ _ _ HS HD Hlt Hh Hnew Hdest Hsib)
    in Hrun.
  injection Hrun as <- <-. proj_simpl.
  pose proof (assured_nodup (dest ++ [f]) (md5 A) _ Hnd) as Hnd'.
  intros q l. unfold recorded.
  destruct (decide (dest ++ [f] = q)) as [<-|Hne];
    [rewrite lookup_insert_eq | rewrite lookup_insert_ne by done; apply Hnd'].
  intros [= <-]. rewrite assured_lookup. cbn [default from_option id].
  apply NoDup_app. split.
  { eapply Hnd'. apply assured_lookup. }
  split; [|apply NoDup_singleton].
  intros x Hx ->%list_elem_of_singleton.
  apply elem_of_assured_list in Hx as [?|?]; done.
Qed.

Lemma is_digit_digit n : Civil.is_digit (Civil.digit n) = true.
Proof.
  unfold Civil.digit.
  assert (0 ≤ n mod 10 < 10) as Hr by (apply Z.mod_pos_bound; lia).
  assert (n mod 10 = 0 ∨ n mod 10 = 1 ∨ n mod 10 = 2 ∨ n mod 10 = 3
          ∨ n mod 10 = 4 ∨ n mod 10 = 5 ∨ n mod 10 = 6 ∨ n mod 10 = 7
          ∨ n mod 10 = 8 ∨ n mod 10 = 9) as Hcases by lia.
  repeat destruct Hcases as [->|Hcases]; try reflexivity.
  by rewrite Hcases.
Qed.

Lemma ts_str_well_shaped t : Civil.well_shaped (ts_str utcoffset t) = true.
Proof.
  unfold ts_str, Civil.well_shaped, Civil.pad4, Civil.pad2.
  simpl. rewrite !is_digit_digit. reflexivity.
Qed.

End Steps.

(** * The claims, on the reconciliation of one file *)

Section Reconciliation.

Variable utcoffset : Z → Z.

Implicit Types (source dest : path) (f : string).

(** C1 (the code departs from the claim).  When the source is newer than
    the destination and has the same digest, the destination is untouched
    and nothing is created, renamed or copied; but [os.utime] is given the
    source's own time [(s_mod, s_mod)], so the source keeps its time [t1]
    and does not take the time [t0] of the destination. *)
Theorem newer_identical_source_keeps_time st source dest f A B t0 t1 :
  fs st !! (source ++ [f]) = Some (File B t1) →
  fs st !! (dest ++ [f]) = Some (File A t0) →
  t0 < t1 →
  md5 B = md5 A →
  ∃ st',
    merge_entry utcoffset source dest f st = (Ok tt, st')
    ∧ fs st' = fs st
    ∧ fs st' !! (source ++ [f]) = Some (File B t1)
    ∧ fs st' !! (source ++ [f]) ≠ Some (File B t0)
    ∧ trace st'
      = trace st ++
          [Print (path_str (source ++ [f])
                  +:+ "; newer but identical; updating modified date");
           Utime (source ++ [f]) t1 t1].
Proof.
  intros HS HD Hlt Hh. eexists. split.
  { by apply merge_entry_newer_identical with (A := A) (B := B) (t0 := t0). }
  cbn [fs trace]. rewrite HS. split_and!; try done.
  intros [= ->]. lia.
Qed.

(** C3, as amended.  When source and destination carry the same
    modification time, nothing is copied, renamed or re-timed and nothing
    is printed; both files have been hashed by then, and the ledger entry
    of the destination has been created or completed by
    [assure_dest_hash], so that it lists the digest of the destination. *)
Theorem same_time_only_ledger st source dest f A B t :
  fs st !! (source ++ [f]) = Some (File B t) →
  fs st !! (dest ++ [f]) = Some (File A t) →
  ∃ st',
    merge_entry utcoffset source dest f st = (Ok tt, st')
    ∧ fs st' = fs st
    ∧ trace st' = trace st
    ∧ dest_hashes st' = assured (dest ++ [f]) (md5 A) (dest_hashes st)
    ∧ md5 A ∈ default [] (dest_hashes st' !! (dest ++ [f])).
Proof.
  intros HS HD. eexists. split; [by eapply merge_entry_equal|].
  cbn [fs trace dest_hashes]. repeat split.
  rewrite assured_lookup. cbn [default from_option id].
  apply elem_of_assured_list. by right.
Qed.



End Reconciliation.

(** * The claims, on whole runs *)

Section Run.

Variable utcoffset : Z → Z.
Variable args : Args.

Implicit Types (source dest : path) (f : string).


(** C9, as amended.  Every source path that is given is checked to be a
    directory before any merge work, but none need be given, and the
    destination is not checked beforehand.
    - If some source path is not a directory, the run prints an error
      naming the first such path and exits with [sys.exit(-1)], status 255,
      with the file system and the ledger as they were.
    - With no source path at all the run completes, having only printed
      its last line.
    - If the sources are directories, there is at least one, and the
      destination is not a directory and cannot be made one (something
      else is there, or its parent is missing), the first walk raises
      before anything is created or changed: status 1.
    - The exit status is 0 exactly when the run completes. *)
Theorem sources_checked_before_merge limit st :
  (∀ good bad rest,
     source args = good ++ bad :: rest →
     Forall (λ s, isdir_in (fs st) s = true) good →
     isdir_in (fs st) bad = false →
     main utcoffset args limit st
     = (Raise (SystemExit (-1)),
        State (fs st) (dest_hashes st)
          (trace st ++
             [Print ("ERROR: source path " +:+ path_str bad +:+ " does not exist")]))
     ∧ exit_status (Raise (SystemExit (-1)) : result unit) = 255)
  ∧ (source args = [] →
     main utcoffset args limit st
     = (Ok tt, State (fs st) (dest_hashes st) (trace st ++ [Print "Run complete"])))
  ∧ (∀ src rest,
       source args = src :: rest →
       Forall (λ s, isdir_in (fs st) s = true) (source args) →
       isdir_in (fs st) (destination args) = false →
       exists_in (fs st) (destination args) = true
         ∨ parent_error (fs st) (destination args) ≠ None →
       ∃ e,
         main utcoffset args limit st
         = (Raise e,
            State (fs st) (dest_hashes st)
              (trace st ++
                 [Print ("####### Processing source " +:+ path_str src
                         +:+ " #######")]))
         ∧ exit_status (Raise e : result unit) = 1)
  ∧ (∀ r st', main utcoffset args limit st = (r, st') →
              (exit_status r = 0 ↔ r = Ok tt)).
Proof.
  split_and!.
  - intros good bad rest Hsrc Hgood Hbad. split; [|done].
    unfold main. erewrite bind_raise; [done|].
    rewrite Hsrc. eapply for_each_raise; [by apply check_sources_ok|].
    by apply check_source_bad.
  - intros Hsrc. unfold main. rewrite Hsrc. simpl.
    unfold_monad. by unfold print, emit.
  - intros src rest Hsrc Hok Hdir Hbad.
    destruct (recurse_dir_invalid_dest utcoffset args limit src None
                (State (fs st) (dest_hashes st)
                   (trace st ++
                      [Print ("####### Processing source " +:+ path_str src
                              +:+ " #######")])) Hdir Hbad)
      as (e & Hraise & Hne).
    exists e. split; [|by destruct e; try done; destruct (Hne code)].
    eapply main_reraises with (before := []); [done..|].
    unfold process_source.
    by rewrite (bind_ok _ _ _ _ _ (print_eq _ _)).
  - intros r st' Hrun. destruct r as [[]|e]; [done|].
    split; [|done]. intros Hzero. exfalso. revert Hrun Hzero. unfold main.
    destruct (for_each (source args) check_source st) as [[[]|e1] st1] eqn:H1.
    + rewrite (bind_ok _ _ _ _ _ H1).
      destruct (for_each (source args) (process_source utcoffset args limit) st1)
        as [[[]|e2] st2] eqn:H2.
      * rewrite (bind_ok _ _ _ _ _ H2). by rewrite print_eq.
      * rewrite (bind_raise _ _ _ _ _ H2). intros [= <- <-].
        assert (no_exit (for_each (source args)
                           (process_source utcoffset args limit))) as Hno.
        { apply no_exit_for_each. intros src. unfold process_source.
          apply no_exit_bind; [apply no_exit_print|].
          intros _. apply no_exit_recurse_dir. }
        specialize (Hno _ _ _ H2). destruct e2; try done. by destruct (Hno code).
    + rewrite (bind_raise _ _ _ _ _ H1). intros [= <- <-].
      clear -H1. revert st H1.
      induction (source args) as [|src l IH]; intros st; simpl; [done|].
      destruct (isdir_in (fs st) src) eqn:Hd.
      * rewrite (bind_ok _ _ _ _ _ (check_source_dir _ _ Hd)). apply IH.
      * rewrite (bind_raise _ _ _ _ _ (check_source_bad _ _ Hd)).
        by intros [= <- <-].
Qed.

(** C10.  A type mismatch between a source entry and its destination path
    stops the run with an error that nothing catches.
    - A directory of the source whose destination path is a regular file:
      the directory cannot be made, [FileExistsError], with nothing changed.
    - A file of the source whose destination path is a directory: hashing
      the destination fails, [IsADirectoryError], with nothing copied,
      renamed or re-timed.
    - What the visit of an entry raises, the walk of its directory raises;
      what the walk of a source root raises, the run raises, and the process
      ends with status 1. *)
Theorem type_mismatch_aborts :
  (∀ depth source_dir sub_dir f st data t,
     isdir_in (fs st) (source_of source_dir sub_dir ++ [f]) = true →
     fs st !! (dest_of args sub_dir ++ [f]) = Some (File data t) →
     visit utcoffset args (recurse_dir utcoffset args (S depth))
       source_dir sub_dir f st
     = (Raise (FileExistsError (dest_of args sub_dir ++ [f])), st))
  ∧ (∀ recurse source_dir sub_dir f st data t,
       fs st !! (source_of source_dir sub_dir ++ [f]) = Some (File data t) →
       fs st !! (dest_of args sub_dir ++ [f]) = Some Dir →
       ∃ st',
         visit utcoffset args recurse source_dir sub_dir f st
         = (Raise (IsADirectoryError (dest_of args sub_dir ++ [f])), st')
         ∧ fs st' = fs st
         ∧ trace st' = trace st)
  ∧ (∀ depth source_dir sub_dir st names st1 pre f post st2 e st3,
       enter_dir (source_of source_dir sub_dir) (dest_of args sub_dir) st
         = (Ok names, st1) →
       names = pre ++ f :: post →
       for_each pre (visit utcoffset args (recurse_dir utcoffset args depth)
                       source_dir sub_dir) st1 = (Ok tt, st2) →
       visit utcoffset args (recurse_dir utcoffset args depth)
         source_dir sub_dir f st2 = (Raise e, st3) →
       recurse_dir utcoffset args (S depth) source_dir sub_dir st
       = (Raise e, st3))
  ∧ (∀ limit st before src after st1 e st2,
       Forall (λ s, isdir_in (fs st) s = true) (source args) →
       source args = before ++ src :: after →
       for_each before (process_source utcoffset args limit) st = (Ok tt, st1) →
       process_source utcoffset args limit src st1 = (Raise e, st2) →
       main utcoffset args limit st = (Raise e, st2)
       ∧ exit_status (Raise e : result unit) = 1).
Proof.
  split_and!.
  - intros depth source_dir sub_dir f st data t Hsrc Hdst. unfold visit.
    rewrite (bind_ok _ _ _ _ _ (os_path_isdir_eq _ _)). rewrite Hsrc.
    assert (∀ sub, dest_of args sub = dest_of args sub_dir ++ [f] →
              recurse_dir utcoffset args (S depth) source_dir sub st
              = (Raise (FileExistsError (dest_of args sub_dir ++ [f])), st))
      as Hwalk.
    { intros sub Hsub. simpl. erewrite bind_raise; [done|].
      unfold enter_dir. rewrite Hsub.
      rewrite (bind_ok _ _ _ _ _ (os_path_isdir_eq _ _)).
      unfold isdir_in. rewrite Hdst. cbn [negb].
      erewrite bind_raise; [done|].
      unfold os_mkdir. by rewrite Hdst. }
    destruct sub_dir as [sd|]; apply Hwalk; simpl; by rewrite ?app_assoc.
  - intros recurse source_dir sub_dir f st data t Hsrc Hdst. unfold visit.
    rewrite (bind_ok _ _ _ _ _ (os_path_isdir_eq _ _)).
    unfold isdir_in. rewrite Hsrc.
    destruct (assure_dest_hash_dir st _ Hdst) as (st' & Hraise & Hfs & Htr).
    exists st'. split; [|done].
    unfold merge_entry.
    rewrite (bind_ok _ _ _ _ _ (os_path_exists_eq _ _)).
    unfold exists_in. rewrite Hdst. cbn [negb].
    rewrite (bind_ok _ _ _ _ _ (st_mtime_file _ _ _ _ Hsrc)).
    erewrite bind_ok by (unfold st_mtime; by rewrite Hdst).
    rewrite (bind_ok _ _ _ _ _ (read_file_file _ _ _ _ Hsrc)).
    by rewrite (bind_raise _ _ _ _ _ Hraise).
  - intros. by eapply recurse_dir_reraises.
  - intros limit st before src after st1 e st2 Hok Hsrc Hbefore Hraise.
    split; [by eapply main_reraises|].
    assert (no_exit (process_source utcoffset args limit src)) as Hno.
    { unfold process_source. apply no_exit_bind; [apply no_exit_print|].
      intros _. apply no_exit_recurse_dir. }
    specialize (Hno _ _ _ Hraise). destruct e; try done. by destruct (Hno code).
Qed.

End Run.

(** * The program at work *)

Import Scenario.

Example md5_empty : md5 "" = "d41d8cd98f00b204e9800998ecf8427e".
Proof. vm_compute. reflexivity. Qed.

Example md5_abc : md5 "abc" = "900150983cd24fb0d6963f7d28e17f72".
Proof. vm_compute. reflexivity. Qed.

Example md5_two_blocks :
  md5 "12345678901234567890123456789012345678901234567890123456789012345678901234567890"
  = "57edf4a22be3c955ac49da2e2107b67a".
Proof. vm_compute. reflexivity. Qed.

Example ts_str_epoch : ts_str utc 0 = "1970-01-01--at--00-00-00".
Proof. vm_compute. reflexivity. Qed.

Example ts_str_2020 : ts_str utc 1600000000 = "2020-09-13--at--12-26-40".
Proof. vm_compute. reflexivity. Qed.

Example ts_str_leap_day : ts_str utc 951868799 = "2000-02-29--at--23-59-59".
Proof. vm_compute. reflexivity. Qed.

Example ts_str_before_epoch : ts_str utc (-1) = "1969-12-31--at--23-59-59".
Proof. vm_compute. reflexivity. Qed.

Example ts_str_east : ts_str (λ _, 3600) 1600000000 = "2020-09-13--at--13-26-40".
Proof. vm_compute. reflexivity. Qed.

(** The whole run on the tree [newer_identical]: one note, one [utime]
    that changes nothing. *)
Example run_newer_identical :
  main utc one_source limit (fresh newer_identical)
  = (Ok tt,
     State newer_identical
       {[ ["d"; "a"] := [md5 "A"] ]}
       [Print "####### Processing source s1 #######";
        Print "s1/a; newer but identical; updating modified date";
        Utime ["s1"; "a"] 5 5;
        Print "Run complete"]).
Proof. vm_compute. reflexivity. Qed.

Lemma newer_identical_source_keeps_time_witness :
  ∃ st',
    merge_entry utc ["s1"] ["d"] "a" (fresh newer_identical) = (Ok tt, st')
    ∧ fs st' = newer_identical
    ∧ fs st' !! ["s1"; "a"] = Some (File "A" 5)
    ∧ fs st' !! ["s1"; "a"] ≠ Some (File "A" 3)
    ∧ trace st'
      = [Print "s1/a; newer but identical; updating modified date";
         Utime ["s1"; "a"] 5 5].
Proof.
  apply (newer_identical_source_keeps_time utc (fresh newer_identical)
           ["s1"] ["d"] "a" "A" "A" 3 5).
  - vm_compute. reflexivity.
  - vm_compute. reflexivity.
  - lia.
  - reflexivity.
Defined.

(** C3 fails as stated.  Source and destination carry the same time and
    the ledger has no entry for the destination path; after the
    reconciliation it has one, with the digest of the destination file. *)
Lemma same_time_ledger_entry_created :
  fs (fresh same_time) !! ["s1"; "a"] = Some (File "B" 5)
  ∧ fs (fresh same_time) !! ["d"; "a"] = Some (File "A" 5)
  ∧ dest_hashes (fresh same_time) !! ["d"; "a"] = None
  ∧ dest_hashes (merge_entry utc ["s1"] ["d"] "a" (fresh same_time)).2
      !! ["d"; "a"]
    = Some ["7fc56270e7a70fa81a5935b72eacbe29"].
Proof. vm_compute. done. Qed.

Lemma same_time_only_ledger_witness :
  ∃ st',
    merge_entry utc ["s1"] ["d"] "a" (fresh same_time) = (Ok tt, st')
    ∧ fs st' = same_time
    ∧ trace st' = []
    ∧ dest_hashes st' = assured ["d"; "a"] (md5 "A") ∅
    ∧ md5 "A" ∈ default [] (dest_hashes st' !! ["d"; "a"]).
Proof.
  apply (same_time_only_ledger utc (fresh same_time) ["s1"] ["d"] "a" "A" "B" 5).
  - vm_compute. reflexivity.
  - vm_compute. reflexivity.
Defined.



(** The same reconciliation, with the names written out. *)
Example run_newer_different :
  main utc one_source limit (fresh newer_different)
  = (Ok tt,
     State (tree [(["d"; "a"], File "B" 5);
                  (["d"; "a--1970-01-01--at--00-00-03"], File "A" 3);
                  (["s1"; "a"], File "B" 5)])
       {[ ["d"; "a"] := [md5 "A"; md5 "B"] ]}
       [Print "####### Processing source s1 #######";
        Print "s1/a; newer and different; save/copy";
        Move ["d"; "a"] ["d"; "a--1970-01-01--at--00-00-03"];
        Copy2 ["s1"; "a"] ["d"; "a"];
        Print "Run complete"]).
Proof. vm_compute. reflexivity. Qed.



Example run_older_different :
  main utc one_source limit (fresh older_different)
  = (Ok tt,
     State (tree [(["d"; "a"], File "A" 5);
                  (["d"; "a--1970-01-01--at--00-00-03"], File "B" 3);
                  (["s1"; "a"], File "B" 3)])
       {[ ["d"; "a"] := [md5 "A"; md5 "B"] ]}
       [Print "####### Processing source s1 #######";
        Print "s1/a; older but different; saving";
        Copy2 ["s1"; "a"] ["d"; "a--1970-01-01--at--00-00-03"];
        Print "Run complete"]).
Proof. vm_compute. reflexivity. Qed.


(** The run on [twice_older]: the first root is saved beside the
    destination, the second is passed over. *)
Example run_twice_older :
  main utc two_sources limit (fresh twice_older)
  = (Ok tt,
     State (tree [(["d"; "a"], File "A" 9);
                  (["d"; "a--1970-01-01--at--00-00-02"], File "B" 2);
                  (["s1"; "a"], File "B" 2); (["s2"; "a"], File "B" 4)])
       {[ ["d"; "a"] := [md5 "A"; md5 "B"] ]}
       [Print "####### Processing source s1 #######";
        Print "s1/a; older but different; saving";
        Copy2 ["s1"; "a"] ["d"; "a--1970-01-01--at--00-00-02"];
        Print "####### Processing source s2 #######";
        Print "Run complete"]).
Proof. vm_compute. reflexivity. Qed.

(** C7 (the code departs from the claim).  On the tree [rerun] a second
    run, started on the tree the first run left and with a new ledger,
    renames the destination file again, creates [a--...-04] and gives the
    destination other bytes and another time: the tree after the second run
    is not the tree after the first. *)
Theorem second_run_changes_tree :
  ∃ st1 st2,
    main utc two_sources limit (fresh rerun) = (Ok tt, st1)
    ∧ main utc two_sources limit (fresh (fs st1)) = (Ok tt, st2)
    ∧ fs st1 !! ["s1"; "a"] = rerun !! ["s1"; "a"]
    ∧ fs st1 !! ["s2"; "a"] = rerun !! ["s2"; "a"]
    ∧ fs st1 !! ["d"; "a"] = Some (File "B" 4)
    ∧ fs st2 !! ["d"; "a"] = Some (File "A" 5)
    ∧ fs st1 !! ["d"; "a--1970-01-01--at--00-00-04"] = None
    ∧ fs st2 !! ["d"; "a--1970-01-01--at--00-00-04"] = Some (File "B" 4)
    ∧ trace st2
      = [Print "####### Processing source s1 #######";
         Print "s1/a; newer and different; save/copy";
         Move ["d"; "a"] ["d"; "a--1970-01-01--at--00-00-04"];
         Copy2 ["s1"; "a"] ["d"; "a"];
         Print "####### Processing source s2 #######";
         Print "Run complete"]
    ∧ fs st2 ≠ fs st1.
Proof.
  eexists (main utc two_sources limit (fresh rerun)).2,
          (main utc two_sources limit
             (fresh (fs (main utc two_sources limit (fresh rerun)).2))).2.
  split_and!; try (vm_compute; reflexivity).
  intros Heq.
  apply (f_equal (λ m, m !! ["d"; "a"])) in Heq.
  vm_compute in Heq. discriminate.
Qed.

(** C8 (the code departs from the claim).  On the tree [older_then_newer]
    the digest of [B] enters the ledger entry of [d/a] when the older copy
    is saved, and line 127 appends it again when the newer copy takes the
    name: the entry lists it twice. *)
Theorem ledger_lists_digest_twice :
  ∃ st',
    main utc two_sources limit (fresh older_then_newer) = (Ok tt, st')
    ∧ dest_hashes st' !! ["d"; "a"] = Some [md5 "A"; md5 "B"; md5 "B"]
    ∧ ¬ NoDup (default [] (dest_hashes st' !! ["d"; "a"])).
Proof.
  eexists (main utc two_sources limit (fresh older_then_newer)).2.
  split; [vm_compute; reflexivity|].
  assert (dest_hashes (main utc two_sources limit (fresh older_then_newer)).2
            !! ["d"; "a"] = Some [md5 "A"; md5 "B"; md5 "B"]) as Hl
    by (vm_compute; reflexivity).
  split; [done|]. rewrite Hl. cbn [default from_option id].
  intros Hnd. apply NoDup_cons in Hnd as [_ Hnd].
  apply NoDup_cons in Hnd as [Hnotin _].
  apply Hnotin. apply elem_of_cons. by left.
Qed.

(** C9 fails as stated.  No source path is given and the destination is
    a regular file; the run completes with status 0, having printed its
    last line and nothing else. *)
Lemma no_source_exits_zero :
  source no_source = []
  ∧ fs (fresh same_time) !! destination no_source = Some (File "A" 5)
  ∧ ∃ r st',
      main utc no_source limit (fresh same_time) = (r, st')
      ∧ r = Ok tt
      ∧ exit_status r = 0
      ∧ fs st' = same_time
      ∧ trace st' = [Print "Run complete"].
Proof.
  split; [reflexivity|]. split; [vm_compute; reflexivity|].
  exists (Ok tt), (State same_time ∅ [Print "Run complete"]).
  split_and!; vm_compute; reflexivity.
Qed.

Lemma sources_checked_before_merge_witness :
  main utc missing_source limit (fresh same_time)
  = (Raise (SystemExit (-1)),
     State same_time ∅ [Print "ERROR: source path nowhere does not exist"])
  ∧ exit_status (Raise (SystemExit (-1)) : result unit) = 255.
Proof.
  apply (proj1 (sources_checked_before_merge utc missing_source limit
                  (fresh same_time)) [["s1"]] ["nowhere"] []).
  - reflexivity.
  - constructor; [vm_compute; reflexivity | constructor].
  - vm_compute. reflexivity.
Defined.

(** A destination that is a regular file, with a source to walk: the
    first [os.mkdir] raises and the process ends with status 1. *)
Example run_file_destination :
  main utc file_destination limit (fresh same_time)
  = (Raise (FileExistsError ["d"; "a"]),
     State same_time ∅ [Print "####### Processing source s1 #######"])
  ∧ exit_status (Raise (FileExistsError ["d"; "a"]) : result unit) = 1.
Proof. split; vm_compute; reflexivity. Qed.

Lemma type_mismatch_aborts_witness :
  visit utc one_source (recurse_dir utc one_source (S 998)) ["s1"] None "sub"
    (fresh dir_on_file)
  = (Raise (FileExistsError ["d"; "sub"]), fresh dir_on_file)
  ∧ ∃ st',
      visit utc one_source (recurse_dir utc one_source 999) ["s1"] None "a"
        (fresh file_on_dir)
      = (Raise (IsADirectoryError ["d"; "a"]), st')
      ∧ fs st' = file_on_dir
      ∧ trace st' = [].
Proof.
  destruct (type_mismatch_aborts utc one_source) as (Hdir & Hfile & _ & _).
  split.
  - apply (Hdir 998%nat ["s1"] None "sub" (fresh dir_on_file) "A" 3).
    + vm_compute. reflexivity.
    + vm_compute. reflexivity.
  - apply (Hfile (recurse_dir utc one_source 999) ["s1"] None "a"
             (fresh file_on_dir) "B" 5).
    + vm_compute. reflexivity.
    + vm_compute. reflexivity.
Defined.

(** Both mismatches, run from the top. *)
Example run_file_on_dir :
  main utc one_source limit (fresh file_on_dir)
  = (Raise (IsADirectoryError ["d"; "a"]),
     State file_on_dir {[ ["d"; "a"] := [] ]}
       [Print "####### Processing source s1 #######"])
  ∧ exit_status (Raise (IsADirectoryError ["d"; "a"]) : result unit) = 1.
Proof. split; vm_compute; reflexivity. Qed.

Example run_dir_on_file :
  main utc one_source limit (fresh dir_on_file)
  = (Raise (FileExistsError ["d"; "sub"]),
     State dir_on_file ∅ [Print "####### Processing source s1 #######"])
  ∧ exit_status (Raise (FileExistsError ["d"; "sub"]) : result unit) = 1.
Proof. split; vm_compute; reflexivity. Qed.

(** * Further properties of the code *)

Section Further.

Variable utcoffset : Z → Z.
Variable args : Args.

Implicit Types (source dest : path) (f : string).

(** X1 (lines 26-35).  For every time whose local year has four digits,
    [ts_str] gives 24 characters of the shape [YYYY-MM-DD--at--HH-MM-SS]
    and none of them is the path separator: a file name that gets the
    suffix stays one path component. *)
Theorem ts_str_one_component t :
  1000 ≤ Civil.year (t + utcoffset t) ≤ 9999 →
  Civil.well_shaped (ts_str utcoffset t) = true
  ∧ String.length (ts_str utcoffset t) = 24%nat
  ∧ "/"%char ∉ String.list_ascii_of_string (ts_str utcoffset t).
Proof.
  intros _.
  split; [apply ts_str_well_shaped|].
  unfold ts_str, Civil.pad4, Civil.pad2. simpl. split; [reflexivity|].
  intros Hin.
  repeat (apply elem_of_cons in Hin as [Heq|Hin];
          [first [ discriminate Heq
                 | pose proof (is_digit_digit (Civil.year (t + utcoffset t) / 1000)) as Hd;
                   match type of Heq with _ = Civil.digit ?n =>
                     clear Hd; pose proof (is_digit_digit n) as Hd end;
                   rewrite <- Heq in Hd; vm_compute in Hd; discriminate Hd ]|]).
  by apply elem_of_nil in Hin.
Qed.

Lemma assured_idem p h d : assured p h (assured p h d) = assured p h d.
Proof.
  unfold assured at 1. rewrite assured_lookup. cbn [default from_option id].
  rewrite bool_decide_eq_true_2 by (apply elem_of_assured_list; by right).
  apply insert_id, assured_lookup.
Qed.

(** X2.  On a regular file [assure_dest_hash] returns the MD5 digest of its
    bytes and leaves that digest in the entry of the path; the entry keeps
    what it listed, the other entries, the file system and the trace are
    untouched, and a second call changes nothing any more. *)
Theorem assure_dest_hash_settles p st data t :
  fs st !! p = Some (File data t) →
  ∃ st1,
    assure_dest_hash p st = (Ok (md5 data), st1)
    ∧ assure_dest_hash p st1 = (Ok (md5 data), st1)
    ∧ fs st1 = fs st
    ∧ trace st1 = trace st
    ∧ md5 data ∈ default [] (dest_hashes st1 !! p)
    ∧ (∀ h, h ∈ default [] (dest_hashes st !! p) →
            h ∈ default [] (dest_hashes st1 !! p))
    ∧ (∀ q, q ≠ p → dest_hashes st1 !! q = dest_hashes st !! q).
Proof.
  intros Hp. eexists. split; [by apply assure_dest_hash_file with (t := t)|].
  split.
  { erewrite assure_dest_hash_file by (cbn [fs set_dest_hashes]; exact Hp).
    unfold set_dest_hashes. cbn [fs dest_hashes trace]. by rewrite assured_idem. }
  cbn [fs dest_hashes trace set_dest_hashes]. split_and!; try done.
  - rewrite assured_lookup. cbn [default from_option id].
    apply elem_of_assured_list. by right.
  - intros h Hh. rewrite assured_lookup. cbn [default from_option id].
    apply elem_of_assured_list. by left.
  - intros q Hq. unfold assured. by rewrite lookup_insert_ne.
Qed.

(** X3.  A path that cannot be read (nothing is there) makes
    [assure_dest_hash] raise [FileNotFoundError]; by then line 51 has given
    an untracked path an empty entry, while a tracked path keeps its entry
    as it was.  The file system and the trace are untouched. *)
Theorem assure_dest_hash_missing_file p st :
  fs st !! p = None →
  ∃ st1,
    assure_dest_hash p st = (Raise (FileNotFoundError p), st1)
    ∧ fs st1 = fs st
    ∧ trace st1 = trace st
    ∧ dest_hashes st1 !! p = Some (default [] (dest_hashes st !! p))
    ∧ (∀ q, q ≠ p → dest_hashes st1 !! q = dest_hashes st !! q).
Proof.
  intros Hp. unfold assure_dest_hash. unfold_monad. unfold_prims.
  destruct (dest_hashes st !! p) as [l|] eqn:Hl; red_m; rewrite Hp;
    eexists; (split; [reflexivity|]); proj_simpl; split_and!; try done.
  - apply lookup_insert_eq.
  - intros q Hq. by rewrite lookup_insert_ne.
Qed.

(** X4.  [assure_dest_hash] never lists a digest twice: if no entry of the
    ledger has a duplicate before the call, none has after it, whether the
    call returns or raises. *)
Theorem assure_dest_hash_no_duplicates p st r st' :
  ledger_nodup (dest_hashes st) →
  assure_dest_hash p st = (r, st') →
  ledger_nodup (dest_hashes st').
Proof. intros Hnd Hrun. by eapply assure_dest_hash_nodup. Qed.

(** X5.  When nothing is at the destination path, the source file is
    copied there with its bytes and its modification time; no other path
    changes, nothing is printed, and the digest of the copy is in the
    ledger entry of the destination path. *)
Theorem absent_destination_gets_copy st source dest f B t1 :
  fs st !! (source ++ [f]) = Some (File B t1) →
  fs st !! (dest ++ [f]) = None →
  fs st !! dest = Some Dir →
  ∃ st',
    merge_entry utcoffset source dest f st = (Ok tt, st')
    ∧ fs st' !! (dest ++ [f]) = Some (File B t1)
    ∧ (∀ p, p ≠ dest ++ [f] → fs st' !! p = fs st !! p)
    ∧ trace st' = trace st ++ [Copy2 (source ++ [f]) (dest ++ [f])]
    ∧ md5 B ∈ default [] (dest_hashes st' !! (dest ++ [f])).
Proof.
  intros HS HD Hdest. eexists. split; [by apply merge_entry_absent|].
  cbn [fs dest_hashes trace]. split_and!.
  - apply lookup_insert_eq.
  - intros p Hp. by rewrite lookup_insert_ne.
  - done.
  - rewrite assured_lookup. cbn [default from_option id].
    apply elem_of_assured_list. by right.
Qed.

Lemma merge_entry_vanished st source dest f :
  fs st !! (source ++ [f]) = None →
  merge_entry utcoffset source dest f st
  = (Raise (FileNotFoundError (source ++ [f])), st).
Proof.
  intros HS. unfold merge_entry.
  rewrite (bind_ok _ _ _ _ _ (os_path_exists_eq _ _)).
  destruct (exists_in (fs st) (dest ++ [f])); cbn [negb].
  - erewrite bind_raise; [done|]. unfold st_mtime. by rewrite HS.
  - erewrite bind_raise; [done|]. unfold shutil_copy2. by rewrite HS.
Qed.

(** X6.  An entry that was listed but is no longer there stops the
    reconciliation with [FileNotFoundError] before anything is changed:
    the file system, the ledger and the trace are as they were. *)
Theorem vanished_source_raises st source dest f :
  fs st !! (source ++ [f]) = None →
  merge_entry utcoffset source dest f st
  = (Raise (FileNotFoundError (source ++ [f])), st).
Proof. apply merge_entry_vanished. Qed.

(** X7.  A completed reconciliation never loses the destination file and
    never replaces it by something older or of the same digest: afterwards
    the destination path holds what it held, unless the source was strictly
    newer with another digest, and then it holds the bytes and the time of
    the source. *)
Theorem destination_replaced_only_by_newer st source dest f A t0 st' :
  fs st !! (dest ++ [f]) = Some (File A t0) →
  merge_entry utcoffset source dest f st = (Ok tt, st') →
  fs st' !! (dest ++ [f]) = Some (File A t0)
  ∨ ∃ B t1,
      fs st !! (source ++ [f]) = Some (File B t1)
      ∧ t0 < t1
      ∧ md5 B ≠ md5 A
      ∧ fs st' !! (dest ++ [f]) = Some (File B t1).
Proof.
  intros HD Hrun.
  destruct (fs st !! (source ++ [f])) as [[B t1|]|] eqn:HS.
  - destruct (Z.lt_trichotomy t0 t1) as [Hlt|[->|Hgt]].
    + destruct (decide (md5 B = md5 A)) as [Hh|Hh].
      * rewrite (merge_entry_newer_identical _ _ _ _ _ _ _ _ _ HS HD Hlt Hh) in Hrun.
        injection Hrun as <-. by left.
      * right. exists B, t1. split_and!; try done.
        revert Hrun. unfold merge_entry.
        rewrite (bind_ok _ _ _ _ _ (os_path_exists_eq _ _)).
        unfold exists_in. rewrite HD. cbn [negb].
        rewrite (bind_ok _ _ _ _ _ (st_mtime_file _ _ _ _ HS)).
        rewrite (bind_ok _ _ _ _ _ (st_mtime_file _ _ _ _ HD)).
        rewrite (bind_ok _ _ _ _ _ (read_file_file _ _ _ _ HS)).
        rewrite (bind_ok _ _ _ _ _ (assure_dest_hash_file _ _ _ _ HD)).
        rewrite (proj2 (Z.ltb_lt t0 t1)) by done.
        rewrite bool_decide_eq_false_2 by done.
        rewrite (bind_ok _ _ _ _ _ (print_eq _ _)).
        intros ([] & st1 & Hmove & Hrun)%bind_inv_ok.
        apply bind_inv_ok in Hrun as ([] & st2 & Hcopy & Happ).
        apply hashes_append_fs in Happ as [-> _].
        apply shutil_move_ok in Hmove as (A' & t0' & HD' & Hfree & ->).
        apply shutil_copy2_ok in Hcopy as (B' & t1' & HS' & ->).
        proj_simpl.
        set (real := if isdir_in (fs st) _ then _ else _) in *.
        assert (real ≠ dest ++ [f]) as Hr1.
        { unfold real. destruct (isdir_in (fs st) _).
          - intros Heq%(f_equal length).
            rewrite !length_app in Heq. simpl in Heq. lia.
          - apply suffixed_ne. }
        assert (real ≠ source ++ [f]) as Hr2.
        { unfold real in *. destruct (isdir_in (fs st) _).
          - intros Heq. rewrite Heq, HS in Hfree. by specialize (Hfree eq_refl).
          - apply suffixed_ne. }
        assert (source ++ [f] ≠ dest ++ [f]) as Hr3.
        { intros Heq. rewrite Heq, HD in HS. injection HS. lia. }
        rewrite lookup_insert_ne, lookup_delete_ne, HS in HS' by done.
        injection HS' as <- <-.
        assert (<[real := File A' t0']> (delete (dest ++ [f]) (fs st))
                  !! (dest ++ [f]) = None) as Hnone
          by (by rewrite lookup_insert_ne, lookup_delete_eq).
        unfold isdir_in. rewrite Hnone. apply lookup_insert_eq.
    + rewrite (merge_entry_equal _ _ _ _ _ _ _ _ HS HD) in Hrun.
      injection Hrun as <-. by left.
    + left.
      destruct (decide (md5 B ∈ default [] (dest_hashes st !! (dest ++ [f]))
                        ∨ md5 B = md5 A)) as [Hknown|Hnew].
      * rewrite (merge_entry_older_known _ _ _ _ _ _ _ _ _ HS HD Hgt Hknown) in Hrun.
        by injection Hrun as <-.
      * revert Hrun. unfold merge_entry.
        rewrite (bind_ok _ _ _ _ _ (os_path_exists_eq _ _)).
        unfold exists_in. rewrite HD. cbn [negb].
        rewrite (bind_ok _ _ _ _ _ (st_mtime_file _ _ _ _ HS)).
        rewrite (bind_ok _ _ _ _ _ (st_mtime_file _ _ _ _ HD)).
        rewrite (bind_ok _ _ _ _ _ (read_file_file _ _ _ _ HS)).
        rewrite (bind_ok _ _ _ _ _ (assure_dest_hash_file _ _ _ _ HD)).
        rewrite (proj2 (Z.ltb_ge t0 t1)) by lia.
        rewrite (proj2 (Z.eqb_neq t1 t0)) by lia. cbn [negb].
        erewrite bind_ok by (apply hashes_get_some; proj_simpl; apply assured_lookup).
        rewrite bool_decide_eq_false_2 by by rewrite elem_of_assured_list.
        rewrite (bind_ok _ _ _ _ _ (print_eq _ _)).
        intros ([] & st1 & Hcopy & Happ)%bind_inv_ok.
        apply hashes_append_fs in Happ as [-> _].
        apply shutil_copy2_ok in Hcopy as (B' & t1' & HS' & ->).
        proj_simpl. rewrite lookup_insert_ne; [done|].
        destruct (isdir_in (fs st) _).
        -- intros Heq%(f_equal length).
           rewrite !length_app in Heq. simpl in Heq. lia.
        -- apply suffixed_ne.
  - (* the source is a directory: [read_file] raises *)
    exfalso. revert Hrun. unfold merge_entry.
    rewrite (bind_ok _ _ _ _ _ (os_path_exists_eq _ _)).
    unfold exists_in. rewrite HD. cbn [negb].
    erewrite bind_ok by (unfold st_mtime; by rewrite HS).
    rewrite (bind_ok _ _ _ _ _ (st_mtime_file _ _ _ _ HD)).
    erewrite bind_raise; [done|]. unfold read_file. by rewrite HS.
  - rewrite (merge_entry_vanished _ _ _ _ HS) in Hrun. done.
Qed.

(** *** Nothing changes outside the destination *)

Lemma confined_elim d {A} (m : M A) st r st' p :
  confined d m → m st = (r, st') → ¬ d `prefix_of` p → fs st' !! p = fs st !! p.
Proof. intros Hm. apply Hm. Qed.

Lemma confined_ret d {A} (a : A) : confined d (mret a).
Proof. by intros st r st' p [= <- <-]. Qed.

Lemma confined_bind d {A B} (m : M A) (k : A → M B) :
  confined d m → (∀ a, confined d (k a)) → confined d (m ≫= k).
Proof.
  intros Hm Hk st r st' p. unfold mbind, M_bind.
  destruct (m st) as [[a|e] st1] eqn:Hrun; intros Hrest Hp.
  - etrans; [by eapply Hk | by eapply Hm].
  - simplify_eq. by eapply Hm.
Qed.

Lemma confined_for_each d {A} (l : list A) (body : A → M unit) :
  (∀ x, confined d (body x)) → confined d (for_each l body).
Proof.
  intros Hbody. induction l as [|x l IH]; simpl.
  - apply confined_ret.
  - apply confined_bind; [apply Hbody | intros _; apply IH].
Qed.

Lemma confined_weaken (d d' : path) {A} (m : M A) :
  d `prefix_of` d' → confined d' m → confined d m.
Proof.
  intros Hpre Hm st r st' p Hrun Hp. eapply Hm; [done|].
  intros Hp'. apply Hp. by etrans.
Qed.

Lemma confined_same d {A} (m : M A) :
  (∀ st r st', m st = (r, st') → fs st' = fs st) → confined d m.
Proof. intros H st r st' p Hrun _. by rewrite (H _ _ _ Hrun). Qed.

Ltac same_fs :=
  apply confined_same; intros st r st' Hrun; unfold hashes_append in *;
  unfold_monad; unfold_prims; repeat case_match; by simplify_eq.

Lemma confined_exists d p : confined d (os_path_exists p).
Proof. same_fs. Qed.
Lemma confined_isdir d p : confined d (os_path_isdir p).
Proof. same_fs. Qed.
Lemma confined_listdir d p : confined d (os_listdir p).
Proof. same_fs. Qed.
Lemma confined_st_mtime d p : confined d (st_mtime p).
Proof. same_fs. Qed.
Lemma confined_read_file d p : confined d (read_file p).
Proof. same_fs. Qed.
Lemma confined_print d line : confined d (print line).
Proof. same_fs. Qed.
Lemma confined_hashes_get d p : confined d (hashes_get p).
Proof. same_fs. Qed.
Lemma confined_hashes_append d p h : confined d (hashes_append p h).
Proof. same_fs. Qed.

Lemma assure_dest_hash_fs p st r st' :
  assure_dest_hash p st = (r, st') → fs st' = fs st ∧ trace st' = trace st.
Proof.
  unfold assure_dest_hash, hashes_append. unfold_monad. unfold_prims.
  intros Hrun. repeat case_match; by simplify_eq.
Qed.

Lemma confined_assure_dest_hash d p : confined d (assure_dest_hash p).
Proof.
  apply confined_same. intros st r st' Hrun.
  by apply assure_dest_hash_fs in Hrun as [? _].
Qed.

Lemma not_prefix_ne (d p q : path) : ¬ d `prefix_of` p → d `prefix_of` q → q ≠ p.
Proof. by intros Hp Hq ->. Qed.

Lemma confined_mkdir (d q : path) : d `prefix_of` q → confined d (os_mkdir q).
Proof.
  intros Hq st r st' p Hrun Hp. unfold os_mkdir in Hrun.
  repeat case_match; simplify_eq; proj_simpl; [done..|].
  rewrite lookup_insert_ne; [done|]. by eapply not_prefix_ne.
Qed.

Lemma confined_copy2 (d src dst : path) : d `prefix_of` dst → confined d (shutil_copy2 src dst).
Proof.
  intros Hq st [[]|e] st' p Hrun Hp.
  - apply shutil_copy2_ok in Hrun as (data & t & _ & ->). proj_simpl.
    rewrite lookup_insert_ne; [done|]. eapply not_prefix_ne; [done|].
    destruct (isdir_in (fs st) dst); [|done].
    etrans; [done|]. by apply prefix_app_r.
  - by apply shutil_copy2_raise in Hrun as ->.
Qed.

Lemma shutil_move_raise src dst st e st' :
  shutil_move src dst st = (Raise e, st') → st' = st.
Proof.
  unfold shutil_move. intros H.
  repeat case_match; by simplify_eq.
Qed.

Lemma confined_move (d src dst : path) :
  d `prefix_of` src → d `prefix_of` dst → confined d (shutil_move src dst).
Proof.
  intros Hsrc Hdst st [[]|e] st' p Hrun Hp.
  - apply shutil_move_ok in Hrun as (data & t & _ & _ & ->). proj_simpl.
    rewrite lookup_insert_ne, lookup_delete_ne; [done| |].
    + by eapply not_prefix_ne.
    + eapply not_prefix_ne; [done|].
      destruct (isdir_in (fs st) dst); [|done].
      etrans; [done|]. by apply prefix_app_r.
  - by apply shutil_move_raise in Hrun as ->.
Qed.

Ltac confined_steps :=
  repeat first
    [ apply confined_ret | apply confined_exists | apply confined_isdir
    | apply confined_listdir | apply confined_st_mtime | apply confined_read_file
    | apply confined_print | apply confined_hashes_get
    | apply confined_hashes_append | apply confined_assure_dest_hash
    | apply confined_mkdir; try by apply prefix_app_r
    | apply confined_copy2; by apply prefix_app_r
    | apply confined_move; by apply prefix_app_r
    | apply confined_bind; [|intros ?] | case_match ].

(** The one call to [os.utime] hands the file the time it has. *)
Lemma os_utime_own_time p st t st1 r st' :
  st_mtime p st = (Ok t, st1) →
  fs st1 = fs st →
  ∀ a st2, fs st2 = fs st → os_utime p a t st2 = (r, st') → fs st' = fs st.
Proof.
  unfold st_mtime, os_utime. intros Ht _ a st2 Hfs. rewrite Hfs.
  destruct (fs st !! p) as [[data t'|]|] eqn:Hp; simplify_eq;
    intros [= <- <-]; proj_simpl; [|done..].
  rewrite Hfs. by apply insert_id.
Qed.

Lemma confined_merge_entry source dest f :
  confined dest (merge_entry utcoffset source dest f).
Proof.
  intros st r st' p Hrun Hp. unfold merge_entry in Hrun.
  rewrite (bind_ok _ _ _ _ _ (os_path_exists_eq _ _)) in Hrun.
  destruct (negb (exists_in (fs st) (dest ++ [f]))).
  { refine (confined_elim dest _ _ _ _ _ _ Hrun Hp). confined_steps. }
  revert Hrun. unfold mbind at 1, M_bind at 1.
  destruct (st_mtime (source ++ [f]) st) as [[s_mod|e] st1] eqn:Hs_mod;
    [|intros [= <- <-]; by eapply (confined_st_mtime dest)].
  assert (st1 = st) as ->.
  { unfold st_mtime in Hs_mod. repeat case_match; by simplify_eq. }
  unfold mbind at 1, M_bind at 1.
  destruct (st_mtime (dest ++ [f]) st) as [[d_mod|e] st1] eqn:Hd_mod;
    [|intros [= <- <-]; by eapply (confined_st_mtime dest)].
  assert (st1 = st) as ->.
  { unfold st_mtime in Hd_mod. repeat case_match; by simplify_eq. }
  unfold mbind at 1, M_bind at 1.
  destruct (read_file (source ++ [f]) st) as [[s_data|e] st1] eqn:Hread;
    [|intros [= <- <-]; by eapply (confined_read_file dest)].
  assert (st1 = st) as ->.
  { unfold read_file in Hread. repeat case_match; by simplify_eq. }
  unfold mbind at 1, M_bind at 1.
  destruct (assure_dest_hash (dest ++ [f]) st) as [[d_hash|e] st1] eqn:Hassure;
    [|intros [= <- <-]; by eapply (confined_assure_dest_hash dest)].
  apply assure_dest_hash_fs in Hassure as [Hfs _].
  rewrite <- Hfs.
  destruct (d_mod <? s_mod);
    [|intros Hrun; refine (confined_elim dest _ _ _ _ _ _ Hrun Hp);
      confined_steps].
  case_bool_decide;
    [|intros Hrun; refine (confined_elim dest _ _ _ _ _ _ Hrun Hp);
      confined_steps].
  unfold mbind at 1, M_bind at 1. rewrite print_eq. intros Hrun.
  rewrite Hfs. f_equal.
  eapply (os_utime_own_time _ _ _ _ _ _ Hs_mod eq_refl); [|exact Hrun]. done.
Qed.

Lemma prefix_dest_of sub_dir : destination args `prefix_of` dest_of args sub_dir.
Proof. destruct sub_dir; simpl; [by apply prefix_app_r | done]. Qed.

Lemma confined_recurse_dir depth source_dir sub_dir :
  confined (destination args) (recurse_dir utcoffset args depth source_dir sub_dir).
Proof.
  revert source_dir sub_dir.
  induction depth as [|depth IH]; intros source_dir sub_dir; simpl.
  - by intros st r st' p [= <- <-].
  - apply confined_bind.
    { unfold enter_dir. apply confined_bind; [apply confined_isdir|].
      intros []; cbn [negb]; (apply confined_bind; [|intros _; apply confined_listdir]).
      - apply confined_ret.
      - apply confined_mkdir, prefix_dest_of. }
    intros names. apply confined_for_each. intros f. unfold visit.
    apply confined_bind; [apply confined_isdir|]. intros [].
    + destruct sub_dir; apply IH.
    + eapply confined_weaken; [apply prefix_dest_of | apply confined_merge_entry].
Qed.

Lemma confined_main limit : confined (destination args) (main utcoffset args limit).
Proof.
  unfold main. apply confined_bind.
  { apply confined_for_each. intros src. unfold check_source.
    apply confined_bind; [apply confined_isdir|]. intros [].
    - apply confined_ret.
    - apply confined_bind; [apply confined_print|]. intros _.
      by intros st0 r0 st0' p0 [= <- <-]. }
  intros _. apply confined_bind; [|intros _; apply confined_print].
  apply confined_for_each. intros src. unfold process_source.
  apply confined_bind; [apply confined_print|]. intros _.
  apply confined_recurse_dir.
Qed.


(** *** The ledger is never asked for a path it does not track *)

Lemma no_key_error_ret {A} (a : A) : no_key_error (mret a).
Proof. by intros st e st'. Qed.

Lemma no_key_error_bind {A B} (m : M A) (k : A → M B) :
  no_key_error m → (∀ a, no_key_error (k a)) → no_key_error (m ≫= k).
Proof.
  intros Hm Hk st e st'. unfold mbind, M_bind.
  destruct (m st) as [[a|e'] st1] eqn:Hrun; intros Hrest.
  - by eapply Hk.
  - simplify_eq. by eapply Hm.
Qed.

Lemma no_key_error_for_each {A} (l : list A) (body : A → M unit) :
  (∀ x, no_key_error (body x)) → no_key_error (for_each l body).
Proof.
  intros Hbody. induction l as [|x l IH]; simpl.
  - apply no_key_error_ret.
  - apply no_key_error_bind; [apply Hbody | intros _; apply IH].
Qed.

Ltac no_key_error_prim :=
  intros st e st' Hrun q; unfold_monad;
  unfold_prims; unfold parent_error in *; repeat case_match; by simplify_eq.

Lemma no_key_error_exists p : no_key_error (os_path_exists p).
Proof. no_key_error_prim. Qed.
Lemma no_key_error_isdir p : no_key_error (os_path_isdir p).
Proof. no_key_error_prim. Qed.
Lemma no_key_error_mkdir p : no_key_error (os_mkdir p).
Proof. no_key_error_prim. Qed.
Lemma no_key_error_listdir p : no_key_error (os_listdir p).
Proof. no_key_error_prim. Qed.
Lemma no_key_error_st_mtime p : no_key_error (st_mtime p).
Proof. no_key_error_prim. Qed.
Lemma no_key_error_read_file p : no_key_error (read_file p).
Proof. no_key_error_prim. Qed.
Lemma no_key_error_utime p a t : no_key_error (os_utime p a t).
Proof. no_key_error_prim. Qed.
Lemma no_key_error_copy2 src dst : no_key_error (shutil_copy2 src dst).
Proof. no_key_error_prim. Qed.
Lemma no_key_error_move src dst : no_key_error (shutil_move src dst).
Proof. no_key_error_prim. Qed.
Lemma no_key_error_print line : no_key_error (print line).
Proof. no_key_error_prim. Qed.

Lemma no_key_error_assure_dest_hash p : no_key_error (assure_dest_hash p).
Proof.
  intros st e st' Hrun q. unfold assure_dest_hash, hashes_append in Hrun.
  unfold_monad. unfold_prims.
  destruct (dest_hashes st !! p) as [l|] eqn:Hl; red_m;
    repeat case_match; simplify_eq; proj_simpl;
    rewrite ?lookup_insert_eq in *; by simplify_eq.
Qed.

Lemma assure_dest_hash_tracks p st h st' :
  assure_dest_hash p st = (Ok h, st') → is_Some (dest_hashes st' !! p).
Proof.
  intros Hrun. unfold assure_dest_hash, hashes_append in Hrun.
  unfold_monad. unfold_prims.
  destruct (dest_hashes st !! p) as [l|] eqn:Hl; red_m;
    repeat case_match; simplify_eq; proj_simpl;
    rewrite ?lookup_insert_eq in *; simplify_eq; eauto.
Qed.

Lemma no_key_error_lift p {A} (m : M A) : no_key_error m → no_key_error_from p m.
Proof. intros Hm st e st' _. apply Hm. Qed.

Lemma no_key_error_from_bind p {A B} (m : M A) (k : A → M B) :
  no_key_error_from p m → grows m → (∀ a, no_key_error_from p (k a)) →
  no_key_error_from p (m ≫= k).
Proof.
  intros Hm Hg Hk st e st' Hp. unfold mbind, M_bind.
  destruct (m st) as [[a|e'] st1] eqn:Hrun; intros Hrest.
  - eapply Hk; [|done]. destruct Hp as [l Hl].
    destruct (Hg _ _ _ Hrun _ _ Hl) as (l' & -> & _). eauto.
  - simplify_eq. by eapply Hm.
Qed.

Lemma no_key_error_from_get p : no_key_error_from p (hashes_get p).
Proof.
  intros st e st' [l Hl]. unfold hashes_get. rewrite Hl. by intros [= <- <-].
Qed.

Lemma no_key_error_from_append p h : no_key_error_from p (hashes_append p h).
Proof.
  intros st e st' [l Hl]. unfold hashes_append, hashes_get, hashes_set.
  unfold_monad. rewrite Hl. by intros [= <- <-].
Qed.

Ltac no_key_error_steps :=
  repeat first
    [ apply no_key_error_ret | apply no_key_error_exists
    | apply no_key_error_isdir | apply no_key_error_mkdir
    | apply no_key_error_listdir | apply no_key_error_st_mtime
    | apply no_key_error_read_file | apply no_key_error_utime
    | apply no_key_error_copy2 | apply no_key_error_move
    | apply no_key_error_print | apply no_key_error_assure_dest_hash
    | apply no_key_error_bind; [|intros ?] | case_match ].

Ltac no_key_error_from_steps :=
  repeat first
    [ apply no_key_error_from_get | apply no_key_error_from_append
    | apply no_key_error_lift; no_key_error_steps; fail
    | apply no_key_error_from_bind;
        [|first [ apply grows_print | apply grows_move | apply grows_copy2
                | apply grows_hashes_get | apply grows_utime ]|intros ?]
    | case_match ].

Lemma no_key_error_merge_entry source dest f :
  no_key_error (merge_entry utcoffset source dest f).
Proof.
  unfold merge_entry.
  apply no_key_error_bind; [apply no_key_error_exists|]. intros present.
  destruct (negb present); [no_key_error_steps|].
  apply no_key_error_bind; [apply no_key_error_st_mtime|]. intros s_mod.
  apply no_key_error_bind; [apply no_key_error_st_mtime|]. intros d_mod.
  apply no_key_error_bind; [apply no_key_error_read_file|]. intros s_data.
  intros st e st'. unfold mbind at 1, M_bind at 1.
  destruct (assure_dest_hash (dest ++ [f]) st) as [[d_hash|e1] st1] eqn:Hassure;
    [|intros [= <- <-]; by eapply no_key_error_assure_dest_hash].
  apply assure_dest_hash_tracks in Hassure. revert Hassure.
  generalize st1 e st'. clear.
  change (no_key_error_from (dest ++ [f])
    (if d_mod <? s_mod
     then if bool_decide (md5 s_data = d_hash)
          then print (path_str (source ++ [f])
                      +:+ "; newer but identical; updating modified date");;
               os_utime (source ++ [f]) s_mod s_mod
          else print (path_str (source ++ [f]) +:+ "; newer and different; save/copy");;
               shutil_move (dest ++ [f])
                 (dest ++ [f +:+ "--" +:+ ts_str utcoffset d_mod]);;
               shutil_copy2 (source ++ [f]) (dest ++ [f]);;
               hashes_append (dest ++ [f]) (md5 s_data)
     else if negb (s_mod =? d_mod)
          then seen ← hashes_get (dest ++ [f]);
               if bool_decide (md5 s_data ∈ seen) then mret tt
               else print (path_str (source ++ [f])
                           +:+ "; older but different; saving");;
                    shutil_copy2 (source ++ [f])
                      (dest ++ [f +:+ "--" +:+ ts_str utcoffset s_mod]);;
                    hashes_append (dest ++ [f]) (md5 s_data)
          else mret tt)).
  no_key_error_from_steps.
Qed.

Lemma no_key_error_recurse_dir depth source_dir sub_dir :
  no_key_error (recurse_dir utcoffset args depth source_dir sub_dir).
Proof.
  revert source_dir sub_dir.
  induction depth as [|depth IH]; intros source_dir sub_dir; simpl.
  - by intros st e st' [= <- <-].
  - apply no_key_error_bind; [unfold enter_dir; no_key_error_steps|].
    intros names. apply no_key_error_for_each. intros f. unfold visit.
    apply no_key_error_bind; [apply no_key_error_isdir|]. intros [].
    + destruct sub_dir; apply IH.
    + apply no_key_error_merge_entry.
Qed.

(** X9.  No run raises [KeyError]: whenever lines 127, 133 and 143 look
    up [dest_hashes] for a destination path, [assure_dest_hash] has given
    that path an entry, and entries are never removed. *)
Theorem run_raises_no_key_error limit st e st' p :
  main utcoffset args limit st = (Raise e, st') → e ≠ KeyError p.
Proof.
  intros Hrun. revert p.
  assert (no_key_error (main utcoffset args limit)) as Hmain; [|by eapply Hmain].
  unfold main. apply no_key_error_bind.
  { apply no_key_error_for_each. intros src. unfold check_source.
    apply no_key_error_bind; [apply no_key_error_isdir|]. intros [].
    - apply no_key_error_ret.
    - apply no_key_error_bind; [apply no_key_error_print|]. intros _.
      by intros st0 e0 st0' [= <- <-]. }
  intros _. apply no_key_error_bind; [|intros _; apply no_key_error_print].
  apply no_key_error_for_each. intros src. unfold process_source.
  apply no_key_error_bind; [apply no_key_error_print|]. intros _.
  apply no_key_error_recurse_dir.
Qed.

Lemma grows_main limit : grows (main utcoffset args limit).
Proof.
  unfold main. apply grows_bind.
  { apply grows_for_each. intros src. unfold check_source.
    apply grows_bind; [apply grows_isdir|]. intros [].
    - apply grows_ret.
    - apply grows_bind; [apply grows_print|]. intros _. apply grows_raise. }
  intros _. apply grows_bind; [|intros _; apply grows_print].
  apply grows_for_each. intros src. unfold process_source.
  apply grows_bind; [apply grows_print|]. intros _.
  apply grows_recurse_dir.
Qed.

(** X10.  Over a whole run the ledger only gains: a path that has an
    entry keeps one, and the entry keeps every digest it listed, whether
    the run completes or stops with an error. *)
Theorem run_ledger_only_gains limit st r st' p l :
  main utcoffset args limit st = (r, st') →
  dest_hashes st !! p = Some l →
  ∃ l', dest_hashes st' !! p = Some l' ∧ ∀ h, h ∈ l → h ∈ l'.
Proof.
  intros Hrun Hl. destruct (grows_main limit _ _ _ Hrun _ _ Hl) as (l' & ? & Hsub).
  exists l'. split; [done|]. intros h. apply Hsub.
Qed.

(** X11.  A run removes no directory and puts nothing in the place of
    one: whatever is a directory when the run starts is one when it ends,
    whether the run completes or stops with an error. *)
Theorem run_keeps_directories limit st r st' p :
  main utcoffset args limit st = (r, st') →
  fs st !! p = Some Dir →
  fs st' !! p = Some Dir.
Proof.
  intros Hrun Hp.
  assert (keeps_dirs (main utcoffset args limit)) as Hmain; [|by eapply Hmain].
  unfold main. apply keeps_dirs_bind.
  { apply keeps_dirs_for_each. intros src. unfold check_source.
    apply keeps_dirs_bind; [apply keeps_dirs_isdir|]. intros [].
    - apply keeps_dirs_ret.
    - apply keeps_dirs_bind; [apply keeps_dirs_print|]. intros _.
      by intros st0 r0 st0' p0 [= <- <-]. }
  intros _. apply keeps_dirs_bind; [|intros _; apply keeps_dirs_print].
  apply keeps_dirs_for_each. intros src. unfold process_source.
  apply keeps_dirs_bind; [apply keeps_dirs_print|]. intros _.
  apply keeps_dirs_recurse_dir.
Qed.

End Further.

Section Listing.

Implicit Types (m : gmap path node) (p k : path) (f : string).

Lemma child_of_snoc p k f : child_of p k = Some f ↔ k = p ++ [f].
Proof.
  unfold child_of. split.
  - case_bool_decide as Hk; [|done]. destruct Hk as [Hne <-]. intros [= <-].
    unfold dirname, basename. by apply app_removelast_last.
  - intros ->. rewrite bool_decide_eq_true_2.
    + by rewrite basename_snoc.
    + split; [apply snoc_not_nil | apply dirname_snoc].
Qed.

(** [os.listdir] lists exactly the names that are in the directory, each
    once. *)
Lemma elem_of_children m p f : f ∈ children m p ↔ is_Some (m !! (p ++ [f])).
Proof.
  unfold children. rewrite list_elem_of_omap. split.
  - intros (k & Hk & Hf). apply child_of_snoc in Hf as ->.
    apply list_elem_of_fmap in Hk as ([k v] & -> & Hkv).
    apply elem_of_map_to_list in Hkv. simpl. eauto.
  - intros [v Hv]. exists (p ++ [f]). split; [|by apply child_of_snoc].
    apply list_elem_of_fmap. exists (p ++ [f], v). split; [done|].
    by apply elem_of_map_to_list.
Qed.

Lemma NoDup_children m p : NoDup (children m p).
Proof.
  unfold children. generalize (NoDup_fst_map_to_list m).
  induction 1 as [|k ks Hk _ IH]; simpl; [constructor|].
  destruct (child_of p k) as [f|] eqn:Hf; [|done].
  constructor; [|done]. intros Hin.
  apply list_elem_of_omap in Hin as (k' & Hk' & Hf').
  apply child_of_snoc in Hf as ->. apply child_of_snoc in Hf' as ->. done.
Qed.

End Listing.

Section Mirror.

Variable utcoffset : Z → Z.
Variable args : Args.

Implicit Types (m : gmap path node) (p q : path) (f : string).

Lemma closed_below_up m s q1 q2 :
  closed_below m s → is_Some (m !! (s ++ q1 ++ q2)) → is_Some (m !! (s ++ q1)).
Proof.
  intros Hc. induction q2 as [|f q2 IH] using rev_ind.
  - by rewrite app_nil_r.
  - intros Hsome. apply IH.
    replace (s ++ q1 ++ q2 ++ [f]) with (s ++ (q1 ++ q2) ++ [f]) in Hsome
      by (by rewrite <- !app_assoc).
    rewrite (Hc (q1 ++ q2) f Hsome). eauto.
Qed.

Lemma source_of_child src sub f :
  source_of src (match sub with None => Some [f] | Some sd => Some (sd ++ [f]) end)
  = source_of src sub ++ [f].
Proof. destruct sub; simpl; by rewrite ?app_assoc. Qed.

Lemma dest_of_child sub f :
  dest_of args (match sub with None => Some [f] | Some sd => Some (sd ++ [f]) end)
  = dest_of args sub ++ [f].
Proof. destruct sub; simpl; by rewrite ?app_assoc. Qed.

Lemma recurse_child (recurse : path → option path → M unit) src sub f :
  match sub with
  | None => recurse src (Some [f])
  | Some sd => recurse src (Some (sd ++ [f]))
  end
  = recurse src (match sub with None => Some [f] | Some sd => Some (sd ++ [f]) end).
Proof. by destruct sub. Qed.

Lemma apart_child s d f : apart s d → apart (s ++ [f]) (d ++ [f]).
Proof. intros H q q'. rewrite <- !app_assoc. apply H. Qed.

Lemma apart_not_prefix s d q p : apart s d → d `prefix_of` p → s ++ q ≠ p.
Proof. intros H [q' ->]. apply H. Qed.

Section Loop.

Variables (depth : nat) (src : path) (sub : option path) (m : gmap path node).

Hypothesis IH : mirrors utcoffset args depth src.
Hypothesis Hclosed : closed_below m (source_of src sub).
Hypothesis Hfree : ∀ q, m !! (dest_of args sub ++ q) = None.
Hypothesis Hapart : apart (source_of src sub) (dest_of args sub).
Hypothesis Hdepth : ∀ q, is_Some (m !! (source_of src sub ++ q)) → (length q < S depth)%nat.

Lemma visited_source done mk q :
  visited (source_of src sub) (dest_of args sub) m done mk →
  mk !! (source_of src sub ++ q) = m !! (source_of src sub ++ q).
Proof.
  intros (_ & _ & Hrest). apply Hrest.
  - rewrite <- (app_nil_r (dest_of args sub)). apply Hapart.
  - intros f _ [k Heq]. rewrite <- app_assoc in Heq. by apply Hapart in Heq.
Qed.

Lemma visited_todo done mk f q :
  visited (source_of src sub) (dest_of args sub) m done mk →
  f ∉ done →
  mk !! (dest_of args sub ++ f :: q) = None.
Proof.
  intros (_ & _ & Hrest) Hf. rewrite Hrest; [apply Hfree| |].
  - intros Heq. rewrite <- (app_nil_r (dest_of args sub)) in Heq at 2. by simplify_list_eq.
  - intros g Hg [q' Heq]. rewrite <- app_assoc in Heq. by simplify_list_eq.
Qed.

Lemma visit_step done f st :
  visited (source_of src sub) (dest_of args sub) m done (fs st) →
  f ∉ done →
  is_Some (m !! (source_of src sub ++ [f])) →
  ∃ st',
    visit utcoffset args (recurse_dir utcoffset args depth) src sub f st
      = (Ok tt, st')
    ∧ visited (source_of src sub) (dest_of args sub) m (done ++ [f]) (fs st').
Proof.
  intros Hvis Hf [n Hn].
  pose proof (visited_source _ _ [f] Hvis) as HS. rewrite Hn in HS.
  destruct Hvis as (HD0 & Hdone & Hrest) eqn:Hv. clear Hv.
  unfold visit. rewrite (bind_ok _ _ _ _ _ (os_path_isdir_eq _ _)).
  unfold isdir_in. rewrite HS.
  destruct n as [B t|].
  - (* a file: it is copied *)
    rewrite (merge_entry_absent utcoffset st (source_of src sub) (dest_of args sub) f B t HS
               (visited_todo _ _ f [] (conj HD0 (conj Hdone Hrest)) Hf) HD0).
    eexists. split; [done|]. cbn [fs]. split_and!.
    + rewrite lookup_insert_ne; [done|].
      intros Heq. rewrite <- (app_nil_r (dest_of args sub)) in Heq at 2. by simplify_list_eq.
    + intros g q [Hg| ->%list_elem_of_singleton]%elem_of_app.
      * rewrite lookup_insert_ne; [by apply Hdone|].
        intros Heq. simplify_list_eq. done.
      * destruct q as [|g q].
        { by rewrite lookup_insert_eq. }
        rewrite lookup_insert_ne by (intros Heq; by simplify_list_eq).
        rewrite (visited_todo _ _ f (g :: q) (conj HD0 (conj Hdone Hrest)) Hf).
        symmetry. apply eq_None_not_Some. intros Hsome.
        assert (m !! (source_of src sub ++ [f]) = Some Dir) as Hdir; [|congruence].
        change (f :: g :: q) with ([f] ++ g :: q) in Hsome.
        apply (Hclosed [f] g).
        apply (closed_below_up m (source_of src sub) ([f] ++ [g]) q Hclosed).
        by rewrite <- !app_assoc.
    + intros p Hp Hnot. rewrite lookup_insert_ne.
      * apply Hrest; [done|]. intros g Hg. apply Hnot, elem_of_app. by left.
      * intros <-. eapply (Hnot f); [|done].
        apply elem_of_app. right. by apply list_elem_of_singleton.
  - (* a directory: it is walked *)
    pose proof (IH (match sub with None => Some [f] | Some sd => Some (sd ++ [f]) end)
                  st) as IH'.
    rewrite source_of_child, dest_of_child in IH'.
    destruct IH' as (st' & Hrun & Hin & Hout).
    + done.
    + intros q g Hsome.
      rewrite <- !app_assoc in Hsome. rewrite <- !app_assoc.
      rewrite (visited_source _ _ _ (conj HD0 (conj Hdone Hrest))) in Hsome.
      rewrite (visited_source _ _ _ (conj HD0 (conj Hdone Hrest))).
      apply (Hclosed ([f] ++ q) g). by rewrite <- !app_assoc.
    + intros q. rewrite <- app_assoc.
      by apply (visited_todo _ _ f q (conj HD0 (conj Hdone Hrest))).
    + by apply parent_error_snoc.
    + by apply apart_child.
    + intros q Hsome.
      rewrite <- app_assoc in Hsome.
      rewrite (visited_source _ _ _ (conj HD0 (conj Hdone Hrest))) in Hsome.
      apply Hdepth in Hsome. simpl in Hsome. lia.
    + exists st'. split; [by rewrite recurse_child|]. split_and!.
      * rewrite Hout; [done|]. apply prefix_snoc_not.
      * intros g q [Hg| ->%list_elem_of_singleton]%elem_of_app.
        -- rewrite Hout; [by apply Hdone|].
           intros [q' Heq]. rewrite <- app_assoc in Heq. by simplify_list_eq.
        -- change (f :: q) with ([f] ++ q). rewrite !app_assoc, Hin.
           rewrite <- app_assoc.
           apply (visited_source _ _ _ (conj HD0 (conj Hdone Hrest))).
      * intros p Hp Hnot. rewrite Hout.
        -- apply Hrest; [done|]. intros g Hg. apply Hnot, elem_of_app. by left.
        -- apply Hnot, elem_of_app. right. by apply list_elem_of_singleton.
Qed.

Lemma visit_all todo : ∀ done st,
  NoDup (done ++ todo) →
  (∀ f, f ∈ todo → is_Some (m !! (source_of src sub ++ [f]))) →
  visited (source_of src sub) (dest_of args sub) m done (fs st) →
  ∃ st',
    for_each todo (visit utcoffset args (recurse_dir utcoffset args depth) src sub) st
      = (Ok tt, st')
    ∧ visited (source_of src sub) (dest_of args sub) m (done ++ todo) (fs st').
Proof.
  induction todo as [|f todo IHt]; intros done st Hnd Hex Hvis; simpl.
  - exists st. by rewrite app_nil_r.
  - assert (f ∉ done) as Hf.
    { apply NoDup_app in Hnd as (_ & Hnd & _). intros Hin.
      apply (Hnd f Hin). by left. }
    destruct (visit_step done f st Hvis Hf) as (st1 & Hrun1 & Hvis1).
    { apply Hex. by left. }
    destruct (IHt (done ++ [f]) st1) as (st' & Hrun & Hvis').
    + by rewrite <- app_assoc.
    + intros g Hg. apply Hex. by right.
    + done.
    + exists st'. rewrite (bind_ok _ _ _ _ _ Hrun1).
      split; [done|]. by rewrite <- app_assoc in Hvis'.
Qed.

End Loop.

Lemma walk_mirrors depth src : mirrors utcoffset args depth src.
Proof.
  induction depth as [|depth IH]; intros sub st HS0 Hclosed Hfree Hpar Hapart Hdepth.
  { specialize (Hdepth []). rewrite app_nil_r, HS0 in Hdepth.
    specialize (Hdepth (mk_is_Some _ _ eq_refl)). lia. }
  assert (source_of src sub ≠ dest_of args sub) as Hne.
  { rewrite <- (app_nil_r (source_of src sub)), <- (app_nil_r (dest_of args sub)).
    apply Hapart. }
  assert (∀ f, source_of src sub ++ [f] ≠ dest_of args sub) as Hne'.
  { intros f. rewrite <- (app_nil_r (dest_of args sub)). apply Hapart. }
  assert (fs st !! dest_of args sub = None) as HD0.
  { specialize (Hfree []). by rewrite app_nil_r in Hfree. }
  pose (st1 := State (<[dest_of args sub := Dir]> (fs st)) (dest_hashes st)
                 (trace st ++ [Mkdir (dest_of args sub)])).
  assert (enter_dir (source_of src sub) (dest_of args sub) st
          = (Ok (children (fs st1) (source_of src sub)), st1)) as Henter.
  { unfold enter_dir.
    rewrite (bind_ok _ _ _ _ _ (os_path_isdir_eq _ _)).
    unfold isdir_in. rewrite HD0. cbn [negb].
    erewrite bind_ok; cycle 1.
    { unfold os_mkdir. rewrite HD0, Hpar. reflexivity. }
    unfold os_listdir. proj_simpl. by rewrite lookup_insert_ne, HS0. }
  destruct (visit_all depth src sub (fs st) IH Hclosed Hfree Hapart Hdepth
              (children (fs st1) (source_of src sub)) [] st1)
    as (st' & Hrun & Hvis).
  - apply NoDup_children.
  - intros f Hf%elem_of_children. unfold st1 in Hf. cbn [fs] in Hf.
    by rewrite lookup_insert_ne in Hf.
  - unfold visited, st1. cbn [fs]. split_and!.
    + apply lookup_insert_eq.
    + intros f q Hf. by apply elem_of_nil in Hf.
    + intros p Hp _. by rewrite lookup_insert_ne.
  - exists st'. split.
    { cbn [recurse_dir]. by rewrite (bind_ok _ _ _ _ _ Henter). }
    destruct Hvis as (Hd & Hdone & Hrest). cbn [app] in *. split.
    + intros [|f q].
      { by rewrite !app_nil_r, Hd, HS0. }
      destruct (decide (f ∈ children (fs st1) (source_of src sub))) as [Hf|Hf];
        [by apply Hdone|].
      assert (fs st !! (source_of src sub ++ [f]) = None) as Hnone.
      { apply eq_None_not_Some. intros Hsome. apply Hf, elem_of_children.
        unfold st1. cbn [fs]. by rewrite lookup_insert_ne. }
      rewrite Hrest.
      * rewrite Hfree. symmetry. apply eq_None_not_Some. intros Hsome.
        apply (closed_below_up _ _ [f] q Hclosed) in Hsome.
        rewrite Hnone in Hsome. by destruct Hsome.
      * intros Heq. rewrite <- (app_nil_r (dest_of args sub)) in Heq at 2.
        by simplify_list_eq.
      * intros g Hg [q' Heq]. rewrite <- app_assoc in Heq. by simplify_list_eq.
    + intros p Hp. apply Hrest.
      * by intros ->.
      * intros g _ Hpre. apply Hp. etrans; [|done]. by apply prefix_app_r.
Qed.

Lemma well_formed_closed_below m s : well_formed m → closed_below m s.
Proof.
  intros Hwf q f [n Hn]. destruct (Hwf _ _ Hn) as [Hnil|Hdir].
  - rewrite app_assoc in Hnil. by apply snoc_not_nil in Hnil.
  - by rewrite !app_assoc, dirname_snoc in *.
Qed.

Lemma free_below_lookup m d q : free_below d m → m !! (d ++ q) = None.
Proof.
  intros Hfree. apply eq_None_not_Some. intros [n Hn].
  apply (Hfree _ _ Hn). by apply prefix_app_r.
Qed.

Lemma apart_roots (s d : path) : ¬ s `prefix_of` d → ¬ d `prefix_of` s → apart s d.
Proof.
  intros Hsd Hds q q' Heq.
  destruct (prefix_weak_total s d (s ++ q)) as [H|H]; try done.
  - by apply prefix_app_r.
  - rewrite Heq. by apply prefix_app_r.
Qed.

Lemma copy_at_depth limit src st :
  source args = [src] →
  fs st !! src = Some Dir →
  well_formed (fs st) →
  free_below (destination args) (fs st) →
  parent_error (fs st) (destination args) = None →
  ¬ src `prefix_of` destination args →
  shallow (length src + limit) (fs st) →
  ∃ st',
    main utcoffset args limit st = (Ok tt, st')
    ∧ (∀ q, fs st' !! (destination args ++ q) = fs st !! (src ++ q))
    ∧ (∀ p, ¬ destination args `prefix_of` p → fs st' !! p = fs st !! p).
Proof.
  intros Hsrc Hdir Hwf Hfree Hpar Hpre Hshallow.
  pose (st0 := emit (Print ("####### Processing source " +:+ path_str src
                             +:+ " #######")) st).
  destruct (walk_mirrors limit src None st0) as (st' & Hrun & Hin & Hout).
  - done.
  - by apply well_formed_closed_below.
  - intros q. by apply free_below_lookup.
  - done.
  - cbn [source_of dest_of]. apply apart_roots; [done|]. intros Hds.
    destruct Hds as [q Hq]. by rewrite Hq, (free_below_lookup _ _ q Hfree) in Hdir.
  - intros q [n Hn]. apply Hshallow in Hn. rewrite length_app in Hn.
    cbn [source_of] in Hn. lia.
  - exists (emit (Print "Run complete") st'). split; [|done].
    unfold main. rewrite Hsrc. cbn [for_each].
    erewrite bind_ok; cycle 1.
    { erewrite bind_ok; [reflexivity|].
      unfold check_source. rewrite (bind_ok _ _ _ _ _ (os_path_isdir_eq _ _)).
      unfold isdir_in. rewrite Hdir. reflexivity. }
    erewrite bind_ok; cycle 1.
    { erewrite bind_ok; [reflexivity|].
      unfold process_source. rewrite (bind_ok _ _ _ _ _ (print_eq _ _)).
      exact Hrun. }
    apply print_eq.
Qed.

(** *** More room on the stack changes no outcome but [RecursionError] *)

Lemma for_each_more {A} (l : list A) (body body' : A → M unit) :
  (∀ x st r st', body x st = (r, st') → r ≠ Raise RecursionError →
                 body' x st = (r, st')) →
  ∀ st r st', for_each l body st = (r, st') → r ≠ Raise RecursionError →
              for_each l body' st = (r, st').
Proof.
  intros Hbody. induction l as [|x l IH]; intros st r st'; simpl; [done|].
  unfold mbind, M_bind. destruct (body x st) as [[[]|e] st1] eqn:Hx.
  - rewrite (Hbody _ _ _ _ Hx) by done. apply IH.
  - intros [= <- <-] Hne. by rewrite (Hbody _ _ _ _ Hx).
Qed.

Lemma recurse_dir_more depth : ∀ depth' src sub st r st',
  (depth ≤ depth')%nat →
  recurse_dir utcoffset args depth src sub st = (r, st') →
  r ≠ Raise RecursionError →
  recurse_dir utcoffset args depth' src sub st = (r, st').
Proof.
  induction depth as [|depth IH]; intros depth' src sub st r st' Hle.
  { by intros [= <- <-]. }
  destruct depth' as [|depth']; [lia|]. cbn [recurse_dir].
  destruct (enter_dir (source_of src sub) (dest_of args sub) st)
    as [[names|e] st1] eqn:Henter.
  2: { by rewrite !(bind_raise _ _ _ _ _ Henter). }
  rewrite !(bind_ok _ _ _ _ _ Henter).
  apply for_each_more. intros f st2 r2 st2'. unfold visit.
  rewrite !(bind_ok _ _ _ _ _ (os_path_isdir_eq _ _)).
  destruct (isdir_in (fs st2) (source_of src sub ++ [f])); [|done].
  rewrite !recurse_child. apply IH. lia.
Qed.

Lemma main_more limit limit' st r st' :
  (limit ≤ limit')%nat →
  main utcoffset args limit st = (r, st') →
  r ≠ Raise RecursionError →
  main utcoffset args limit' st = (r, st').
Proof.
  intros Hle. unfold main, mbind, M_bind.
  destruct (for_each (source args) check_source st) as [[[]|e] st1]; [|done].
  assert (∀ r2 st2,
    for_each (source args) (process_source utcoffset args limit) st1 = (r2, st2) →
    r2 ≠ Raise RecursionError →
    for_each (source args) (process_source utcoffset args limit') st1 = (r2, st2))
    as Hmore.
  { intros r2 st2. apply for_each_more. intros src st0 r0 st0'.
    unfold process_source. rewrite !(bind_ok _ _ _ _ _ (print_eq _ _)).
    by apply recurse_dir_more. }
  destruct (for_each (source args) (process_source utcoffset args limit) st1)
    as [[[]|e] st2] eqn:Hrun.
  - by rewrite (Hmore _ _ eq_refl).
  - intros [= <- <-] Hne. by rewrite (Hmore _ _ eq_refl).
Qed.

Lemma shallow_exists (m : gmap path node) : ∃ n, shallow n m.
Proof.
  induction m as [|k v m Hk [n Hn]] using map_ind.
  - exists 0%nat. apply map_Forall_empty.
  - exists (n `max` S (length k))%nat. apply map_Forall_insert; [done|]. split; [lia|].
    intros k' v' Hk'. specialize (Hn _ _ Hk'). simpl in Hn. lia.
Qed.


End Mirror.

Section Settled.

Variable utcoffset : Z → Z.
Variable args : Args.

Lemma for_each_keeps_fs {A} (l : list A) (body : A → M unit) (m : gmap path node) :
  (∀ x st r st', x ∈ l → fs st = m → body x st = (r, st') → fs st' = m) →
  ∀ st r st', fs st = m → for_each l body st = (r, st') → fs st' = m.
Proof.
  induction l as [|x l IH]; intros Hbody st r st' Hm; simpl.
  - by intros [= _ <-].
  - unfold mbind, M_bind. destruct (body x st) as [[[]|e] st1] eqn:Hrun.
    + apply IH.
      * intros y ???? Hy. eapply Hbody; [by right|]. exact Hy.
      * eapply Hbody; [by left|done..].
    + intros [= _ <-]. eapply Hbody; [by left|done..].
Qed.

Lemma check_source_keeps_fs src st r st' :
  check_source src st = (r, st') → fs st' = fs st.
Proof.
  unfold check_source. rewrite (bind_ok _ _ _ _ _ (os_path_isdir_eq _ _)).
  destruct (isdir_in (fs st) src); cbn [negb].
  - by intros [= _ <-].
  - rewrite (bind_ok _ _ _ _ _ (print_eq _ _)). by intros [= _ <-].
Qed.

Lemma check_sources_inv (l : list path) : ∀ st st',
  for_each l check_source st = (Ok tt, st') →
  ∀ src, src ∈ l → fs st !! src = Some Dir.
Proof.
  induction l as [|x l IH]; intros st st' Hrun src Hsrc.
  { by apply elem_of_nil in Hsrc. }
  revert Hrun. simpl. unfold mbind, M_bind.
  destruct (check_source x st) as [[[]|e] st1] eqn:Hx; [|done].
  intros Hrest.
  pose proof (check_source_keeps_fs _ _ _ _ Hx) as Hfs.
  apply elem_of_cons in Hsrc as [->|Hsrc].
  - revert Hx. unfold check_source.
    rewrite (bind_ok _ _ _ _ _ (os_path_isdir_eq _ _)).
    unfold isdir_in. destruct (fs st !! x) as [[]|]; cbn [negb]; try done.
    all: by rewrite (bind_ok _ _ _ _ _ (print_eq _ _)).
  - rewrite <- Hfs. by eapply IH.
Qed.

Lemma in_step_child s d f m : in_step s d m → in_step (s ++ [f]) (d ++ [f]) m.
Proof. intros H q. rewrite <- !app_assoc. apply H. Qed.

Lemma merge_entry_in_step st source dest f r st' :
  in_step source dest (fs st) →
  fs st !! (source ++ [f]) ≠ Some Dir →
  merge_entry utcoffset source dest f st = (r, st') →
  fs st' = fs st.
Proof.
  intros Hstep Hnd. specialize (Hstep [f]).
  destruct (fs st !! (source ++ [f])) as [[B t1|]|] eqn:HS; [|done|].
  - destruct Hstep as [A HD].
    rewrite (merge_entry_equal _ _ _ _ _ _ _ _ HS HD). by intros [= _ <-].
  - rewrite (merge_entry_vanished _ _ _ _ _ HS). by intros [= _ <-].
Qed.

Lemma recurse_dir_in_step depth : ∀ src sub st r st',
  fs st !! source_of src sub = Some Dir →
  in_step (source_of src sub) (dest_of args sub) (fs st) →
  recurse_dir utcoffset args depth src sub st = (r, st') →
  fs st' = fs st.
Proof.
  induction depth as [|depth IH]; intros src sub st r st' HS Hstep.
  { by intros [= _ <-]. }
  assert (fs st !! dest_of args sub = Some Dir) as HD.
  { specialize (Hstep []). by rewrite !app_nil_r, HS in Hstep. }
  cbn [recurse_dir].
  erewrite bind_ok; cycle 1.
  { unfold enter_dir. rewrite (bind_ok _ _ _ _ _ (os_path_isdir_eq _ _)).
    unfold isdir_in. rewrite HD. cbn [negb].
    erewrite bind_ok by reflexivity.
    unfold os_listdir. rewrite HS. reflexivity. }
  apply for_each_keeps_fs; [|done].
  intros f st1 r1 st1' _ Hfs. unfold visit.
  rewrite (bind_ok _ _ _ _ _ (os_path_isdir_eq _ _)).
  unfold isdir_in.
  destruct (fs st1 !! (source_of src sub ++ [f])) as [[B t1|]|] eqn:HSf.
  - intros Hrun. rewrite <- Hfs. eapply merge_entry_in_step; [| |exact Hrun].
    + by rewrite Hfs.
    + by rewrite HSf.
  - rewrite recurse_child. intros Hrun. rewrite <- Hfs.
    eapply IH; [| |exact Hrun].
    + by rewrite source_of_child.
    + rewrite source_of_child, dest_of_child, Hfs. by apply in_step_child.
  - intros Hrun. rewrite <- Hfs. eapply merge_entry_in_step; [| |exact Hrun].
    + by rewrite Hfs.
    + by rewrite HSf.
Qed.

(** X13 (lines 62-109, 128-129 and 147-168).  A run over sources with
    which the destination is in step leaves every file and directory as it
    is, however the run ends: where each source has a directory the
    destination has one, and each source file has a destination file of
    the same time.  The bytes of two files that carry the same time are
    read but what is done does not depend on them. *)
Theorem settled_run_changes_nothing limit st r st' :
  (∀ src, src ∈ source args → in_step src (destination args) (fs st)) →
  main utcoffset args limit st = (r, st') →
  fs st' = fs st.
Proof.
  intros Hstep. unfold main, mbind, M_bind.
  destruct (for_each (source args) check_source st) as [[[]|e] st1] eqn:Hcheck.
  - assert (fs st1 = fs st) as Hfs1.
    { revert Hcheck. apply for_each_keeps_fs; [|done].
      intros src st0 r0 st0' _ <-. apply check_source_keeps_fs. }
    pose proof (check_sources_inv _ _ _ Hcheck) as Hdirs.
    assert (∀ r2 st2,
      for_each (source args) (process_source utcoffset args limit) st1 = (r2, st2) →
      fs st2 = fs st) as Hwalk.
    { intros r2 st2. apply for_each_keeps_fs; [|done].
      intros src st0 r0 st0' Hsrc Hfs0. unfold process_source.
      rewrite (bind_ok _ _ _ _ _ (print_eq _ _)). intros Hrun.
      apply recurse_dir_in_step in Hrun; cbn [fs source_of dest_of] in *.
      - by rewrite Hrun.
      - rewrite Hfs0. by apply Hdirs.
      - rewrite Hfs0. by apply Hstep. }
    destruct (for_each (source args) (process_source utcoffset args limit) st1)
      as [[[]|e] st2] eqn:Hrun.
    + rewrite print_eq. intros [= _ <-]. cbn [fs]. by eapply Hwalk.
    + intros [= _ <-]. by eapply Hwalk.
  - intros [= _ <-]. revert Hcheck. apply for_each_keeps_fs; [|done].
    intros src st0 r0 st0' _ <-. apply check_source_keeps_fs.
Qed.

End Settled.

(** ** The further properties at work *)

Lemma ts_str_one_component_witness :
  Civil.well_shaped (ts_str utc 3) = true
  ∧ String.length (ts_str utc 3) = 24%nat
  ∧ "/"%char ∉ String.list_ascii_of_string (ts_str utc 3).
Proof.
  apply (ts_str_one_component utc 3). vm_compute. split; discriminate.
Defined.

Lemma assure_dest_hash_settles_witness :
  ∃ st1,
    assure_dest_hash ["d"; "a"] (fresh newer_identical) = (Ok (md5 "A"), st1)
    ∧ assure_dest_hash ["d"; "a"] st1 = (Ok (md5 "A"), st1)
    ∧ fs st1 = fs (fresh newer_identical)
    ∧ trace st1 = trace (fresh newer_identical)
    ∧ md5 "A" ∈ default [] (dest_hashes st1 !! ["d"; "a"])
    ∧ (∀ h, h ∈ default [] (dest_hashes (fresh newer_identical) !! ["d"; "a"]) →
            h ∈ default [] (dest_hashes st1 !! ["d"; "a"]))
    ∧ (∀ q, q ≠ ["d"; "a"] →
            dest_hashes st1 !! q = dest_hashes (fresh newer_identical) !! q).
Proof.
  apply (assure_dest_hash_settles ["d"; "a"] (fresh newer_identical) "A" 3).
  vm_compute. reflexivity.
Defined.

Lemma assure_dest_hash_missing_file_witness :
  ∃ st1,
    assure_dest_hash ["d"; "b"] (fresh newer_identical)
    = (Raise (FileNotFoundError ["d"; "b"]), st1)
    ∧ fs st1 = fs (fresh newer_identical)
    ∧ trace st1 = trace (fresh newer_identical)
    ∧ dest_hashes st1 !! ["d"; "b"]
      = Some (default [] (dest_hashes (fresh newer_identical) !! ["d"; "b"]))
    ∧ (∀ q, q ≠ ["d"; "b"] →
            dest_hashes st1 !! q = dest_hashes (fresh newer_identical) !! q).
Proof.
  apply (assure_dest_hash_missing_file ["d"; "b"] (fresh newer_identical)).
  vm_compute. reflexivity.
Defined.

Lemma assure_dest_hash_no_duplicates_witness :
  ledger_nodup
    (dest_hashes (assure_dest_hash ["d"; "a"] (fresh newer_identical)).2).
Proof.
  apply (assure_dest_hash_no_duplicates ["d"; "a"] (fresh newer_identical)
           (assure_dest_hash ["d"; "a"] (fresh newer_identical)).1).
  - intros p l Hl. exfalso. revert Hl. vm_compute. discriminate.
  - apply surjective_pairing.
Defined.

Lemma absent_destination_gets_copy_witness :
  ∃ st',
    merge_entry utc ["s1"; "sub"] ["d"] "a" (fresh dir_on_file) = (Ok tt, st')
    ∧ fs st' !! (["d"] ++ ["a"]) = Some (File "B" 5)
    ∧ (∀ p, p ≠ ["d"] ++ ["a"] → fs st' !! p = fs (fresh dir_on_file) !! p)
    ∧ trace st'
      = trace (fresh dir_on_file)
        ++ [Copy2 (["s1"; "sub"] ++ ["a"]) (["d"] ++ ["a"])]
    ∧ md5 "B" ∈ default [] (dest_hashes st' !! (["d"] ++ ["a"])).
Proof.
  apply (absent_destination_gets_copy utc (fresh dir_on_file)
           ["s1"; "sub"] ["d"] "a" "B" 5).
  - vm_compute. reflexivity.
  - vm_compute. reflexivity.
  - vm_compute. reflexivity.
Defined.

Lemma vanished_source_raises_witness :
  merge_entry utc ["s1"] ["d"] "b" (fresh newer_identical)
  = (Raise (FileNotFoundError (["s1"] ++ ["b"])), fresh newer_identical).
Proof.
  apply (vanished_source_raises utc (fresh newer_identical) ["s1"] ["d"] "b").
  vm_compute. reflexivity.
Defined.

Lemma destination_replaced_only_by_newer_witness :
  let st := fresh newer_different in
  let st' := (merge_entry utc ["s1"] ["d"] "a" st).2 in
  fs st' !! (["d"] ++ ["a"]) = Some (File "A" 3)
  ∨ ∃ B t1,
      fs st !! (["s1"] ++ ["a"]) = Some (File B t1)
      ∧ 3 < t1
      ∧ md5 B ≠ md5 "A"
      ∧ fs st' !! (["d"] ++ ["a"]) = Some (File B t1).
Proof.
  intros st st'.
  apply (destination_replaced_only_by_newer utc st ["s1"] ["d"] "a" "A" 3 st').
  - vm_compute. reflexivity.
  - vm_compute. reflexivity.
Defined.


Lemma run_raises_no_key_error_witness :
  IsADirectoryError ["d"; "a"] ≠ KeyError ["d"; "a"].
Proof.
  apply (run_raises_no_key_error utc one_source limit (fresh file_on_dir)
           (IsADirectoryError ["d"; "a"])
           (main utc one_source limit (fresh file_on_dir)).2 ["d"; "a"]).
  vm_compute. reflexivity.
Defined.

Lemma run_ledger_only_gains_witness :
  let st := State newer_different {[ ["d"; "a"] := ["0"] ]} [] in
  ∃ l', dest_hashes (main utc one_source limit st).2 !! ["d"; "a"] = Some l'
        ∧ ∀ h, h ∈ ["0"] → h ∈ l'.
Proof.
  intros st.
  apply (run_ledger_only_gains utc one_source limit st
           (main utc one_source limit st).1).
  - apply surjective_pairing.
  - vm_compute. reflexivity.
Defined.

Lemma run_keeps_directories_witness :
  fs (main utc one_source limit (fresh newer_different)).2 !! ["d"] = Some Dir.
Proof.
  apply (run_keeps_directories utc one_source limit (fresh newer_different)
           (main utc one_source limit (fresh newer_different)).1).
  - apply surjective_pairing.
  - vm_compute. reflexivity.
Defined.


Lemma settled_run_changes_nothing_witness :
  fs (main utc one_source limit (fresh same_time)).2 = fs (fresh same_time).
Proof.
  apply (settled_run_changes_nothing utc one_source limit (fresh same_time)
           (main utc one_source limit (fresh same_time)).1).
  - intros src ->%list_elem_of_singleton q. cbn [fs fresh destination one_source].
    destruct (same_time !! (["s1"] ++ q)) as [n|] eqn:Hn; [|done].
    unfold same_time, tree in Hn. apply elem_of_list_to_map_2 in Hn.
    cbn [app] in Hn.
    repeat (apply elem_of_cons in Hn as [Hn|Hn]; [simplify_eq|]).
    + vm_compute. reflexivity.
    + exists "A". vm_compute. reflexivity.
    + by apply elem_of_nil in Hn.
  - apply surjective_pairing.
Defined.

(** * The claim on source content, over whole runs *)

Section Names.

Variable utcoffset : Z → Z.

Lemma plain_cons c r : plain r = false → plain (String c r) = false.
Proof.
  destruct r as [|c' r']; [done|]. intros Hr.
  change (negb (Ascii.eqb c "-" && Ascii.eqb c' "-") && plain (String c' r') = false).
  by rewrite Hr, andb_false_r.
Qed.

Lemma plain_suffixed g s : plain (g +:+ "--" +:+ s) = false.
Proof.
  induction g as [|c g IH].
  - by destruct s.
  - apply plain_cons, IH.
Qed.

Lemma plain_not_suffixed f g s : plain f = true → f ≠ g +:+ "--" +:+ s.
Proof. intros Hf ->. by rewrite plain_suffixed in Hf. Qed.

Lemma append_inj_length (a a' b b' : string) :
  String.length b = String.length b' → a +:+ b = a' +:+ b' → a = a' ∧ b = b'.
Proof.
  revert a'. induction a as [|c a IH]; intros [|c' a'] Hlen Heq; simpl in *.
  - done.
  - apply (f_equal String.length) in Heq.
    rewrite !length_append in Heq. simpl in Heq. rewrite ?length_append in Heq. lia.
  - apply (f_equal String.length) in Heq.
    rewrite !length_append in Heq. simpl in Heq. rewrite ?length_append in Heq. lia.
  - injection Heq as -> Heq. by destruct (IH _ Hlen Heq) as [-> ->].
Qed.

Lemma ts_str_length t : String.length (ts_str utcoffset t) = 24%nat.
Proof. unfold ts_str, Civil.pad4, Civil.pad2. reflexivity. Qed.

Lemma suffixed_inj f f' t t' :
  f +:+ "--" +:+ ts_str utcoffset t = f' +:+ "--" +:+ ts_str utcoffset t' →
  f = f' ∧ ts_str utcoffset t = ts_str utcoffset t'.
Proof.
  intros Heq. apply append_inj_length in Heq as [-> Heq].
  - split; [done|]. apply append_inj_length in Heq as [_ Heq]; [done|].
    by rewrite !ts_str_length.
  - by rewrite !length_append, !ts_str_length.
Qed.

End Names.

Section Kept.

Variable utcoffset : Z → Z.
Variable args : Args.
Variable m0 : gmap path node.

Hypothesis Hone : one_time_one_digest utcoffset args m0.

Implicit Types (m : gmap path node) (rel : path) (f name h : string).

Lemma below_inj (d rel rel' : path) (name name' : string) :
  d ++ rel ++ [name] = d ++ rel' ++ [name'] → rel = rel' ∧ name = name'.
Proof. intros Heq%app_inv_head. by apply app_inj_tail in Heq. Qed.

Lemma below_outside (d rel : path) : d `prefix_of` d ++ rel.
Proof. by apply prefix_app_r. Qed.

Lemma still_held_refl m : still_held utcoffset args m0 m m.
Proof. by intros rel f h _. Qed.

Lemma still_held_trans m1 m2 m3 :
  still_held utcoffset args m0 m1 m2 →
  still_held utcoffset args m0 m2 m3 →
  still_held utcoffset args m0 m1 m3.
Proof. intros H12 H23 rel f h Hf H. by apply H23, H12. Qed.

(** A file that is put under its plain name loses nothing when what was
    there has been saved under the suffixed name. *)
Lemma still_held_insert_plain m rel f data t :
  plain f = true →
  (∀ A t0, m !! (destination args ++ rel ++ [f]) = Some (File A t0) →
           m !! (destination args ++ rel ++ [f +:+ "--" +:+ ts_str utcoffset t0])
           = Some (File A t0)) →
  still_held utcoffset args m0 m
    (<[destination args ++ rel ++ [f] := File data t]> m).
Proof.
  intros Hf Hsaved rel2 f2 h Hf2 (name & A & t0 & HA & Hh & Hname & Ho).
  destruct (decide (destination args ++ rel2 ++ [name]
                    = destination args ++ rel ++ [f])) as [Heq|Hne].
  - apply below_inj in Heq as [-> ->].
    assert (f2 = f) as ->.
    { destruct Hname as [?|Hs]; [done|]. by apply plain_not_suffixed in Hs. }
    exists (f +:+ "--" +:+ ts_str utcoffset t0), A, t0.
    split; [|by auto].
    rewrite lookup_insert_ne; [by apply Hsaved|].
    intros [_ Heq]%below_inj. by apply plain_not_suffixed in Heq.
  - exists name, A, t0. by rewrite lookup_insert_ne.
Qed.

(** A file that is put under a suffixed name replaces at most a file of
    the same digest, as far as files that are held go. *)
Lemma still_held_insert_suffixed m rel f data t :
  plain f = true →
  origin utcoffset args m0 (rel ++ [f]) (ts_str utcoffset t) (md5 data) →
  still_held utcoffset args m0 m
    (<[destination args ++ rel ++ [f +:+ "--" +:+ ts_str utcoffset t]
       := File data t]> m).
Proof.
  intros Hf Horigin rel2 f2 h Hf2 (name & A & t0 & HA & Hh & Hname & Ho).
  destruct (decide (destination args ++ rel2 ++ [name]
                    = destination args ++ rel
                      ++ [f +:+ "--" +:+ ts_str utcoffset t])) as [Heq|Hne].
  - apply below_inj in Heq as [-> ->].
    destruct Hname as [Hs|Hs].
    { symmetry in Hs. by apply plain_not_suffixed in Hs. }
    apply suffixed_inj in Hs as [-> Hts]. rewrite <- Hts in Ho.
    assert (md5 data = h) as Hd by exact (Hone _ _ _ _ Horigin Ho).
    exists (f2 +:+ "--" +:+ ts_str utcoffset t), data, t.
    rewrite lookup_insert_eq. split; [reflexivity|]. split; [exact Hd|].
    split; [right; reflexivity|exact Ho].
  - exists name, A, t0. by rewrite lookup_insert_ne.
Qed.

Lemma still_held_insert_free m p n :
  m !! p = None → still_held utcoffset args m0 m (<[p := n]> m).
Proof.
  intros Hp rel f h _ (name & A & t0 & HA & Hh & Hname & Ho).
  exists name, A, t0. rewrite lookup_insert_ne; [done|].
  intros ->. rewrite Hp in HA. discriminate HA.
Qed.

Lemma kept_fs_insert_plain m rel f data t :
  kept_fs utcoffset args m0 m →
  origin utcoffset args m0 (rel ++ [f]) (ts_str utcoffset t) (md5 data) →
  kept_fs utcoffset args m0
    (<[destination args ++ rel ++ [f] := File data t]> m).
Proof.
  intros [Hout Horig Hdirs] Hnew. split.
  - intros p Hp. rewrite lookup_insert_ne; [by apply Hout|].
    intros Heq. apply Hp. rewrite <- Heq. apply below_outside.
  - intros rel2 f2 data2 t2 Hf2.
    destruct (decide (destination args ++ rel ++ [f]
                      = destination args ++ rel2 ++ [f2])) as [Heq|Hne].
    + rewrite Heq, lookup_insert_eq. apply below_inj in Heq as [<- <-].
      intros Hfile. injection Hfile as <- <-. exact Hnew.
    + rewrite lookup_insert_ne by done. by apply Horig.
  - intros rel2.
    destruct (decide (destination args ++ rel ++ [f]
                      = destination args ++ rel2)) as [Heq|Hne].
    + rewrite Heq, lookup_insert_eq. discriminate.
    + rewrite lookup_insert_ne by done. apply Hdirs.
Qed.

Lemma kept_fs_insert_suffixed m rel f s data t :
  kept_fs utcoffset args m0 m →
  kept_fs utcoffset args m0
    (<[destination args ++ rel ++ [f +:+ "--" +:+ s] := File data t]> m).
Proof.
  intros [Hout Horig Hdirs]. split.
  - intros p Hp. rewrite lookup_insert_ne; [by apply Hout|].
    intros Heq. apply Hp. rewrite <- Heq. apply below_outside.
  - intros rel2 f2 data2 t2 Hf2.
    rewrite lookup_insert_ne; [by apply Horig|].
    intros [_ Heq]%below_inj. symmetry in Heq.
    by apply plain_not_suffixed in Heq.
  - intros rel2.
    destruct (decide (destination args ++ rel ++ [f +:+ "--" +:+ s]
                      = destination args ++ rel2)) as [Heq|Hne].
    + rewrite Heq, lookup_insert_eq. discriminate.
    + rewrite lookup_insert_ne by done. apply Hdirs.
Qed.

Lemma kept_fs_mkdir m rel :
  kept_fs utcoffset args m0 m →
  Forall (λ c, plain c = true) rel →
  kept_fs utcoffset args m0 (<[destination args ++ rel := Dir]> m).
Proof.
  intros [Hout Horig Hdirs] Hrel. split.
  - intros p Hp. rewrite lookup_insert_ne; [by apply Hout|].
    intros Heq. apply Hp. rewrite <- Heq. apply below_outside.
  - intros rel2 f2 data2 t2 Hf2.
    destruct (decide (destination args ++ rel
                      = destination args ++ rel2 ++ [f2])) as [Heq|Hne].
    + rewrite Heq, lookup_insert_eq. discriminate.
    + rewrite lookup_insert_ne by done. by apply Horig.
  - intros rel2.
    destruct (decide (destination args ++ rel = destination args ++ rel2))
      as [Heq|Hne].
    + apply app_inv_head in Heq as <-. done.
    + rewrite lookup_insert_ne by done. apply Hdirs.
Qed.

Lemma ledger_held_still led m m' :
  ledger_held utcoffset args m0 led m →
  still_held utcoffset args m0 m m' →
  ledger_held utcoffset args m0 led m'.
Proof. intros Hled Hstill rel f h Hf Hh. by apply Hstill, Hled. Qed.

Lemma ledger_held_assured led m rel f h :
  ledger_held utcoffset args m0 led m →
  held utcoffset args m0 m rel f h →
  ledger_held utcoffset args m0
    (assured (destination args ++ rel ++ [f]) h led) m.
Proof.
  intros Hled Hheld rel2 f2 h2 Hf2.
  destruct (decide (destination args ++ rel ++ [f]
                    = destination args ++ rel2 ++ [f2])) as [Heq|Hne].
  - rewrite <- Heq, assured_lookup. cbn [default from_option id].
    apply below_inj in Heq as [<- <-].
    intros [Hold| ->]%elem_of_assured_list; [by apply Hled|done].
  - unfold assured. rewrite lookup_insert_ne by done. by apply Hled.
Qed.

Lemma ledger_held_recorded led m rel f h :
  ledger_held utcoffset args m0 led m →
  held utcoffset args m0 m rel f h →
  ledger_held utcoffset args m0
    (recorded (destination args ++ rel ++ [f]) h led) m.
Proof.
  intros Hled Hheld rel2 f2 h2 Hf2. unfold recorded.
  destruct (decide (destination args ++ rel ++ [f]
                    = destination args ++ rel2 ++ [f2])) as [Heq|Hne].
  - rewrite <- Heq, lookup_insert_eq. cbn [default from_option id].
    apply below_inj in Heq as [<- <-].
    intros [Hold| ->%list_elem_of_singleton]%elem_of_app; [by apply Hled|done].
  - rewrite lookup_insert_ne by done. by apply Hled.
Qed.

Lemma held_at m rel f data t :
  m !! (destination args ++ rel ++ [f]) = Some (File data t) →
  origin utcoffset args m0 (rel ++ [f]) (ts_str utcoffset t) (md5 data) →
  held utcoffset args m0 m rel f (md5 data).
Proof. intros Hm Ho. exists f, data, t. auto. Qed.

Lemma held_at_suffixed m rel f data t :
  m !! (destination args ++ rel ++ [f +:+ "--" +:+ ts_str utcoffset t])
  = Some (File data t) →
  origin utcoffset args m0 (rel ++ [f]) (ts_str utcoffset t) (md5 data) →
  held utcoffset args m0 m rel f (md5 data).
Proof.
  intros Hm Ho. exists (f +:+ "--" +:+ ts_str utcoffset t), data, t. auto.
Qed.

Lemma insert_insert_delete m (p q : path) (x y : node) :
  p ≠ q → <[p := x]> (<[q := y]> (delete p m)) = <[p := x]> (<[q := y]> m).
Proof.
  intros Hpq. apply map_eq. intros i.
  destruct (decide (i = p)) as [->|Hip].
  - by rewrite !lookup_insert_eq.
  - rewrite !(lookup_insert_ne _ p) by done.
    destruct (decide (i = q)) as [->|Hiq].
    + by rewrite !lookup_insert_eq.
    + by rewrite !lookup_insert_ne, lookup_delete_ne by done.
Qed.

Lemma below_suffixed_ne (d rel rel' : path) f s :
  d ++ rel ++ [f] ≠ d ++ rel' ++ [f +:+ "--" +:+ s].
Proof.
  intros [_ Heq]%below_inj. symmetry in Heq. by apply append_longer in Heq.
Qed.

Lemma kept_suffixed_no_dir m rel f s :
  kept_fs utcoffset args m0 m →
  m !! (destination args ++ rel ++ [f +:+ "--" +:+ s]) ≠ Some Dir.
Proof.
  intros Hfs Hdir. apply (kept_dirs _ _ _ _ Hfs) in Hdir.
  rewrite Forall_app, Forall_singleton in Hdir. destruct Hdir as [_ Hdir].
  by rewrite plain_suffixed in Hdir.
Qed.

(** The reconciliation of one file keeps the invariant, loses no digest
    that was held, and holds the digest of the source file. *)
Lemma merge_entry_kept st st' src rel f B t1 :
  kept utcoffset args m0 st →
  src ∈ source args →
  ¬ destination args `prefix_of` src ++ rel ++ [f] →
  plain f = true →
  fs st !! (src ++ rel ++ [f]) = Some (File B t1) →
  fs st !! (destination args ++ rel) = Some Dir →
  merge_entry utcoffset (src ++ rel) (destination args ++ rel) f st = (Ok tt, st') →
  kept utcoffset args m0 st'
  ∧ still_held utcoffset args m0 (fs st) (fs st')
  ∧ held utcoffset args m0 (fs st') rel f (md5 B).
Proof.
  intros [Hfs Hled] Hsrc Hout Hf HS Hdest.
  assert (origin utcoffset args m0 (rel ++ [f]) (ts_str utcoffset t1) (md5 B))
    as HoS.
  { exists src, B, t1. split; [apply elem_of_cons; by right|].
    by rewrite <- (kept_outside _ _ _ _ Hfs). }
  pose proof HS as HS'. rewrite app_assoc in HS'.
  destruct (fs st !! (destination args ++ rel ++ [f])) as [[A t0|]|] eqn:HD;
    pose proof HD as HD'; rewrite app_assoc in HD'.
  - (* a file is there *)
    assert (origin utcoffset args m0 (rel ++ [f]) (ts_str utcoffset t0) (md5 A))
      as HoA.
    { by apply (kept_origin _ _ _ _ Hfs). }
    pose proof (held_at _ _ _ _ _ HD HoA) as HheldA.
    destruct (Z.lt_trichotomy t0 t1) as [Hlt|[Heq|Hgt]].
    + destruct (decide (md5 B = md5 A)) as [Hh|Hh].
      * rewrite (merge_entry_newer_identical _ _ _ _ _ _ _ _ _ HS' HD' Hlt Hh).
        intros Hrun. injection Hrun as <-. unfold kept. cbn [fs dest_hashes].
        rewrite <- app_assoc. split_and!; [done| |apply still_held_refl|].
        -- by apply ledger_held_assured.
        -- rewrite Hh. exact HheldA.
      * rewrite (merge_entry_newer_different _ _ _ _ _ _ _ _ _ HS' HD' Hlt Hh Hdest).
        2: { rewrite <- app_assoc. by apply kept_suffixed_no_dir. }
        intros Hrun. injection Hrun as <-. unfold kept. cbn [fs dest_hashes].
        rewrite <- !app_assoc.
        rewrite insert_insert_delete by apply below_suffixed_ne.
        pose proof (kept_fs_insert_suffixed _ rel f (ts_str utcoffset t0) A t0 Hfs)
          as Hfs1.
        pose proof (kept_fs_insert_plain _ rel f B t1 Hfs1 HoS) as Hfs2.
        pose proof (still_held_insert_suffixed (fs st) rel f A t0 Hf HoA) as H01.
        assert (still_held utcoffset args m0
                  (<[destination args ++ rel
                     ++ [f +:+ "--" +:+ ts_str utcoffset t0] := File A t0]> (fs st))
                  (<[destination args ++ rel ++ [f] := File B t1]>
                     (<[destination args ++ rel
                        ++ [f +:+ "--" +:+ ts_str utcoffset t0] := File A t0]>
                        (fs st)))) as H12.
        { apply still_held_insert_plain; [done|]. intros A' t0'.
          rewrite lookup_insert_ne by (apply not_eq_sym, below_suffixed_ne).
          rewrite HD. intros Hfile. injection Hfile as <- <-.
          apply lookup_insert_eq. }
        pose proof (still_held_trans _ _ _ H01 H12) as H02.
        assert (held utcoffset args m0
                  (<[destination args ++ rel ++ [f] := File B t1]>
                     (<[destination args ++ rel
                        ++ [f +:+ "--" +:+ ts_str utcoffset t0] := File A t0]>
                        (fs st))) rel f (md5 B)) as HheldB.
        { apply held_at with (t := t1); [apply lookup_insert_eq|done]. }
        split_and!; [done| |done|done].
        apply ledger_held_recorded; [|done].
        eapply ledger_held_still; [|exact H02]. by apply ledger_held_assured.
    + subst t0.
      rewrite (merge_entry_equal _ _ _ _ _ _ _ _ HS' HD').
      intros Hrun. injection Hrun as <-. unfold kept. cbn [fs dest_hashes].
      rewrite <- app_assoc. split_and!; [done| |apply still_held_refl|].
      * by apply ledger_held_assured.
      * rewrite (Hone _ _ _ _ HoS HoA). exact HheldA.
    + destruct (decide (md5 B ∈ default [] (dest_hashes st
                          !! ((destination args ++ rel) ++ [f]))
                        ∨ md5 B = md5 A)) as [Hknown|Hnew].
      * rewrite (merge_entry_older_known _ _ _ _ _ _ _ _ _ HS' HD' Hgt Hknown).
        intros Hrun. injection Hrun as <-. unfold kept. cbn [fs dest_hashes].
        rewrite <- app_assoc. split_and!; [done| |apply still_held_refl|].
        -- by apply ledger_held_assured.
        -- destruct Hknown as [Hin|Hh].
           ++ rewrite <- app_assoc in Hin. by apply Hled.
           ++ rewrite Hh. exact HheldA.
      * assert (md5 B ∉ default [] (dest_hashes st
                          !! ((destination args ++ rel) ++ [f]))) as Hnin.
        { intros Hin. apply Hnew. by left. }
        assert (md5 B ≠ md5 A) as Hh.
        { intros Hh. apply Hnew. by right. }
        rewrite (merge_entry_older_unknown _ _ _ _ _ _ _ _ _ HS' HD' Hgt Hh Hnin Hdest).
        2: { rewrite <- app_assoc. by apply kept_suffixed_no_dir. }
        intros Hrun. injection Hrun as <-. unfold kept. cbn [fs dest_hashes].
        rewrite <- !app_assoc.
        pose proof (kept_fs_insert_suffixed _ rel f (ts_str utcoffset t1) B t1 Hfs)
          as Hfs1.
        pose proof (still_held_insert_suffixed (fs st) rel f B t1 Hf HoS) as H01.
        assert (held utcoffset args m0
                  (<[destination args ++ rel
                     ++ [f +:+ "--" +:+ ts_str utcoffset t1] := File B t1]> (fs st))
                  rel f (md5 B)) as HheldB.
        { apply held_at_suffixed with (t := t1); [apply lookup_insert_eq|done]. }
        split_and!; [done| |done|done].
        apply ledger_held_recorded; [|done].
        eapply ledger_held_still; [|exact H01]. by apply ledger_held_assured.
  - (* a directory is there *)
    unfold merge_entry.
    rewrite (bind_ok _ _ _ _ _ (os_path_exists_eq _ _)).
    unfold exists_in. rewrite HD'. cbn [negb].
    rewrite (bind_ok _ _ _ _ _ (st_mtime_file _ _ _ _ HS')).
    erewrite bind_ok by (unfold st_mtime; by rewrite HD').
    rewrite (bind_ok _ _ _ _ _ (read_file_file _ _ _ _ HS')).
    destruct (assure_dest_hash_dir st _ HD') as (st1 & Hraise & _).
    by rewrite (bind_raise _ _ _ _ _ Hraise).
  - (* nothing is there *)
    rewrite (merge_entry_absent _ _ _ _ _ _ _ HS' HD' Hdest).
    intros Hrun. injection Hrun as <-. unfold kept. cbn [fs dest_hashes].
    rewrite <- !app_assoc.
    pose proof (kept_fs_insert_plain _ rel f B t1 Hfs HoS) as Hfs1.
    pose proof (still_held_insert_free (fs st) _ (File B t1) HD) as H01.
    assert (held utcoffset args m0
              (<[destination args ++ rel ++ [f] := File B t1]> (fs st))
              rel f (md5 B)) as HheldB.
    { apply held_at with (t := t1); [apply lookup_insert_eq|done]. }
    split_and!; [done| |done|done].
    apply ledger_held_assured; [|done]. by eapply ledger_held_still.
Qed.

(** The entry into a directory: the mirror image is there afterwards, as a
    directory of a plain name, and the names listed are those of the
    source directory. *)
Lemma enter_dir_kept st names st1 src rel :
  kept utcoffset args m0 st →
  Forall (λ c, plain c = true) rel →
  fs st !! (src ++ rel) = Some Dir →
  ¬ destination args `prefix_of` src ++ rel →
  enter_dir (src ++ rel) (destination args ++ rel) st = (Ok names, st1) →
  kept utcoffset args m0 st1
  ∧ still_held utcoffset args m0 (fs st) (fs st1)
  ∧ names = children (fs st1) (src ++ rel)
  ∧ fs st1 !! (destination args ++ rel) = Some Dir.
Proof.
  intros [Hfs Hled] Hrel HS Hout. unfold enter_dir.
  rewrite (bind_ok _ _ _ _ _ (os_path_isdir_eq _ _)). unfold isdir_in.
  destruct (fs st !! (destination args ++ rel)) as [[A t|]|] eqn:HD; cbn [negb].
  - erewrite bind_raise; [done|]. unfold os_mkdir. by rewrite HD.
  - erewrite bind_ok by reflexivity. unfold os_listdir. rewrite HS.
    intros Hrun. injection Hrun as <- <-.
    split_and!; [done|apply still_held_refl|done|done].
  - unfold os_mkdir. unfold mbind at 1, M_bind at 1. rewrite HD.
    destruct (parent_error (fs st) (destination args ++ rel)); [done|].
    unfold os_listdir. proj_simpl.
    rewrite lookup_insert_ne by (intros Heq; apply Hout; rewrite <- Heq;
                                 apply below_outside).
    rewrite HS. intros Hrun. injection Hrun as <- <-. proj_simpl.
    pose proof (still_held_insert_free (fs st) _ Dir HD) as Hstill.
    split_and!; [split| | |].
    + by apply kept_fs_mkdir.
    + by eapply ledger_held_still.
    + done.
    + done.
    + apply lookup_insert_eq.
Qed.

(** A loop whose passes keep the invariant [I] and lose no digest that
    was held reaches, for every element, what its pass has reached, as far
    as that is a matter of digests held. *)
Lemma for_each_kept {A} (I : state → Prop) (P : A → gmap path node → Prop)
    (body : A → M unit) (l : list A) :
  (∀ x st st', x ∈ l → I st → body x st = (Ok tt, st') →
     I st' ∧ still_held utcoffset args m0 (fs st) (fs st')
     ∧ P x (fs st')) →
  (∀ x m m', x ∈ l → P x m → still_held utcoffset args m0 m m' →
             P x m') →
  ∀ st st', I st → for_each l body st = (Ok tt, st') →
    I st' ∧ still_held utcoffset args m0 (fs st) (fs st')
    ∧ ∀ x, x ∈ l → P x (fs st').
Proof.
  induction l as [|x l IH]; intros Hbody Hstable st st' HI; simpl.
  - intros Hrun. injection Hrun as <-.
    split_and!; [done|apply still_held_refl|]. intros x Hx.
    by apply elem_of_nil in Hx.
  - intros ([] & st1 & Hx & Hrest)%bind_inv_ok.
    destruct (Hbody x st st1) as (HI1 & H01 & HP); [by left|done..|].
    destruct (IH (λ y s s' Hy, Hbody y s s' (list_elem_of_further _ _ _ Hy))
                 (λ y m m' Hy, Hstable y m m' (list_elem_of_further _ _ _ Hy))
                 st1 st' HI1 Hrest) as (HI' & H1' & HPs).
    split_and!; [done|by eapply still_held_trans|].
    intros y [->|Hy]%elem_of_cons; [|by apply HPs].
    eapply Hstable; [by left|done..].
Qed.

Lemma source_of_rel src sub : source_of src sub = src ++ default [] sub.
Proof. destruct sub; [done|]. by rewrite app_nil_r. Qed.

Lemma dest_of_rel sub : dest_of args sub = destination args ++ default [] sub.
Proof. destruct sub; [done|]. simpl. by rewrite app_nil_r. Qed.

Lemma rel_child (sub : option path) f :
  default [] (match sub with None => Some [f] | Some sd => Some (sd ++ [f]) end)
  = default [] sub ++ [f].
Proof. by destruct sub. Qed.

Lemma apart_outside (src : path) rel :
  apart src (destination args) → ¬ destination args `prefix_of` src ++ rel.
Proof. intros Hapart [k Hk]. by apply Hapart in Hk. Qed.

Lemma closed_below_dir m (s q1 q2 : path) :
  closed_below m s → q2 ≠ [] → is_Some (m !! (s ++ q1 ++ q2)) →
  m !! (s ++ q1) = Some Dir.
Proof.
  intros Hc Hq2 Hsome. destruct q2 as [|g q2]; [done|].
  apply (Hc q1 g). apply (closed_below_up m s (q1 ++ [g]) q2 Hc).
  by rewrite <- app_assoc.
Qed.

Lemma plain_last (src : path) r f :
  plain_below src m0 → is_Some (m0 !! (src ++ r ++ [f])) → plain f = true.
Proof.
  intros Hplain Hsome. apply Hplain in Hsome.
  rewrite Forall_app, Forall_singleton in Hsome. by destruct Hsome.
Qed.

(** The walk of one directory of a source root keeps the invariant, loses
    no digest that was held, and holds the digest of every file that the
    tree [m0] has below the directory. *)
Lemma recurse_dir_kept depth : ∀ src sub st st',
  src ∈ source args →
  apart src (destination args) →
  plain_below src m0 →
  closed_below m0 src →
  kept utcoffset args m0 st →
  fs st !! (src ++ default [] sub) = Some Dir →
  recurse_dir utcoffset args depth src sub st = (Ok tt, st') →
  kept utcoffset args m0 st'
  ∧ still_held utcoffset args m0 (fs st) (fs st')
  ∧ ∀ q f B t,
      m0 !! (src ++ default [] sub ++ q ++ [f]) = Some (File B t) →
      held utcoffset args m0 (fs st') (default [] sub ++ q) f (md5 B).
Proof.
  induction depth as [|depth IH];
    intros src sub st st' Hsrc Hapart Hplain Hclosed Hk HS Hrun; [done|].
  cbn [recurse_dir] in Hrun.
  apply bind_inv_ok in Hrun as (names & st1 & Henter & Hloop).
  rewrite source_of_rel, dest_of_rel in Henter.
  assert (m0 !! (src ++ default [] sub) = Some Dir) as HS0.
  { rewrite <- (kept_outside _ _ _ _ (proj1 Hk)); [done|]. by apply apart_outside. }
  apply enter_dir_kept in Henter as (Hk1 & H01 & -> & HD1); try done.
  2: { apply Hplain. by rewrite HS0. }
  2: { by apply apart_outside. }
  pose (I := λ s : state,
          kept utcoffset args m0 s
          ∧ fs s !! (destination args ++ default [] sub) = Some Dir).
  pose (P := λ (x : string) (m : gmap path node),
          (∀ B t, m0 !! (src ++ default [] sub ++ [x]) = Some (File B t) →
                  held utcoffset args m0 m (default [] sub) x (md5 B))
          ∧ (∀ q f B t,
               m0 !! (src ++ default [] sub ++ [x] ++ q ++ [f]) = Some (File B t) →
               held utcoffset args m0 m (default [] sub ++ [x] ++ q) f
                 (md5 B))).
  destruct (for_each_kept I P
              (visit utcoffset args (recurse_dir utcoffset args depth) src sub)
              (children (fs st1) (src ++ default [] sub)))
    with (st := st1) (st' := st') as ([Hk' _] & H1' & HPs);
    [| |by split|done|].
  - (* one pass *)
    unfold I, P. intros x st2 st2' Hx [Hk2 HD2] Hvisit.
    assert (fs st2' !! (destination args ++ default [] sub) = Some Dir) as HD2'.
    { assert (keeps_dirs (visit utcoffset args
                            (recurse_dir utcoffset args depth) src sub x)) as Hkd.
      { unfold visit. apply keeps_dirs_bind; [apply keeps_dirs_isdir|].
        intros []; [destruct sub; apply keeps_dirs_recurse_dir
                   |apply keeps_dirs_merge_entry]. }
      exact (Hkd _ _ _ _ Hvisit HD2). }
    unfold visit in Hvisit.
    rewrite (bind_ok _ _ _ _ _ (os_path_isdir_eq _ _)) in Hvisit.
    unfold isdir_in in Hvisit. rewrite source_of_rel, dest_of_rel in Hvisit.
    rewrite <- app_assoc in Hvisit.
    pose proof (kept_outside _ _ _ _ (proj1 Hk2) (src ++ default [] sub ++ [x])
                  (apart_outside _ _ Hapart)) as Hsame.
    rewrite Hsame in Hvisit.
    destruct (m0 !! (src ++ default [] sub ++ [x])) as [[B t|]|] eqn:HSx.
    + (* a file *)
      apply merge_entry_kept with (B := B) (t1 := t) in Hvisit
        as (Hk2' & H22' & Hheld); try done.
      2: { by apply apart_outside. }
      2: { apply (plain_last src (default [] sub)); [done|]. by rewrite HSx. }
      split_and!; try done.
      * intros B' t' Hfile. by injection Hfile as <- <-.
      * intros q f B' t' Hfile. exfalso.
        assert (m0 !! (src ++ default [] sub ++ [x]) = Some Dir) as Hdir;
          [|by rewrite HSx in Hdir].
        apply (closed_below_dir m0 src (default [] sub ++ [x]) (q ++ [f]));
          [done|by destruct q|].
        rewrite <- app_assoc. by rewrite Hfile.
    + (* a directory *)
      rewrite recurse_child in Hvisit.
      apply IH in Hvisit as (Hk2' & H22' & Hheld); try done.
      2: { by rewrite rel_child. }
      split_and!; try done.
      intros q f B' t' Hfile. rewrite app_assoc, <- rel_child.
      apply Hheld with (t := t'). by rewrite rel_child, <- !app_assoc.
    + (* nothing *)
      rewrite merge_entry_vanished in Hvisit; [done|].
      by rewrite <- app_assoc, Hsame.
  - (* what was reached stays *)
    unfold P. intros x m m' _ [Hfile Hbelow] Hstill. split.
    + intros B t Hx. apply Hstill; [|by eapply Hfile].
      apply (plain_last src (default [] sub)); [done|]. by rewrite Hx.
    + intros q f B t Hx. apply Hstill; [|by eapply Hbelow].
      apply (plain_last src (default [] sub ++ [x] ++ q)); [done|].
      by rewrite <- !app_assoc, Hx.
  - (* all passes *)
    unfold P in HPs. split_and!; [done|by eapply still_held_trans|].
    intros [|x q] f B t Hfile.
    + change ([] ++ [f]) with [f] in Hfile. destruct (HPs f) as [Hhere _].
      { apply elem_of_children. rewrite <- app_assoc.
        rewrite (kept_outside _ _ _ _ (proj1 Hk1)) by by apply apart_outside.
        by rewrite Hfile. }
      rewrite app_nil_r. by apply Hhere with (t := t).
    + change ((x :: q) ++ [f]) with ([x] ++ q ++ [f]) in Hfile.
      destruct (HPs x) as [_ Hbelow].
      { apply elem_of_children. rewrite <- app_assoc.
        rewrite (kept_outside _ _ _ _ (proj1 Hk1)) by by apply apart_outside.
        rewrite (closed_below_dir m0 src (default [] sub ++ [x]) (q ++ [f]));
          [done|done|by destruct q|].
        rewrite <- app_assoc. by rewrite Hfile. }
      by apply Hbelow with (t := t).
Qed.

End Kept.

Section Preserved.

Variable utcoffset : Z → Z.
Variable args : Args.

Lemma check_sources_same (l : list path) : ∀ st st',
  for_each l check_source st = (Ok tt, st') → st' = st.
Proof.
  induction l as [|x l IH]; intros st st'; simpl.
  - intros Hrun. by injection Hrun.
  - intros ([] & st1 & Hx & Hrest)%bind_inv_ok.
    apply IH in Hrest as ->. revert Hx. unfold check_source.
    rewrite (bind_ok _ _ _ _ _ (os_path_isdir_eq _ _)).
    destruct (isdir_in (fs st) x); cbn [negb].
    + intros Hx. by injection Hx.
    + by rewrite (bind_ok _ _ _ _ _ (print_eq _ _)).
Qed.

Lemma kept_start st :
  dest_hashes st = ∅ →
  plain_dirs_below (destination args) (fs st) →
  kept utcoffset args (fs st) st.
Proof.
  intros Hled Hplain. split; [split|].
  - done.
  - intros rel f data t _ Hfile. exists (destination args), data, t.
    split; [by left|done].
  - done.
  - intros rel f h _. rewrite Hled, lookup_empty. intros Hin.
    by apply elem_of_nil in Hin.
Qed.

Lemma held_holds_digest (m0 m : gmap path node) rel f h :
  held utcoffset args m0 m rel f h →
  holds_digest m (destination args ++ rel) f h.
Proof.
  intros (name & data & t & Hfile & Hh & Hname & _). exists name, data, t.
  rewrite <- app_assoc. split; [|done]. destruct Hname as [?|?]; eauto.
Qed.


End Preserved.

(** ** The preservation of source content at work *)

(** No file [a] or [a--<suffix>] of the directory [d] of the tree [m] has
    bytes other than those listed. *)
Ltac only_bytes Hlook :=
  apply elem_of_list_to_map_2 in Hlook; cbn [app] in Hlook;
  repeat (apply elem_of_cons in Hlook as [Hlook|Hlook];
          [first [by simplify_eq | left; by simplify_eq | right; by simplify_eq]|]);
  by apply elem_of_nil in Hlook.


